(** * claw-stream-bot: broadcast hub, frame summarizer, capture supervisors

    A shallow embedding of the TypeScript sources

    - class [FrameSummarizer]     (frame-summarizer.ts),
    - class [VisionBroadcaster]   (vision-broadcaster.ts),
    - class [TwitchAudioCapture]  (capture of the audio of a stream),
    - class [TwitchStreamCapture] (capture of the frames of a stream),

    followed by the properties of the design document that were checked
    against them.

    Conventions.  A JavaScript object with identity (a [WebSocket], a child
    process, a frame, a timer) is a natural number naming it, and the
    objects live in a store next to the state of the class.  [Date.now()]
    is an argument [now] of every handler: one reading per synchronous run
    of a handler.  An [async] method is cut at its [await]: the part before
    and the part after are two functions, and the event loop chooses when
    the second one runs. *)

From Stdlib Require Import Ascii.
From stdpp Require Import functions gmap strings list.

Local Open Scope string_scope.
Local Open Scope Z_scope.
Local Open Scope list_scope.
Local Open Scope stdpp_scope.

(** ** JavaScript helpers *)

Module JS.

(** Truthiness of a string: only the empty string is falsy. *)
Definition truthy_string (s : string) : bool :=
  match s with EmptyString => false | _ => true end.

(** Truthiness of an optional string ([undefined] is falsy). *)
Definition truthy_opt (o : option string) : bool :=
  match o with Some s => truthy_string s | None => false end.

(** Truthiness of a number that is an integer: only zero is falsy. *)
Definition truthy_number (z : Z) : bool := negb (z =? 0)%Z.

(** Truthiness of [number | null]. *)
Definition truthy_opt_number (o : option Z) : bool :=
  match o with Some z => truthy_number z | None => false end.

(** [a ?? b] on an optional value. *)
Definition nullish {A} (o : option A) (d : A) : A :=
  match o with Some a => a | None => d end.

(** [Array.prototype.slice(start)] with one argument: a negative [start]
    counts from the end, and the relative start is clamped to the array. *)
Definition slice {A} (start : Z) (l : list A) : list A :=
  let len := Z.of_nat (length l) in
  let k := if (start <? 0)%Z then Z.max (len + start) 0 else Z.min start len in
  drop (Z.to_nat k) l.

(** [[...new Set(l)]]: the distinct elements in order of first occurrence. *)
Fixpoint unique_from (seen l : list string) : list string :=
  match l with
  | [] => []
  | x :: r =>
      if bool_decide (x ∈ seen) then unique_from seen r
      else x :: unique_from (x :: seen) r
  end.

Definition unique (l : list string) : list string := unique_from [] l.

(** [String.prototype.startsWith]. *)
Definition startsWith (s p : string) : bool := String.prefix p s.

(** Strings are sequences of code units below 256.  The white space that
    [trim] strips, among them: tab, line feed, vertical tab, form feed,
    carriage return, space, no-break space. *)
Definition is_whitespace (c : ascii) : bool :=
  bool_decide (nat_of_ascii c ∈ [9; 10; 11; 12; 13; 32; 160]%nat).

Fixpoint trimStart (s : string) : string :=
  match s with
  | String c r => if is_whitespace c then trimStart r else s
  | EmptyString => EmptyString
  end.

Fixpoint trimEnd (s : string) : string :=
  match s with
  | EmptyString => EmptyString
  | String c r =>
      match trimEnd r with
      | EmptyString => if is_whitespace c then EmptyString else String c EmptyString
      | r' => String c r'
      end
  end.

(** [String.prototype.trim] *)
Definition trim (s : string) : string := trimEnd (trimStart s).

(** [Array.prototype.join(sep)] on an array of strings. *)
Definition join (sep : string) (l : list string) : string := String.concat sep l.

(** [String.prototype.toLowerCase], on code units below 256. *)
Definition lower_char (c : ascii) : ascii :=
  let n := nat_of_ascii c in
  if bool_decide (65 ≤ n ≤ 90 ∨ 192 ≤ n ≤ 214 ∨ 216 ≤ n ≤ 222)%nat
  then ascii_of_nat (n + 32) else c.

Fixpoint toLowerCase (s : string) : string :=
  match s with
  | EmptyString => EmptyString
  | String c r => String (lower_char c) (toLowerCase r)
  end.

(** [String.prototype.includes] *)
Fixpoint includes (s needle : string) : bool :=
  String.prefix needle s
  || match s with
     | EmptyString => false
     | String _ r => includes r needle
     end.

(** A [Map] with string keys, kept as its entries in insertion order:
    [set] on a key that is present replaces the value where the entry
    stands, [set] on a new key appends, [delete] removes the entry. *)
Abbreviation Map V := (list (string * V)) (only parsing).

Fixpoint Map_set {V} (k : string) (v : V) (m : Map V) : Map V :=
  match m with
  | [] => [(k, v)]
  | (k', v') :: r =>
      if bool_decide (k' = k) then (k, v) :: r else (k', v') :: Map_set k v r
  end.

Definition Map_delete {V} (k : string) (m : Map V) : Map V :=
  filter (λ e, e.1 ≠ k) m.

Definition Map_keys {V} (m : Map V) : list string := m.*1.

Definition Map_values {V} (m : Map V) : list V := m.*2.

End JS.

(** ** Class [FrameSummarizer] *)

Module FrameSummarizer.

(** A block of [response.content]; only text blocks carry a [text]. *)
Inductive ContentBlock :=
| TextBlock (text : string)
| OtherBlock.

Definition is_text (b : ContentBlock) : bool :=
  match b with TextBlock _ => true | OtherBlock => false end.

(** How the describer request ends: the promise of
    [anthropic.messages.create] is fulfilled with content blocks, or it is
    rejected. *)
Inductive Outcome :=
| Fulfilled (content : list ContentBlock)
| Rejected.

(** [content.find(b => b.type === "text")], then its text, else [""]. *)
Definition summary_of (content : list ContentBlock) : string :=
  match List.find is_text content with
  | Some (TextBlock text) => text
  | _ => ""
  end.

Record t := mk {
  anthropic : bool;      (* the client is not null *)
  enabled : bool;
  isSummarizing : bool;
  lastSummary : string
}.

(** The constructor reads [process.env.ANTHROPIC_API_KEY]. *)
Definition new (apiKey : option string) : t :=
  if JS.truthy_opt apiKey then mk true true false ""
  else mk false false false "".

Definition isEnabled (s : t) : bool := enabled s.

(** What [summarizeFrame] has done when it first gives up control: it has
    returned a value, or it awaits the describer request it issued for the
    frame. *)
Inductive Started (F : Type) :=
| Returned (value : string)
| Awaiting (request : F).
Arguments Returned {F} value.
Arguments Awaiting {F} request.

(** [summarizeFrame], up to its [await]. *)
Definition summarizeFrame {F} (frame : F) (s : t) : t * Started F :=
  if negb (enabled s) || negb (anthropic s) then (s, Returned "")
  else if isSummarizing s then (s, Returned (lastSummary s))
  else (mk (anthropic s) (enabled s) true (lastSummary s), Awaiting frame).

(** [summarizeFrame], from the [await] on: the [try] body on a fulfilled
    request, the [catch] on a rejected one, and the [finally] in both. *)
Definition summarizeFrame_resume (o : Outcome) (s : t) : t * string :=
  match o with
  | Fulfilled content =>
      let summary := summary_of content in
      (mk (anthropic s) (enabled s) false summary, summary)
  | Rejected =>
      (mk (anthropic s) (enabled s) false (lastSummary s), lastSummary s)
  end.

Definition getLastSummary (s : t) : string := lastSummary s.

(** *** The summarizer driven by its environment

    [Call] is a call of [summarizeFrame]; [Settle o] is the describer
    request in flight ending with [o].  Each step records what a caller
    could observe. *)
Inductive Event :=
| Call
| Settle (o : Outcome).

Inductive Obs :=
| CallReturned (value : string)     (* a call returned without a request *)
| RequestStarted                    (* a call issued a describer request *)
| RequestSucceeded (value : string) (* the request was fulfilled; the call returned [value] *)
| RequestFailed (value : string).   (* the request was rejected; the call returned [value] *)

Definition step (e : Event) (s : t) : t * list Obs :=
  match e with
  | Call =>
      match summarizeFrame tt s with
      | (s', Returned v) => (s', [CallReturned v])
      | (s', Awaiting _) => (s', [RequestStarted])
      end
  | Settle o =>
      (* without a request in flight there is nothing to settle *)
      if isSummarizing s then
        match o, summarizeFrame_resume o s with
        | Fulfilled _, (s', v) => (s', [RequestSucceeded v])
        | Rejected, (s', v) => (s', [RequestFailed v])
        end
      else (s, [])
  end.

Fixpoint run (evs : list Event) (s : t) : t * list Obs :=
  match evs with
  | [] => (s, [])
  | e :: evs' =>
      let '(s1, o1) := step e s in
      let '(s2, o2) := run evs' s1 in
      (s2, o1 ++ o2)
  end.

(** The summary of the most recent describer request that succeeded, as
    an observer of the calls knows it; [""] before the first success. *)
Fixpoint last_successful (acc : string) (log : list Obs) : string :=
  match log with
  | [] => acc
  | RequestSucceeded v :: log' => last_successful v log'
  | _ :: log' => last_successful acc log'
  end.

#[global] Instance Obs_eq_dec : EqDecision Obs.
Proof. solve_decision. Defined.

(** The number of describer requests issued. *)
Definition requests (log : list Obs) : nat :=
  length (filter (λ o, o = RequestStarted) log).

(** The number of describer requests that have ended. *)
Definition is_settled (o : Obs) : bool :=
  match o with
  | RequestSucceeded _ | RequestFailed _ => true
  | _ => false
  end.

Definition settled (log : list Obs) : nat := length (filter is_settled log).

(** The number of calls of [summarizeFrame] in a run. *)
Definition is_call (e : Event) : bool :=
  match e with Call => true | Settle _ => false end.

Definition calls (evs : list Event) : nat := length (filter is_call evs).

End FrameSummarizer.

(** ** Class [VisionBroadcaster] *)

Module VisionBroadcaster.

(** A [WebSocket] object and a [StreamFrame] object, by identity. *)
Abbreviation WebSocket := nat (only parsing).
Abbreviation FrameRef := nat (only parsing).

Inductive ReadyState := CONNECTING | OPEN | CLOSING | CLOSED.

#[global] Instance ReadyState_eq_dec : EqDecision ReadyState.
Proof. solve_decision. Defined.

Record StreamFrame := mkFrame {
  f_timestamp : Z;
  imageBase64 : string;
  format : string;
  width : Z;
  height : Z;
  summary : option string          (* [frame.summary], absent until written *)
}.

Record ChatMessage := mkChat {
  c_timestamp : Z;
  username : string;
  displayName : string;
  message : string;
  channel : string;
  isMod : bool;
  isSubscriber : bool;
  badges : list (string * string)
}.

Record TranscriptMessage := mkTranscript {
  text : string;
  t_timestamp : Z
}.

Record ClawParticipant := mkParticipant {
  id : string;
  name : string;
  sessionId : string;
  joinedAt : Z;
  lastSeen : Z;
  ipAddress : option string;
  isLocal : bool
}.

(** [StreamState] as its readers see it.  Every caller of
    [getStreamState] serialises the result in the same synchronous run
    ([res.json], [JSON.stringify]), so the current frame is read through
    its reference at that moment. *)
Record StreamState := mkState {
  isLive : bool;
  st_currentFrame : option StreamFrame;
  st_recentChat : list ChatMessage;
  participants : list ClawParticipant;
  st_streamStartedAt : option Z
}.

Record ClawMessage := mkClawMessage {
  cm_type : string;
  content : string;
  clawId : string;
  clawName : string;
  cm_timestamp : Z
}.

(** What goes over the wire to a subscriber: a [VisionBroadcast]
    ([type], [payload], [timestamp]) or the reply to a ping. *)
Inductive Outbound :=
| MsgFrame (payload : StreamFrame) (timestamp : Z)
| MsgChat (payload : ChatMessage) (timestamp : Z)
| MsgState (payload : StreamState) (timestamp : Z)
| MsgTranscript (payload : TranscriptMessage) (timestamp : Z)
| MsgPong (timestamp : Z).

Definition is_state (m : Outbound) : bool :=
  match m with MsgState _ _ => true | _ => false end.

(** The parsed inbound message; a field that is absent is [None]. *)
Record Inbound := mkInbound {
  in_type : string;
  in_clawId : option string;
  in_clawName : option string;
  in_sessionId : option string;
  in_content : option string
}.

(** One end of a connection: its [readyState] and what [send] put on it. *)
Record Socket := mkSocket {
  readyState : ReadyState;
  sent : list Outbound
}.

Definition is_open (s : Socket) : bool := bool_decide (readyState s = OPEN).

Record ConnectedClaw := mkClaw {
  ws : WebSocket;
  participant : ClawParticipant
}.

Definition LOCAL_IPS : list string :=
  ["127.0.0.1"; "::1"; "localhost"; "::ffff:127.0.0.1"].

(** [LOCAL_IPS.includes(ip) || ip.startsWith("192.168.") || ip.startsWith("10.")] *)
Definition is_local (ip : string) : bool :=
  bool_decide (ip ∈ LOCAL_IPS) || JS.startsWith ip "192.168." || JS.startsWith ip "10.".

Definition maxChatHistory : nat := 100.

(** The fields of the class, then the world it acts on. *)
Record t := mk {
  connectedClaws : JS.Map ConnectedClaw;
  pendingConnections : gmap WebSocket string;
  recentChat : list ChatMessage;
  currentFrame : option FrameRef;
  streamStartedAt : option Z;
  totalConnectionsEver : Z;
  connectionsByIP : gmap string Z;
  frameSummarizer : FrameSummarizer.t;
  (* the sockets handed to the connection handler, by identity *)
  sockets : list Socket;
  (* the frame objects, by identity *)
  frames : FrameRef → StreamFrame;
  (* the frame whose describer request is in flight *)
  awaited : option FrameRef;
  (* promises of [summarizeFrame] that are resolved and whose [then]
     callback has not run yet: the frame and the summary *)
  microtasks : list (FrameRef * string);
  (* the messages handed to the [clawMessageHandlers] *)
  handled : list ClawMessage;
  (* the messages [broadcast] was called with, oldest first *)
  broadcasts : list Outbound
}.

Definition new (apiKey : option string) (heap : FrameRef → StreamFrame) : t :=
  mk [] ∅ [] None None 0 ∅ (FrameSummarizer.new apiKey) [] heap None [] [] [].

Definition set_connectedClaws (v : JS.Map ConnectedClaw) (h : t) : t :=
  mk v (pendingConnections h) (recentChat h) (currentFrame h) (streamStartedAt h)
     (totalConnectionsEver h) (connectionsByIP h) (frameSummarizer h) (sockets h)
     (frames h) (awaited h) (microtasks h) (handled h) (broadcasts h).

Definition set_pendingConnections (v : gmap WebSocket string) (h : t) : t :=
  mk (connectedClaws h) v (recentChat h) (currentFrame h) (streamStartedAt h)
     (totalConnectionsEver h) (connectionsByIP h) (frameSummarizer h) (sockets h)
     (frames h) (awaited h) (microtasks h) (handled h) (broadcasts h).

Definition set_recentChat (v : list ChatMessage) (h : t) : t :=
  mk (connectedClaws h) (pendingConnections h) v (currentFrame h) (streamStartedAt h)
     (totalConnectionsEver h) (connectionsByIP h) (frameSummarizer h) (sockets h)
     (frames h) (awaited h) (microtasks h) (handled h) (broadcasts h).

Definition set_currentFrame (v : option FrameRef) (h : t) : t :=
  mk (connectedClaws h) (pendingConnections h) (recentChat h) v (streamStartedAt h)
     (totalConnectionsEver h) (connectionsByIP h) (frameSummarizer h) (sockets h)
     (frames h) (awaited h) (microtasks h) (handled h) (broadcasts h).

Definition set_streamStartedAt (v : option Z) (h : t) : t :=
  mk (connectedClaws h) (pendingConnections h) (recentChat h) (currentFrame h) v
     (totalConnectionsEver h) (connectionsByIP h) (frameSummarizer h) (sockets h)
     (frames h) (awaited h) (microtasks h) (handled h) (broadcasts h).

Definition set_totalConnectionsEver (v : Z) (h : t) : t :=
  mk (connectedClaws h) (pendingConnections h) (recentChat h) (currentFrame h)
     (streamStartedAt h) v (connectionsByIP h) (frameSummarizer h) (sockets h)
     (frames h) (awaited h) (microtasks h) (handled h) (broadcasts h).

Definition set_connectionsByIP (v : gmap string Z) (h : t) : t :=
  mk (connectedClaws h) (pendingConnections h) (recentChat h) (currentFrame h)
     (streamStartedAt h) (totalConnectionsEver h) v (frameSummarizer h) (sockets h)
     (frames h) (awaited h) (microtasks h) (handled h) (broadcasts h).

Definition set_frameSummarizer (v : FrameSummarizer.t) (h : t) : t :=
  mk (connectedClaws h) (pendingConnections h) (recentChat h) (currentFrame h)
     (streamStartedAt h) (totalConnectionsEver h) (connectionsByIP h) v (sockets h)
     (frames h) (awaited h) (microtasks h) (handled h) (broadcasts h).

Definition set_sockets (v : list Socket) (h : t) : t :=
  mk (connectedClaws h) (pendingConnections h) (recentChat h) (currentFrame h)
     (streamStartedAt h) (totalConnectionsEver h) (connectionsByIP h)
     (frameSummarizer h) v (frames h) (awaited h) (microtasks h) (handled h)
     (broadcasts h).

Definition set_frames (v : FrameRef → StreamFrame) (h : t) : t :=
  mk (connectedClaws h) (pendingConnections h) (recentChat h) (currentFrame h)
     (streamStartedAt h) (totalConnectionsEver h) (connectionsByIP h)
     (frameSummarizer h) (sockets h) v (awaited h) (microtasks h) (handled h)
     (broadcasts h).

Definition set_awaited (v : option FrameRef) (h : t) : t :=
  mk (connectedClaws h) (pendingConnections h) (recentChat h) (currentFrame h)
     (streamStartedAt h) (totalConnectionsEver h) (connectionsByIP h)
     (frameSummarizer h) (sockets h) (frames h) v (microtasks h) (handled h)
     (broadcasts h).

Definition set_microtasks (v : list (FrameRef * string)) (h : t) : t :=
  mk (connectedClaws h) (pendingConnections h) (recentChat h) (currentFrame h)
     (streamStartedAt h) (totalConnectionsEver h) (connectionsByIP h)
     (frameSummarizer h) (sockets h) (frames h) (awaited h) v (handled h)
     (broadcasts h).

Definition set_handled (v : list ClawMessage) (h : t) : t :=
  mk (connectedClaws h) (pendingConnections h) (recentChat h) (currentFrame h)
     (streamStartedAt h) (totalConnectionsEver h) (connectionsByIP h)
     (frameSummarizer h) (sockets h) (frames h) (awaited h) (microtasks h) v
     (broadcasts h).

Definition set_broadcasts (v : list Outbound) (h : t) : t :=
  mk (connectedClaws h) (pendingConnections h) (recentChat h) (currentFrame h)
     (streamStartedAt h) (totalConnectionsEver h) (connectionsByIP h)
     (frameSummarizer h) (sockets h) (frames h) (awaited h) (microtasks h)
     (handled h) v.

(** [ws.send(data)] without a callback: the data goes out on a socket that
    is [OPEN]; on a socket that is closing or closed nothing is sent and
    nothing is thrown. *)
Definition ws_send (w : WebSocket) (m : Outbound) (socks : list Socket) : list Socket :=
  alter (λ s, if is_open s then mkSocket (readyState s) (sent s ++ [m]) else s) w socks.

(** [ws.readyState === WebSocket.OPEN] *)
Definition ws_open (socks : list Socket) (w : WebSocket) : bool :=
  match socks !! w with
  | Some s => is_open s
  | None => false
  end.

(** What the socket [w] has been sent so far. *)
Definition outbox (h : t) (w : WebSocket) : list Outbound :=
  match sockets h !! w with
  | Some s => sent s
  | None => []
  end.

Definition getConnectedClaws (h : t) : list ClawParticipant :=
  participant <$> JS.Map_values (connectedClaws h).

Definition getStreamState (h : t) : StreamState :=
  {| isLive := bool_decide (streamStartedAt h ≠ None);
     st_currentFrame := frames h <$> currentFrame h;
     st_recentChat := JS.slice (-20) (recentChat h);
     participants := participant <$> JS.Map_values (connectedClaws h);
     st_streamStartedAt := streamStartedAt h |}.

(** The loop of [broadcast] over the entries of [connectedClaws]. *)
Fixpoint broadcast_loop (serialized : Outbound)
    (entries : list (string * ConnectedClaw)) (h : t) : t :=
  match entries with
  | [] => h
  | (id, claw) :: rest =>
      if ws_open (sockets h) (ws claw) then
        broadcast_loop serialized rest
          (set_sockets (ws_send (ws claw) serialized (sockets h)) h)
      else
        (* Clean up dead connections *)
        broadcast_loop serialized rest
          (set_connectedClaws (JS.Map_delete id (connectedClaws h)) h)
  end.

Definition broadcast (message : Outbound) (h : t) : t :=
  broadcast_loop message (connectedClaws h)
    (set_broadcasts (broadcasts h ++ [message]) h).

Definition broadcastState (now : Z) (h : t) : t :=
  broadcast (MsgState (getStreamState h) now) h.

Definition setStreamLive (isLive : bool) (now : Z) (h : t) : t :=
  let h1 :=
    if isLive && negb (JS.truthy_opt_number (streamStartedAt h)) then
      set_streamStartedAt (Some now) h
    else if negb isLive && JS.truthy_opt_number (streamStartedAt h) then
      set_streamStartedAt None h
    else h in
  broadcastState now h1.

(** [frame.summary = summary] *)
Definition set_summary (summary : string) (f : StreamFrame) : StreamFrame :=
  mkFrame (f_timestamp f) (imageBase64 f) (format f) (width f) (height f)
          (Some summary).

(** The [then] callback of [broadcastFrame], run with the summary the
    promise of [summarizeFrame] resolved to. *)
Definition broadcastFrame_then (frame : FrameRef) (summary : string) (now : Z) (h : t) : t :=
  let h1 :=
    if JS.truthy_string summary then
      set_frames (<[frame := set_summary summary (frames h frame)]> (frames h)) h
    else h in
  broadcast (MsgFrame (frames h1 frame) now) h1.

(** [broadcastFrame], its synchronous part.  With a summarizer the
    promise of [summarizeFrame] is either resolved already, and its
    callback is queued, or it waits for the describer. *)
Definition broadcastFrame (frame : FrameRef) (now : Z) (h : t) : t :=
  let h1 := set_currentFrame (Some frame) h in
  if FrameSummarizer.isEnabled (frameSummarizer h1) then
    match FrameSummarizer.summarizeFrame frame (frameSummarizer h1) with
    | (s', FrameSummarizer.Returned v) =>
        set_microtasks (microtasks h1 ++ [(frame, v)]) (set_frameSummarizer s' h1)
    | (s', FrameSummarizer.Awaiting f) =>
        set_awaited (Some f) (set_frameSummarizer s' h1)
    end
  else
    (* No summarizer, broadcast raw frame immediately *)
    broadcast (MsgFrame (frames h1 frame) now) h1.

(** The describer request in flight ends: [summarizeFrame] resumes after
    its [await] and its promise resolves. *)
Definition describerSettled (o : FrameSummarizer.Outcome) (h : t) : t :=
  match awaited h with
  | Some frame =>
      let '(s', v) := FrameSummarizer.summarizeFrame_resume o (frameSummarizer h) in
      set_microtasks (microtasks h ++ [(frame, v)])
        (set_awaited None (set_frameSummarizer s' h))
  | None => h
  end.

(** The event loop runs the oldest queued [then] callback. *)
Definition runMicrotask (now : Z) (h : t) : t :=
  match microtasks h with
  | (frame, v) :: rest => broadcastFrame_then frame v now (set_microtasks rest h)
  | [] => h
  end.

Definition broadcastChatMessage (chatMessage : ChatMessage) (now : Z) (h : t) : t :=
  let pushed := recentChat h ++ [chatMessage] in
  let h1 :=
    if bool_decide (maxChatHistory < length pushed)%nat then
      set_recentChat (tail pushed) h       (* shift() *)
    else set_recentChat pushed h in
  broadcast (MsgChat chatMessage now) h1.

Definition broadcastTranscript (transcript : TranscriptMessage) (now : Z) (h : t) : t :=
  broadcast (MsgTranscript transcript now) h.

(** The handler of the server's ['connection'] event; [ip] is the address
    taken from the [x-forwarded-for] header or from the socket.  The new
    socket is the next one of the store. *)
Definition onConnection (ip : string) (now : Z) (h : t) : t :=
  let w : WebSocket := length (sockets h) in
  let h0 := set_sockets (sockets h ++ [mkSocket OPEN []]) h in
  let h1 := set_pendingConnections (<[w := ip]> (pendingConnections h0)) h0 in
  let h2 := set_totalConnectionsEver (totalConnectionsEver h1 + 1) h1 in
  let h3 :=
    set_connectionsByIP
      (<[ip := JS.nullish (connectionsByIP h2 !! ip) 0 + 1]> (connectionsByIP h2)) h2 in
  (* Send current state to newly connected claw *)
  set_sockets (ws_send w (MsgState (getStreamState h3) now) (sockets h3)) h3.

(** [claw.participant.lastSeen = Date.now()] on the first entry whose
    socket is [w] ([Array.from(values).find]). *)
Fixpoint touch (w : WebSocket) (now : Z) (m : JS.Map ConnectedClaw) : JS.Map ConnectedClaw :=
  match m with
  | [] => []
  | (k, c) :: r =>
      if bool_decide (ws c = w) then
        let p := participant c in
        (k, mkClaw (ws c)
              (mkParticipant (id p) (name p) (sessionId p) (joinedAt p) now
                             (ipAddress p) (isLocal p))) :: r
      else (k, c) :: touch w now r
  end.

(** [handleClawMessage]; [rawMessage] is the result of [JSON.parse], [None]
    when it throws. *)
Definition handleClawMessage (w : WebSocket) (rawMessage : option Inbound)
    (now : Z) (h : t) : t :=
  match rawMessage with
  | None => h
  | Some message =>
      if String.eqb (in_type message) "register" then
        match in_clawId message, in_clawName message with
        | Some clawId, Some clawName =>
            if negb (JS.truthy_string clawId) || negb (JS.truthy_string clawName)
            then h
            else
              let ip := JS.nullish (pendingConnections h !! w) "unknown" in
              let isLocal := is_local ip in
              let h1 := set_pendingConnections (delete w (pendingConnections h)) h in
              let participant :=
                mkParticipant clawId clawName (JS.nullish (in_sessionId message) "")
                              now now (Some ip) isLocal in
              let h2 :=
                set_connectedClaws
                  (JS.Map_set clawId (mkClaw w participant) (connectedClaws h1)) h1 in
              (* Notify all claws of the new participant *)
              broadcastState now h2
        | _, _ => h
        end
      else if String.eqb (in_type message) "chat"
           || String.eqb (in_type message) "reaction"
           || String.eqb (in_type message) "observation" then
        let clawMessage :=
          mkClawMessage (in_type message)
                        (JS.nullish (in_content message) "")
                        (JS.nullish (in_clawId message) "")
                        (JS.nullish (in_clawName message) "Unknown Claw")
                        now in
        set_handled (handled h ++ [clawMessage]) h
      else if String.eqb (in_type message) "ping" then
        let h1 := set_connectedClaws (touch w now (connectedClaws h)) h in
        set_sockets (ws_send w (MsgPong now) (sockets h1)) h1
      else h
  end.

Definition handleClawDisconnect (w : WebSocket) (now : Z) (h : t) : t :=
  match List.find (λ e, bool_decide (ws e.2 = w)) (connectedClaws h) with
  | Some (id, claw) =>
      broadcastState now
        (set_connectedClaws (JS.Map_delete id (connectedClaws h)) h)
  | None => h
  end.

Record ClawMetrics := mkMetrics {
  totalConnections : Z;
  localConnections : nat;
  foreignConnections : nat;
  uniqueIPs : list string;
  m_connectionsByIP : gmap string Z
}.

Definition getMetrics (h : t) : ClawMetrics :=
  let participants := getConnectedClaws h in
  {| totalConnections := totalConnectionsEver h;
     localConnections := length (filter (λ p, isLocal p = true) participants);
     foreignConnections := length (filter (λ p, isLocal p = false) participants);
     uniqueIPs := JS.unique ((λ p, JS.nullish (ipAddress p) "unknown") <$> participants);
     m_connectionsByIP := connectionsByIP h |}.

(** The [/frame] endpoint: the body served, [None] for the 404. *)
Definition getFrame (h : t) : option StreamFrame :=
  frames h <$> currentFrame h.

(** *** The hub driven by its environment *)

Definition set_readyState (w : WebSocket) (r : ReadyState) (socks : list Socket) : list Socket :=
  alter (λ s, mkSocket r (sent s)) w socks.

Definition ws_state (socks : list Socket) (w : WebSocket) : option ReadyState :=
  readyState <$> socks !! w.

Inductive Event :=
| Connection (ip : string)                         (* the server's ['connection'] *)
| Message (w : WebSocket) (raw : option Inbound)   (* a socket's ['message'] *)
| Closing (w : WebSocket)                          (* a socket stops being [OPEN] *)
| Close (w : WebSocket)                            (* a socket's ['close'] *)
| SetStreamLive (isLive : bool)
| BroadcastFrame (frame : FrameRef)
| BroadcastChatMessage (chatMessage : ChatMessage)
| BroadcastTranscript (transcript : TranscriptMessage)
| DescriberSettled (o : FrameSummarizer.Outcome)
| Microtask.

(** One turn of the event loop at time [now].  A socket emits ['message']
    only until it is [CLOSED], emits ['close'] once, with [readyState]
    already [CLOSED], and can only stop being [OPEN] while it is. *)
Definition step (e : Event) (now : Z) (h : t) : t :=
  match e with
  | Connection ip => onConnection ip now h
  | Message w raw =>
      match ws_state (sockets h) w with
      | Some OPEN | Some CLOSING => handleClawMessage w raw now h
      | _ => h
      end
  | Closing w =>
      match ws_state (sockets h) w with
      | Some OPEN => set_sockets (set_readyState w CLOSING (sockets h)) h
      | _ => h
      end
  | Close w =>
      match ws_state (sockets h) w with
      | Some OPEN | Some CLOSING =>
          handleClawDisconnect w now
            (set_sockets (set_readyState w CLOSED (sockets h)) h)
      | _ => h
      end
  | SetStreamLive isLive => setStreamLive isLive now h
  | BroadcastFrame frame => broadcastFrame frame now h
  | BroadcastChatMessage chatMessage => broadcastChatMessage chatMessage now h
  | BroadcastTranscript transcript => broadcastTranscript transcript now h
  | DescriberSettled o => describerSettled o h
  | Microtask => runMicrotask now h
  end.

Fixpoint run (evs : list (Event * Z)) (h : t) : t :=
  match evs with
  | [] => h
  | (e, now) :: evs' => run evs' (step e now h)
  end.

(** *** Vocabulary of the properties *)

(** The chat messages a run broadcasts, oldest first. *)
Definition chats_of (evs : list (Event * Z)) : list ChatMessage :=
  omap (λ en, match en.1 with BroadcastChatMessage c => Some c | _ => None end) evs.

(** The [state] messages among the broadcasts made from [h] to [h']. *)
Definition state_broadcasts_since (h h' : t) : list Outbound :=
  filter is_state (drop (length (broadcasts h)) (broadcasts h')).

(** Two calls [setStreamLive(true)] in a row on a hub that is offline, as
    the design document has them: the first goes live, the second leaves
    the start of the stream alone, and the two make one [state] broadcast. *)
Definition setLiveness_twice_one_broadcast (h : t) (now1 now2 : Z) : Prop :=
  let h1 := setStreamLive true now1 h in
  let h2 := setStreamLive true now2 h1 in
  isLive (getStreamState h) = false ∧
  isLive (getStreamState h1) = true ∧
  streamStartedAt h2 = streamStartedAt h1 ∧
  length (state_broadcasts_since h h2) = 1%nat.

(** A frame object without a summary, and a heap of them. *)
Definition blank_frame : StreamFrame := mkFrame 0 "" "png" 0 0 None.
Definition blank_heap : FrameRef → StreamFrame := λ _, blank_frame.

(** The count kept for an address, zero for an address never seen. *)
Definition connections_from (m : ClawMetrics) (ip : string) : Z :=
  JS.nullish (m_connectionsByIP m !! ip) 0.

(** No turn of the event loop lowers a cumulative component of the
    metrics, as the design document has it: the total, the counts by
    address, and the addresses listed in [uniqueIPs]. *)
Definition metrics_never_decrease (h : t) (e : Event) (now : Z) : Prop :=
  let m := getMetrics h in
  let m' := getMetrics (step e now h) in
  totalConnections m ≤ totalConnections m' ∧
  (∀ ip, connections_from m ip ≤ connections_from m' ip) ∧
  uniqueIPs m ⊆ uniqueIPs m'.

(** A registration message. *)
Definition register_msg (clawId clawName : string) : option Inbound :=
  Some (mkInbound "register" (Some clawId) (Some clawName) None None).

(** A hub one foreign subscriber has connected to and registered with. *)
Definition hub_one_foreign : t :=
  run [(Connection "203.0.113.7", 1); (Message 0%nat (register_msg "claw-1" "Claw"), 2)]
      (new None blank_heap).

(** [e] is a registration from the socket [w] that [handleClawMessage]
    accepts: a ["register"] message with a [clawId] and a [clawName]. *)
Definition registers (w : WebSocket) (e : Event) : bool :=
  match e with
  | Message w' (Some m) =>
      bool_decide (w' = w) && String.eqb (in_type m) "register"
      && JS.truthy_opt (in_clawId m) && JS.truthy_opt (in_clawName m)
  | _ => false
  end.

(** [e] takes the socket [w] out of [OPEN]. *)
Definition closes (w : WebSocket) (e : Event) : bool :=
  match e with
  | Closing w' | Close w' => bool_decide (w' = w)
  | _ => false
  end.

(** [e] is a ["ping"] message from the socket [w]. *)
Definition pings (w : WebSocket) (e : Event) : bool :=
  match e with
  | Message w' (Some m) => bool_decide (w' = w) && String.eqb (in_type m) "ping"
  | _ => false
  end.

(** The times of the pings of the socket [w] in a run, oldest first. *)
Definition pings_of (w : WebSocket) (evs : list (Event * Z)) : list Z :=
  omap (λ en, if pings w en.1 then Some en.2 else None) evs.

(** No entry of the registry is bound to the socket [w]. *)
Definition unbound (w : WebSocket) (h : t) : Prop :=
  Forall (λ e, ws e.2 ≠ w) (connectedClaws h).

(** The sockets the registry is bound to are sockets of the store. *)
Definition registry_wf (h : t) : Prop :=
  Forall (λ e, (ws e.2 < length (sockets h))%nat) (connectedClaws h).

(** A ping. *)
Definition ping_msg : option Inbound :=
  Some (mkInbound "ping" None None None None).

Definition hello_chat : ChatMessage :=
  mkChat 5 "viewer" "Viewer" "hello" "#claws" false false [].

(** What goes on around a socket 0 that has connected and does not
    register: another subscriber connects and registers, the stream goes
    live, chat and a transcript are broadcast, socket 0 pings, and sends a
    registration without a name. *)
Definition around_unregistered : list (Event * Z) :=
  [ (Connection "203.0.113.7", 2);
    (Message 1%nat (register_msg "claw-1" "Claw"), 3);
    (SetStreamLive true, 4);
    (BroadcastChatMessage hello_chat, 5);
    (Message 0%nat ping_msg, 6);
    (BroadcastTranscript (mkTranscript "hello world" 7), 7);
    (Message 0%nat (Some (mkInbound "register" (Some "claw-0") None None None)), 8) ].

(** [e] neither hands the hub a frame nor moves a summarization on. *)
Definition leaves_frames (e : Event) : bool :=
  match e with
  | BroadcastFrame _ | DescriberSettled _ | Microtask => false
  | _ => true
  end.

(** The socket of the entry [e] is open. *)
Definition entry_open (socks : list Socket) (e : string * ConnectedClaw) : bool :=
  ws_open socks (ws e.2).

(** The socket of the entry [e] is a socket of the store that has not
    emitted ['close']. *)
Definition entry_not_closed (socks : list Socket) (e : string * ConnectedClaw) : Prop :=
  ws_state socks (ws e.2) = Some OPEN ∨ ws_state socks (ws e.2) = Some CLOSING.

(** The ids that a pass of [broadcast] over [entries] deletes. *)
Definition dead_keys (socks : list Socket) (entries : list (string * ConnectedClaw)) : list string :=
  (filter (λ e, entry_open socks e = false) entries).*1.

(** The connections that are open and bound to an entry of the registry:
    the open registered connections. *)
Definition open_registered (h : t) : list WebSocket :=
  filter (λ w, ws_open (sockets h) w = true ∧ w ∈ (λ e, ws e.2) <$> connectedClaws h)
         (seq 0 (length (sockets h))).

(** The registry has one participant for each open registered
    connection, as the design document has it. *)
Definition registry_counts_open_connections (h : t) : Prop :=
  length (getConnectedClaws h) = length (open_registered h).

(** One subscriber connects and registers twice, under two ids. *)
Definition hub_two_ids : t :=
  run [ (Connection "203.0.113.7", 1);
        (Message 0%nat (register_msg "claw-a" "Claw"), 2);
        (Message 0%nat (register_msg "claw-b" "Claw"), 3) ]
      (new None blank_heap).

(** What holds of the registry at any time: no two entries have the same
    id, and every entry is bound to a socket that has not emitted
    ['close']. *)
Definition registry_inv (h : t) : Prop :=
  NoDup (JS.Map_keys (connectedClaws h)) ∧
  Forall (entry_not_closed (sockets h)) (connectedClaws h).

(** *** Further vocabulary *)

(** [connectedClaws.get(k)] *)
Definition registry_get (k : string) (h : t) : option ConnectedClaw :=
  snd <$> List.find (λ e, bool_decide (e.1 = k)) (connectedClaws h).

(** The number of entries bound to the socket [w]. *)
Definition bound_count (w : WebSocket) (entries : list (string * ConnectedClaw)) : nat :=
  length (filter (λ e, ws e.2 = w) entries).

(** Liveness after a run: what the last call of [setStreamLive] asked
    for, and [live] when there was none. *)
Fixpoint last_live (live : bool) (evs : list (Event * Z)) : bool :=
  match evs with
  | [] => live
  | (SetStreamLive b, _) :: evs' => last_live b evs'
  | _ :: evs' => last_live live evs'
  end.

(** The clock does not read zero when the stream is set live. *)
Definition clock_ok (en : Event * Z) : Prop :=
  match en.1 with
  | SetStreamLive true => en.2 ≠ 0
  | _ => True
  end.

(** The [x-forwarded-for] header of the upgrade request: absent, one
    string, or several. *)
Inductive Header :=
| HeaderAbsent
| HeaderString (value : string)
| HeaderArray (values : list string).

(** [s.split(",")[0]] *)
Fixpoint before_comma (s : string) : string :=
  match s with
  | EmptyString => EmptyString
  | String c r =>
      if Ascii.eqb c ","%char then EmptyString else String c (before_comma r)
  end.

(** The address the connection handler works with. *)
Definition clientAddress (forwarded : Header) (remoteAddress : option string) : string :=
  match forwarded with
  | HeaderString value => JS.trim (before_comma value)
  | _ => JS.nullish remoteAddress "unknown"
  end.

(** The sum of the counts kept by address. *)
Definition connections_sum (m : gmap string Z) : Z :=
  map_fold (λ _ n acc, n + acc) 0 m.

(** A participant without the time it was last seen. *)
Definition identity_of (p : ClawParticipant) : string * string * string * Z * option string * bool :=
  (id p, name p, sessionId p, joinedAt p, ipAddress p, isLocal p).

(** An inbound message of a kind the hub hands to its handlers. *)
Definition is_claw_message (raw : option Inbound) : bool :=
  match raw with
  | Some m =>
      String.eqb (in_type m) "chat" || String.eqb (in_type m) "reaction"
      || String.eqb (in_type m) "observation"
  | None => false
  end.

(** [claw.participant.lastSeen = now] *)
Definition seen_at (now : Z) (e : string * ConnectedClaw) : string * ConnectedClaw :=
  let p := participant e.2 in
  (e.1, mkClaw (ws e.2)
          (mkParticipant (id p) (name p) (sessionId p) (joinedAt p) now
                         (ipAddress p) (isLocal p))).

(** A chat message sent in under another subscriber's name. *)
Definition chat_msg (clawId clawName content : string) : option Inbound :=
  Some (mkInbound "chat" (Some clawId) (Some clawName) None (Some content)).

(** An entry as a registration makes it: filed under the id of its
    participant, which has an id, a name, an address, and the
    classification of that address. *)
Definition as_registered (e : string * ConnectedClaw) : Prop :=
  let p := participant e.2 in
  id p = e.1 ∧ JS.truthy_string (id p) = true ∧ JS.truthy_string (name p) = true ∧
  ∃ ip, ipAddress p = Some ip ∧ isLocal p = is_local ip.

Definition is_frame (m : Outbound) : bool :=
  match m with MsgFrame _ _ => true | _ => false end.

(** The frames handed to [broadcastFrame] in a run, each as the message
    that carries it as it stands on the heap, stamped with the time of the
    call. *)
Definition raw_frames_of (heap : FrameRef → StreamFrame) (evs : list (Event * Z)) : list Outbound :=
  omap (λ en, match en.1 with
              | BroadcastFrame f => Some (MsgFrame (heap f) en.2)
              | _ => None
              end) evs.

(** A hub whose describer is at work on frame 2, after it has described
    frame 1 as ["a cat"]. *)
Definition hub_describing : t :=
  run [ (BroadcastFrame 1%nat, 1);
        (DescriberSettled (FrameSummarizer.Fulfilled [FrameSummarizer.TextBlock "a cat"]), 2);
        (Microtask, 3);
        (BroadcastFrame 2%nat, 4) ]
      (new (Some "key") blank_heap).

(** A chat message or a transcript on the wire. *)
Definition is_speech (m : Outbound) : bool :=
  match m with MsgChat _ _ | MsgTranscript _ _ => true | _ => false end.

(** The chat messages and the transcripts handed to the hub in a run,
    each as the message that carries it, stamped with the time of the
    call. *)
Definition speech_of (evs : list (Event * Z)) : list Outbound :=
  omap (λ en, match en.1 with
              | BroadcastChatMessage c => Some (MsgChat c en.2)
              | BroadcastTranscript tr => Some (MsgTranscript tr en.2)
              | _ => None
              end) evs.




End VisionBroadcaster.

(** ** Child processes and timers *)

Module Node.

Inductive Signal := SIGTERM | SIGKILL.

#[global] Instance Signal_eq_dec : EqDecision Signal.
Proof. solve_decision. Defined.

(** A [ChildProcess] object.  [handle] stands for [_handle]: it is set
    from the spawn until the ['exit'] event of the process is emitted, which
    is when [exitCode] or [signalCode] are written.  [killed] says that
    [kill] has delivered a signal, not that the process is gone.
    [received] lists the signals [kill] has delivered. *)
Record ChildProcess := mkProc {
  handle : bool;
  killed : bool;
  exitCode : option Z;
  signalCode : option Signal;
  received : list Signal
}.

(** A process that has been spawned and runs. *)
Definition running : ChildProcess := mkProc true false None None [].

(** [proc.kill(signal)]: with a handle the signal is delivered and [killed]
    is set; without one nothing happens. *)
Definition kill (signal : Signal) (p : ChildProcess) : ChildProcess :=
  if handle p then
    mkProc true true (exitCode p) (signalCode p) (received p ++ [signal])
  else p.

(** The process is gone and ['exit'] is emitted, with the exit code or
    with the signal that ended the process. *)
Definition exit (code : option Z) (signal : option Signal) (p : ChildProcess) : ChildProcess :=
  mkProc false (killed p) code signal (received p).

(** The process has reported its exit. *)
Definition has_exited (p : ChildProcess) : bool := negb (handle p).

End Node.

(** ** Class [TwitchAudioCapture] *)

Module TwitchAudioCapture.

Abbreviation Pid := nat (only parsing).
Abbreviation TimerId := nat (only parsing).

Record TranscriptMessage := mkTranscript {
  text : string;
  timestamp : Z
}.

(** The callbacks this class hands to [setTimeout]: the debounce of
    [addToBuffer], and the two timers of [killProcess]. *)
Inductive Callback :=
| FlushBuffer             (* [() => this.flushBuffer()] *)
| Escalate (proc : Pid)   (* the forced kill after 2 seconds *)
| GiveUp (proc : Pid).    (* [cleanup] after 3 seconds *)

Definition BUFFER_DELAY_MS : Z := 1000.
Definition MAX_BUFFER_TIME_MS : Z := 3000.

(** The fields of the class that stopping and buffering work on, then the
    world they act on.  The recording loop, the transcription request and
    the files are left out: a tracked process is a process of the store
    that is listed in [activeProcesses]. *)
Record t := mk {
  isRunning : bool;
  activeProcesses : list Pid;          (* a [Set], in insertion order *)
  transcriptBuffer : list string;
  bufferTimeout : option TimerId;
  bufferStartTime : Z;
  (* the process objects, by identity *)
  procs : Pid → Node.ChildProcess;
  (* processes on which [cleanup] of [killProcess] listens for ['exit'] *)
  exitListeners : list Pid;
  (* promises of [killProcess] that [stop] awaits and that are pending *)
  killPending : list Pid;
  (* a call of [stop] is at its [await] *)
  stopAwaiting : bool;
  (* calls of [stop] that have returned *)
  stopsReturned : nat;
  (* timers that are armed: when they are due, and what they run *)
  timers : gmap TimerId (Z * Callback);
  nextTimer : TimerId;
  (* transcripts handed to the handlers of [onTranscript], oldest first *)
  emitted : list TranscriptMessage
}.

Definition new (heap : Pid → Node.ChildProcess) : t :=
  mk false [] [] None 0 heap [] [] false 0 ∅ 0 [].

Definition set_isRunning (v : bool) (s : t) : t :=
  mk v (activeProcesses s) (transcriptBuffer s) (bufferTimeout s) (bufferStartTime s)
     (procs s) (exitListeners s) (killPending s) (stopAwaiting s) (stopsReturned s)
     (timers s) (nextTimer s) (emitted s).

Definition set_activeProcesses (v : list Pid) (s : t) : t :=
  mk (isRunning s) v (transcriptBuffer s) (bufferTimeout s) (bufferStartTime s)
     (procs s) (exitListeners s) (killPending s) (stopAwaiting s) (stopsReturned s)
     (timers s) (nextTimer s) (emitted s).

Definition set_transcriptBuffer (v : list string) (s : t) : t :=
  mk (isRunning s) (activeProcesses s) v (bufferTimeout s) (bufferStartTime s)
     (procs s) (exitListeners s) (killPending s) (stopAwaiting s) (stopsReturned s)
     (timers s) (nextTimer s) (emitted s).

Definition set_bufferTimeout (v : option TimerId) (s : t) : t :=
  mk (isRunning s) (activeProcesses s) (transcriptBuffer s) v (bufferStartTime s)
     (procs s) (exitListeners s) (killPending s) (stopAwaiting s) (stopsReturned s)
     (timers s) (nextTimer s) (emitted s).

Definition set_bufferStartTime (v : Z) (s : t) : t :=
  mk (isRunning s) (activeProcesses s) (transcriptBuffer s) (bufferTimeout s) v
     (procs s) (exitListeners s) (killPending s) (stopAwaiting s) (stopsReturned s)
     (timers s) (nextTimer s) (emitted s).

Definition set_procs (v : Pid → Node.ChildProcess) (s : t) : t :=
  mk (isRunning s) (activeProcesses s) (transcriptBuffer s) (bufferTimeout s)
     (bufferStartTime s) v (exitListeners s) (killPending s) (stopAwaiting s)
     (stopsReturned s) (timers s) (nextTimer s) (emitted s).

Definition set_exitListeners (v : list Pid) (s : t) : t :=
  mk (isRunning s) (activeProcesses s) (transcriptBuffer s) (bufferTimeout s)
     (bufferStartTime s) (procs s) v (killPending s) (stopAwaiting s)
     (stopsReturned s) (timers s) (nextTimer s) (emitted s).

Definition set_killPending (v : list Pid) (s : t) : t :=
  mk (isRunning s) (activeProcesses s) (transcriptBuffer s) (bufferTimeout s)
     (bufferStartTime s) (procs s) (exitListeners s) v (stopAwaiting s)
     (stopsReturned s) (timers s) (nextTimer s) (emitted s).

Definition set_stopAwaiting (v : bool) (s : t) : t :=
  mk (isRunning s) (activeProcesses s) (transcriptBuffer s) (bufferTimeout s)
     (bufferStartTime s) (procs s) (exitListeners s) (killPending s) v
     (stopsReturned s) (timers s) (nextTimer s) (emitted s).

Definition set_stopsReturned (v : nat) (s : t) : t :=
  mk (isRunning s) (activeProcesses s) (transcriptBuffer s) (bufferTimeout s)
     (bufferStartTime s) (procs s) (exitListeners s) (killPending s) (stopAwaiting s)
     v (timers s) (nextTimer s) (emitted s).

Definition set_timers (v : gmap TimerId (Z * Callback)) (s : t) : t :=
  mk (isRunning s) (activeProcesses s) (transcriptBuffer s) (bufferTimeout s)
     (bufferStartTime s) (procs s) (exitListeners s) (killPending s) (stopAwaiting s)
     (stopsReturned s) v (nextTimer s) (emitted s).

Definition set_nextTimer (v : TimerId) (s : t) : t :=
  mk (isRunning s) (activeProcesses s) (transcriptBuffer s) (bufferTimeout s)
     (bufferStartTime s) (procs s) (exitListeners s) (killPending s) (stopAwaiting s)
     (stopsReturned s) (timers s) v (emitted s).

Definition set_emitted (v : list TranscriptMessage) (s : t) : t :=
  mk (isRunning s) (activeProcesses s) (transcriptBuffer s) (bufferTimeout s)
     (bufferStartTime s) (procs s) (exitListeners s) (killPending s) (stopAwaiting s)
     (stopsReturned s) (timers s) (nextTimer s) v.

(** [setTimeout(cb, delay)] at time [now]: a new timer is armed. *)
Definition setTimeout (cb : Callback) (delay : Z) (now : Z) (s : t) : TimerId * t :=
  let id := nextTimer s in
  (id, set_nextTimer (S id) (set_timers (<[id := (now + delay, cb)]> (timers s)) s)).

(** [clearTimeout(id)]: the timer is disarmed. *)
Definition clearTimeout (id : TimerId) (s : t) : t :=
  set_timers (delete id (timers s)) s.

(** [proc.kill(signal)] on a process of the store. *)
Definition proc_kill (proc : Pid) (signal : Node.Signal) (s : t) : t :=
  set_procs (<[proc := Node.kill signal (procs s proc)]> (procs s)) s.

(** [Set.prototype.delete] *)
Definition Set_delete (proc : Pid) (l : list Pid) : list Pid :=
  filter (λ q, q ≠ proc) l.

Definition isValidTranscript (text : string) : bool :=
  let trimmed := JS.trim text in
  if bool_decide (String.length trimmed = 0%nat) then false
  else
    let lowerText := JS.toLowerCase trimmed in
    let obviousHallucinations :=
      ["thanks for watching"; "thank you for watching"; "subscribe";
       "like and subscribe"] in
    if existsb (λ h, JS.includes lowerText h) obviousHallucinations then false
    else true.

Definition flushBuffer (now : Z) (s : t) : t :=
  if bool_decide (length (transcriptBuffer s) = 0%nat) then s
  else
    let combinedText := JS.trim (JS.join " " (transcriptBuffer s)) in
    let s1 := set_bufferTimeout None (set_transcriptBuffer [] s) in
    if bool_decide (0 < String.length combinedText)%nat then
      let transcript := mkTranscript combinedText now in
      (* for (const handler of this.handlers) handler(transcript) *)
      set_emitted (emitted s1 ++ [transcript]) s1
    else s1.

Definition addToBuffer (text : string) (now : Z) (s : t) : t :=
  (* Track when buffer started filling *)
  let s1 :=
    if bool_decide (length (transcriptBuffer s) = 0%nat)
    then set_bufferStartTime now s else s in
  let s2 := set_transcriptBuffer (transcriptBuffer s1 ++ [text]) s1 in
  (* Force flush if buffer has been filling too long *)
  let bufferAge := now - bufferStartTime s2 in
  if bool_decide (MAX_BUFFER_TIME_MS ≤ bufferAge) then flushBuffer now s2
  else
    let s3 :=
      match bufferTimeout s2 with
      | Some id => clearTimeout id s2
      | None => s2
      end in
    let '(id, s4) := setTimeout FlushBuffer BUFFER_DELAY_MS now s3 in
    set_bufferTimeout (Some id) s4.

(** [transcribeChunk], from the answer of the transcription request on:
    the text is trimmed, and buffered if it is a valid transcript. *)
Definition transcribed (response : string) (now : Z) (s : t) : t :=
  let text := JS.trim response in
  if isValidTranscript text then addToBuffer text now s else s.

(** The end of [stop], after [await Promise.all(killPromises)]. *)
Definition stop_resume (s : t) : t :=
  let s1 := set_activeProcesses [] s in
  let s2 :=
    match bufferTimeout s1 with
    | Some id => set_bufferTimeout None (clearTimeout id s1)
    | None => s1
    end in
  set_stopsReturned (S (stopsReturned s2)) (set_stopAwaiting false s2).

(** A promise of [killProcess] resolves; when it was the last one that
    [stop] awaits, [stop] goes on. *)
Definition resolve_kill (proc : Pid) (s : t) : t :=
  let s1 := set_killPending (Set_delete proc (killPending s)) s in
  if stopAwaiting s1 && bool_decide (killPending s1 = []) then stop_resume s1
  else s1.

(** [cleanup] of [killProcess] *)
Definition cleanup (proc : Pid) (s : t) : t :=
  resolve_kill proc (set_activeProcesses (Set_delete proc (activeProcesses s)) s).

(** [killProcess]: the executor of its promise.  The promise is pending
    unless the process counts as gone already. *)
Definition killProcess (proc : Pid) (now : Z) (s : t) : t :=
  let p := procs s proc in
  if Node.killed p || bool_decide (Node.exitCode p ≠ None) then
    set_activeProcesses (Set_delete proc (activeProcesses s)) s
  else
    let s1 := set_killPending (killPending s ++ [proc]) s in
    (* Set up exit handler *)
    let s2 := set_exitListeners (exitListeners s1 ++ [proc]) s1 in
    (* Send SIGTERM first *)
    let s3 := proc_kill proc Node.SIGTERM s2 in
    (* Force kill after 2 seconds if still alive *)
    let '(_, s4) := setTimeout (Escalate proc) 2000 now s3 in
    (* Resolve after 3 seconds max regardless *)
    let '(_, s5) := setTimeout (GiveUp proc) 3000 now s4 in
    s5.

(** [stop], up to its [await]; with no promise pending it goes on at once. *)
Definition stop (now : Z) (s : t) : t :=
  let s1 := set_isRunning false s in
  let s2 := foldl (λ acc proc, killProcess proc now acc) s1 (activeProcesses s1) in
  let s3 := set_stopAwaiting true s2 in
  if bool_decide (killPending s3 = []) then stop_resume s3 else s3.

(** The callback of a timer. *)
Definition run_callback (cb : Callback) (now : Z) (s : t) : t :=
  match cb with
  | FlushBuffer => flushBuffer now s
  | Escalate proc =>
      let p := procs s proc in
      if negb (Node.killed p) && bool_decide (Node.exitCode p = None)
      then proc_kill proc Node.SIGKILL s else s
  | GiveUp proc => cleanup proc s
  end.

Inductive Event :=
| Transcribed (response : string)   (* the transcription request answers *)
| TimerFires (id : TimerId)         (* a timer that is armed and due runs *)
| ProcExit (proc : Pid) (code : option Z) (signal : option Node.Signal)
                                    (* a process ends and emits ['exit'] *)
| Stop.                             (* [stop()] is called *)

(** One turn of the event loop at time [now]. *)
Definition step (e : Event) (now : Z) (s : t) : t :=
  match e with
  | Transcribed response => transcribed response now s
  | TimerFires id =>
      match timers s !! id with
      | Some (due, cb) =>
          if bool_decide (due ≤ now)
          then run_callback cb now (set_timers (delete id (timers s)) s)
          else s
      | None => s
      end
  | ProcExit proc code signal =>
      if Node.handle (procs s proc) then
        let s1 := set_procs (<[proc := Node.exit code signal (procs s proc)]> (procs s)) s in
        if bool_decide (proc ∈ exitListeners s1) then
          (* [once]: the listener is removed, then it runs *)
          cleanup proc (set_exitListeners (Set_delete proc (exitListeners s1)) s1)
        else s1
      else s
  | Stop => stop now s
  end.

Fixpoint run (evs : list (Event * Z)) (s : t) : t :=
  match evs with
  | [] => s
  | (e, now) :: evs' => run evs' (step e now s)
  end.

(** *** Vocabulary of the properties *)

(** A fragment as [transcribed] buffers it: trimmed and not empty. *)
Definition is_fragment (f : string) : Prop := JS.trim f = f ∧ f ≠ "".

(** A string that begins with a character [trim] keeps, and one that
    ends with one. *)
Definition starts_ok (s : string) : Prop :=
  match s with
  | String c _ => JS.is_whitespace c = false
  | EmptyString => False
  end.

Definition ends_ok (s : string) : Prop := JS.trimEnd s = s ∧ s ≠ "".

(** The process objects of a fresh heap: all running. *)
Definition all_running : Pid → Node.ChildProcess := λ _, Node.running.

(** A recording in flight: [recordChunk] has spawned streamlink, process
    0, and ffmpeg, process 1, and tracks both. *)
Definition mid_recording : t :=
  set_activeProcesses [0%nat; 1%nat] (set_isRunning true (new all_running)).

(** A recording that has just ended: [cleanup] of [recordChunk] has sent
    streamlink its signal and still tracks it for a second. *)
Definition after_recording : t :=
  proc_kill 0%nat Node.SIGTERM
    (set_activeProcesses [0%nat] (set_isRunning true (new all_running))).

(** Fragments that keep coming, 900 ms apart. *)
Definition steady_fragments : list (Event * Z) :=
  [ (Transcribed "a", 0); (Transcribed "b", 900); (Transcribed "c", 1800);
    (Transcribed "d", 2700) ].

(** *** Further vocabulary *)

(** The fragments a run buffers: the answers of the transcription
    requests, trimmed, that [isValidTranscript] lets through. *)
Definition accepted (evs : list (Event * Z)) : list string :=
  omap (λ en, match en.1 with
              | Transcribed response =>
                  if isValidTranscript (JS.trim response)
                  then Some (JS.trim response) else None
              | _ => None
              end) evs.

Definition is_stop (e : Event) : bool :=
  match e with Stop => true | _ => false end.

(** The ids of the timers that are armed have all been handed out. *)
Definition timers_fresh (s : t) : Prop :=
  ∀ id, (nextTimer s ≤ id)%nat → timers s !! id = None.

(** A buffer that holds fragments is waited for: the timer that
    [bufferTimeout] refers to is armed, it flushes, and it is due less
    than the two delays after the buffer began to fill. *)
Definition flush_armed (s : t) : Prop :=
  transcriptBuffer s ≠ [] →
  ∃ id due,
    bufferTimeout s = Some id ∧
    timers s !! id = Some (due, FlushBuffer) ∧
    due < bufferStartTime s + MAX_BUFFER_TIME_MS + BUFFER_DELAY_MS.

(** A call of [stop] that began at [t0] is at its [await]: every promise
    it waits for has its 3-second timer armed. *)
Definition stop_is_capped (t0 : Z) (s : t) : Prop :=
  stopAwaiting s = true ∧ killPending s ≠ [] ∧
  ∀ proc, proc ∈ killPending s →
          ∃ id, timers s !! id = Some (t0 + 3000, GiveUp proc).

Definition is_transcribed (e : Event) : bool :=
  match e with Transcribed _ => true | _ => false end.

(** The call of [stop] made after [n] earlier ones had returned has
    returned too. *)
Definition stop_has_returned (n : nat) (s : t) : Prop :=
  stopAwaiting s = false ∧ killPending s = [] ∧
  stopsReturned s = S n ∧ activeProcesses s = [].

(** [e] is a timer firing at time [now]. *)
Definition fires_at (now : Z) (en : Event * Z) : Prop :=
  ∃ id, en = (TimerFires id, now).




End TwitchAudioCapture.

(** ** Class [TwitchStreamCapture] *)

Module TwitchStreamCapture.

Abbreviation Pid := nat (only parsing).
Abbreviation TimerId := nat (only parsing).

(** The fields of the class that stopping works on, and the process
    objects.  The capture loop and the files are left out: a tracked
    process is a process of the store listed in [activeProcesses]. *)
Record t := mk {
  isRunning : bool;
  captureInterval : option TimerId;
  activeProcesses : list Pid;          (* a [Set], in insertion order *)
  procs : Pid → Node.ChildProcess;
  intervals : list TimerId             (* the intervals that are armed *)
}.

(** [stop]: it has no [await]. *)
Definition stop (s : t) : t :=
  let intervals' :=
    match captureInterval s with
    | Some id => filter (λ i, i ≠ id) (intervals s)     (* clearInterval *)
    | None => intervals s
    end in
  (* Kill all active processes *)
  let procs' :=
    foldl (λ (ps : Pid → Node.ChildProcess) proc,
             if negb (Node.killed (ps proc))
             then <[proc := Node.kill Node.SIGTERM (ps proc)]> ps
             else ps)
          (procs s) (activeProcesses s) in
  mk false None [] procs' intervals'.

(** A capture attempt in flight: [captureWithStreamlink] has spawned
    streamlink, process 0, and tracks it. *)
Definition mid_capture : t :=
  mk true None [0%nat] (λ _, Node.running) [].

(** *** [isStreamLive]

    One call of [isStreamLive]: the streamlink process it spawned, the
    flag [resolved] of its closure, and the value its promise has resolved
    with.  [resolve] is only ever called with [resolved] just set, so the
    promise resolves with the value of the first call. *)
Record Probe := mkProbe {
  streamlink : Pid;
  resolved : bool;
  answer : option bool
}.

(** What the ['close'] handler gets out of [stdout]: [JSON.parse] or the
    reading of [info.streams] throws; or [info.streams] is falsy ([None]);
    or it is truthy and [Object.keys] gives it so many keys. *)
Inductive Parsed :=
| Throws
| Streams (keys : option nat).

(** [!!info.streams && Object.keys(info.streams).length > 0], and [false]
    from the [catch]. *)
Definition has_streams (p : Parsed) : bool :=
  match p with
  | Streams (Some n) => bool_decide (0 < n)%nat
  | _ => false
  end.

(** [Set.prototype.add] and [Set.prototype.delete] *)
Definition Set_add (proc : Pid) (l : list Pid) : list Pid :=
  if bool_decide (proc ∈ l) then l else l ++ [proc].

Definition Set_delete (proc : Pid) (l : list Pid) : list Pid :=
  filter (λ q, q ≠ proc) l.

(** [isStreamLive], up to the return of its promise: the process is
    spawned and tracked. *)
Definition isStreamLive (proc : Pid) (s : t) : t * Probe :=
  (mk (isRunning s) (captureInterval s) (Set_add proc (activeProcesses s))
      (<[proc := Node.running]> (procs s)) (intervals s),
   mkProbe proc false None).

(** [cleanup] of [isStreamLive] *)
Definition cleanup (result : bool) (sp : t * Probe) : t * Probe :=
  let '(s, pr) := sp in
  if resolved pr then sp
  else
    let proc := streamlink pr in
    let procs' :=
      if negb (Node.killed (procs s proc))
      then <[proc := Node.kill Node.SIGTERM (procs s proc)]> (procs s)
      else procs s in
    (mk (isRunning s) (captureInterval s) (Set_delete proc (activeProcesses s))
        procs' (intervals s),
     mkProbe proc true (Some result)).

Inductive ProbeEvent :=
| ProbeExit (code : option Z) (signal : option Node.Signal)  (* the process ends *)
| ProbeClose (code : option Z) (parsed : Parsed)             (* its ['close'] *)
| ProbeError                                                 (* its ['error'] *)
| ProbeTimeout                                               (* the 10 s timer *)
| ProbeStop.                                                 (* [stop()] is called *)

Definition probe_step (e : ProbeEvent) (sp : t * Probe) : t * Probe :=
  let '(s, pr) := sp in
  match e with
  | ProbeExit code signal =>
      (mk (isRunning s) (captureInterval s) (activeProcesses s)
          (<[streamlink pr := Node.exit code signal (procs s (streamlink pr))]> (procs s))
          (intervals s), pr)
  | ProbeClose code parsed =>
      let s1 :=
        mk (isRunning s) (captureInterval s)
           (Set_delete (streamlink pr) (activeProcesses s)) (procs s) (intervals s) in
      if resolved pr then (s1, pr)
      else if bool_decide (code = Some 0) then cleanup (has_streams parsed) (s1, pr)
      else cleanup false (s1, pr)
  | ProbeError => cleanup false sp
  | ProbeTimeout => cleanup false sp
  | ProbeStop => (stop s, pr)
  end.

Definition probe_run (evs : list ProbeEvent) (sp : t * Probe) : t * Probe :=
  foldl (λ acc e, probe_step e acc) sp evs.

(** The event calls [cleanup], and the value it calls it with. *)
Definition settles (e : ProbeEvent) : bool :=
  match e with
  | ProbeClose _ _ | ProbeError | ProbeTimeout => true
  | _ => false
  end.

Definition verdict (e : ProbeEvent) : bool :=
  match e with
  | ProbeClose code parsed => bool_decide (code = Some 0) && has_streams parsed
  | _ => false
  end.

(** The signals delivered to a process are one [SIGTERM] when [killed]
    is set, and none when it is not. *)
Definition signalled_once (p : Node.ChildProcess) : Prop :=
  Node.received p = if Node.killed p then [Node.SIGTERM] else [].

End TwitchStreamCapture.

(** * Properties *)

(** ** Lists *)

Section ListFacts.
Context {A : Type}.
Implicit Types l : list A.

Lemma slice_last (n : nat) l :
  (0 < n)%nat → JS.slice (- Z.of_nat n) l = drop (length l - n) l.
Proof.
  intros Hn. unfold JS.slice.
  replace (- Z.of_nat n <? 0)%Z with true by (symmetry; apply Z.ltb_lt; lia).
  f_equal. lia.
Qed.

Lemma tail_drop_S l (k : nat) : tail (drop k l) = drop (S k) l.
Proof.
  revert l. induction k as [|k IH]; intros [|a l]; simpl; done.
Qed.

Lemma drop_app_last (n : nat) l x :
  drop (length (l ++ [x]) - n) (l ++ [x])
  = (let kept := drop (length l - n) l ++ [x] in
     if bool_decide (n < length kept)%nat then tail kept else kept).
Proof.
  cbv zeta. rewrite !length_app, length_drop. simpl.
  destruct (decide (length l < n)%nat) as [Hlt|Hge].
  - rewrite bool_decide_eq_false_2 by lia.
    replace (length l - n)%nat with 0%nat by lia.
    replace (length l + 1 - n)%nat with 0%nat by lia. done.
  - rewrite bool_decide_eq_true_2 by lia.
    replace (length l + 1 - n)%nat with (S (length l - n)) by lia.
    rewrite <- drop_app_le by lia. apply eq_sym, tail_drop_S.
Qed.

Lemma filter_iff_in (P Q : A → Prop)
    `{!∀ x, Decision (P x), !∀ x, Decision (Q x)} l :
  (∀ x, x ∈ l → P x ↔ Q x) → filter P l = filter Q l.
Proof.
  induction l as [|a l IH]; intros Hall; [done|].
  rewrite !filter_cons.
  rewrite IH by (intros x Hx; apply Hall; by right).
  destruct (decide (P a)) as [Ha|Ha], (decide (Q a)) as [Hb|Hb]; try done.
  - destruct Hb. apply Hall; [by left|done].
  - destruct Ha. apply Hall; [by left|done].
Qed.

Lemma filter_all (P : A → Prop) `{!∀ x, Decision (P x)} l :
  (∀ x, x ∈ l → P x) → filter P l = l.
Proof.
  induction l as [|a l IH]; intros Hall; [done|].
  rewrite filter_cons_True by (apply Hall; by left).
  f_equal. apply IH. intros x Hx. apply Hall. by right.
Qed.

Lemma NoDup_fmap_filter {B} (f : A → B) (P : A → Prop)
    `{!∀ x, Decision (P x)} l :
  NoDup (f <$> l) → NoDup (f <$> filter P l).
Proof.
  induction l as [|a l IH]; [done|]. csimpl.
  intros Hnd. apply NoDup_cons in Hnd as [Hin Hl].
  rewrite filter_cons. destruct (decide (P a)); [|by apply IH].
  csimpl. apply NoDup_cons. split; [|by apply IH].
  intros Hx. apply Hin. apply list_elem_of_fmap in Hx as (a' & -> & Ha').
  apply list_elem_of_filter in Ha' as [_ Ha'].
  by apply list_elem_of_fmap_2.
Qed.
End ListFacts.

(** ** The frame summarizer *)

Section Summarizer.
Import FrameSummarizer.

Lemma last_successful_app acc log1 log2 :
  last_successful acc (log1 ++ log2)
  = last_successful (last_successful acc log1) log2.
Proof.
  revert acc. induction log1 as [|o log1 IH]; intros acc; [done|].
  destruct o; simpl; apply IH.
Qed.

(** What holds of the summarizer after a step, given it held before:
    the field [lastSummary] is the last success of the log, and a
    request is in flight only with a client. *)
Lemma step_invariant e s s' obs :
  step e s = (s', obs) →
  (isSummarizing s = true → enabled s = true ∧ anthropic s = true) →
  lastSummary s' = last_successful (lastSummary s) obs ∧
  (isSummarizing s' = true → enabled s' = true ∧ anthropic s' = true).
Proof.
  intros Hstep Hinv. destruct s as [an en flight ls]. simpl in Hinv.
  destruct e as [|[content|]]; simpl in Hstep;
    unfold summarizeFrame, summarizeFrame_resume in Hstep; simpl in Hstep;
    destruct an, en, flight; simpl in Hstep;
    injection Hstep as <- <-; simpl; split; try done;
    intros; by apply Hinv.
Qed.

Lemma run_invariant evs : ∀ s acc,
  lastSummary s = acc →
  (isSummarizing s = true → enabled s = true ∧ anthropic s = true) →
  lastSummary (run evs s).1 = last_successful acc (run evs s).2 ∧
  (isSummarizing (run evs s).1 = true →
   enabled (run evs s).1 = true ∧ anthropic (run evs s).1 = true).
Proof.
  induction evs as [|e evs IH]; intros s acc Hacc Hinv; [done|].
  simpl. destruct (step e s) as [s1 o1] eqn:E1.
  destruct (run evs s1) as [s2 o2] eqn:E2. simpl.
  destruct (step_invariant e s s1 o1 E1 Hinv) as (L1 & I1).
  destruct (IH s1 (lastSummary s1) eq_refl I1) as (L2 & I2).
  rewrite E2 in L2, I2. simpl in L2, I2.
  split; [|exact I2].
  rewrite last_successful_app, L2. f_equal. by rewrite L1, Hacc.
Qed.

(** C4.  Take the summarizer after any history of calls and describer
    answers, with a request in flight.  A call of [summarizeFrame]
    returns at once the summary of the last request that succeeded (the
    empty string before the first success), changes nothing and issues
    no request.  If the request in flight is rejected, the call that
    awaits it returns that same last successful summary, a string and
    not an error, and the summarizer is idle again with it. *)
Theorem summarizer_single_flight_with_fallback
    {F} (frame : F) apiKey evs :
  let s := (run evs (new apiKey)).1 in
  let log := (run evs (new apiKey)).2 in
  let previous := last_successful "" log in
  isSummarizing s = true →
  summarizeFrame frame s = (s, Returned previous) ∧
  step Call s = (s, [CallReturned previous]) ∧
  requests (log ++ (step Call s).2) = requests log ∧
  summarizeFrame_resume Rejected s
  = (mk (anthropic s) (enabled s) false previous, previous) ∧
  step (Settle Rejected) s
  = (mk (anthropic s) (enabled s) false previous, [RequestFailed previous]).
Proof.
  cbv zeta. intros Hflight.
  destruct (run_invariant evs (new apiKey) "") as (L & I).
  { unfold new. by destruct (JS.truthy_opt apiKey). }
  { unfold new. by destruct (JS.truthy_opt apiKey). }
  destruct (I Hflight) as (Een & Ean).
  unfold step, summarizeFrame, summarizeFrame_resume.
  rewrite Een, Ean, Hflight, L. simpl.
  repeat split. unfold requests. rewrite filter_app. simpl.
  by rewrite app_nil_r.
Qed.

Lemma summarizer_single_flight_with_fallback_witness :
  let evs := [Call; Settle (Fulfilled [TextBlock "a dog"]); Call] in
  let s := (run evs (new (Some "key"))).1 in
  let log := (run evs (new (Some "key"))).2 in
  summarizeFrame 7%nat s = (s, Returned "a dog") ∧
  step Call s = (s, [CallReturned "a dog"]) ∧
  requests (log ++ (step Call s).2) = requests log ∧
  summarizeFrame_resume Rejected s = (mk true true false "a dog", "a dog") ∧
  step (Settle Rejected) s = (mk true true false "a dog", [RequestFailed "a dog"]).
Proof.
  apply (summarizer_single_flight_with_fallback 7%nat (Some "key")
           [Call; Settle (Fulfilled [TextBlock "a dog"]); Call]).
  reflexivity.
Defined.
End Summarizer.

(** ** The hub: what [broadcast] leaves alone *)

Section BroadcastFrame.
Import VisionBroadcaster.

Ltac loop_frame :=
  let es := fresh "es" in
  let IH := fresh "IH" in
  intros ? es; induction es as [|[? ?] es IH]; intros h; simpl;
    [done | destruct (ws_open _ _); rewrite IH; done].

Lemma broadcast_loop_recentChat m es h :
  recentChat (broadcast_loop m es h) = recentChat h.
Proof. revert m es h. loop_frame. Qed.

Lemma broadcast_loop_pendingConnections m es h :
  pendingConnections (broadcast_loop m es h) = pendingConnections h.
Proof. revert m es h. loop_frame. Qed.

Lemma broadcast_loop_currentFrame m es h :
  currentFrame (broadcast_loop m es h) = currentFrame h.
Proof. revert m es h. loop_frame. Qed.

Lemma broadcast_loop_streamStartedAt m es h :
  streamStartedAt (broadcast_loop m es h) = streamStartedAt h.
Proof. revert m es h. loop_frame. Qed.

Lemma broadcast_loop_totalConnectionsEver m es h :
  totalConnectionsEver (broadcast_loop m es h) = totalConnectionsEver h.
Proof. revert m es h. loop_frame. Qed.

Lemma broadcast_loop_connectionsByIP m es h :
  connectionsByIP (broadcast_loop m es h) = connectionsByIP h.
Proof. revert m es h. loop_frame. Qed.

Lemma broadcast_loop_frameSummarizer m es h :
  frameSummarizer (broadcast_loop m es h) = frameSummarizer h.
Proof. revert m es h. loop_frame. Qed.

Lemma broadcast_loop_frames m es h :
  frames (broadcast_loop m es h) = frames h.
Proof. revert m es h. loop_frame. Qed.

Lemma broadcast_loop_awaited m es h :
  awaited (broadcast_loop m es h) = awaited h.
Proof. revert m es h. loop_frame. Qed.

Lemma broadcast_loop_microtasks m es h :
  microtasks (broadcast_loop m es h) = microtasks h.
Proof. revert m es h. loop_frame. Qed.

Lemma broadcast_loop_handled m es h :
  handled (broadcast_loop m es h) = handled h.
Proof. revert m es h. loop_frame. Qed.

Lemma broadcast_loop_broadcasts m es h :
  broadcasts (broadcast_loop m es h) = broadcasts h.
Proof. revert m es h. loop_frame. Qed.

Lemma broadcast_recentChat m h : recentChat (broadcast m h) = recentChat h.
Proof. unfold broadcast. by rewrite broadcast_loop_recentChat. Qed.

Lemma broadcast_pendingConnections m h :
  pendingConnections (broadcast m h) = pendingConnections h.
Proof. unfold broadcast. by rewrite broadcast_loop_pendingConnections. Qed.

Lemma broadcast_currentFrame m h : currentFrame (broadcast m h) = currentFrame h.
Proof. unfold broadcast. by rewrite broadcast_loop_currentFrame. Qed.

Lemma broadcast_streamStartedAt m h :
  streamStartedAt (broadcast m h) = streamStartedAt h.
Proof. unfold broadcast. by rewrite broadcast_loop_streamStartedAt. Qed.

Lemma broadcast_totalConnectionsEver m h :
  totalConnectionsEver (broadcast m h) = totalConnectionsEver h.
Proof. unfold broadcast. by rewrite broadcast_loop_totalConnectionsEver. Qed.

Lemma broadcast_connectionsByIP m h :
  connectionsByIP (broadcast m h) = connectionsByIP h.
Proof. unfold broadcast. by rewrite broadcast_loop_connectionsByIP. Qed.

Lemma broadcast_frameSummarizer m h :
  frameSummarizer (broadcast m h) = frameSummarizer h.
Proof. unfold broadcast. by rewrite broadcast_loop_frameSummarizer. Qed.

Lemma broadcast_frames m h : frames (broadcast m h) = frames h.
Proof. unfold broadcast. by rewrite broadcast_loop_frames. Qed.

Lemma broadcast_awaited m h : awaited (broadcast m h) = awaited h.
Proof. unfold broadcast. by rewrite broadcast_loop_awaited. Qed.

Lemma broadcast_microtasks m h : microtasks (broadcast m h) = microtasks h.
Proof. unfold broadcast. by rewrite broadcast_loop_microtasks. Qed.

Lemma broadcast_handled m h : handled (broadcast m h) = handled h.
Proof. unfold broadcast. by rewrite broadcast_loop_handled. Qed.

Lemma broadcast_broadcasts m h :
  broadcasts (broadcast m h) = broadcasts h ++ [m].
Proof. unfold broadcast. by rewrite broadcast_loop_broadcasts. Qed.
End BroadcastFrame.

Create Rewrite HintDb hub.

#[local] Hint Rewrite
  broadcast_recentChat broadcast_pendingConnections broadcast_currentFrame
  broadcast_streamStartedAt broadcast_totalConnectionsEver
  broadcast_connectionsByIP broadcast_frameSummarizer broadcast_frames
  broadcast_awaited broadcast_microtasks broadcast_handled
  broadcast_broadcasts : hub.

(** Case analysis on every [match] of the goal. *)
Ltac split_matches :=
  repeat match goal with
         | |- context [match ?x with _ => _ end] => destruct x eqn:?
         end.

(** A field that only some handlers write: unfold the handlers, split
    the cases, and let [broadcast] step aside. *)
Ltac hub_frame :=
  unfold VisionBroadcaster.step, VisionBroadcaster.handleClawMessage,
    VisionBroadcaster.handleClawDisconnect, VisionBroadcaster.setStreamLive,
    VisionBroadcaster.broadcastFrame, VisionBroadcaster.runMicrotask,
    VisionBroadcaster.broadcastFrame_then,
    VisionBroadcaster.broadcastChatMessage,
    VisionBroadcaster.broadcastTranscript, VisionBroadcaster.broadcastState,
    VisionBroadcaster.describerSettled, VisionBroadcaster.onConnection;
  split_matches; autorewrite with hub; try done.

(** ** Chat history *)

Section ChatHistory.
Import VisionBroadcaster.

Lemma handleClawMessage_recentChat w raw now h :
  recentChat (handleClawMessage w raw now h) = recentChat h.
Proof.
  unfold handleClawMessage, broadcastState. split_matches;
    autorewrite with hub; done.
Qed.

Lemma handleClawDisconnect_recentChat w now h :
  recentChat (handleClawDisconnect w now h) = recentChat h.
Proof.
  unfold handleClawDisconnect, broadcastState. split_matches;
    autorewrite with hub; done.
Qed.

Lemma step_recentChat e now h :
  recentChat (step e now h)
  = match e with
    | BroadcastChatMessage c =>
        let pushed := recentChat h ++ [c] in
        if bool_decide (maxChatHistory < length pushed)%nat
        then tail pushed else pushed
    | _ => recentChat h
    end.
Proof.
  destruct e; simpl;
    unfold setStreamLive, broadcastFrame, runMicrotask, broadcastFrame_then,
      broadcastChatMessage, broadcastTranscript, broadcastState,
      describerSettled, onConnection;
    rewrite ?handleClawMessage_recentChat;
    split_matches; autorewrite with hub;
    rewrite ?handleClawMessage_recentChat, ?handleClawDisconnect_recentChat;
    try done.
Qed.

Lemma run_recentChat evs : ∀ h past,
  recentChat h = drop (length past - maxChatHistory) past →
  recentChat (run evs h)
  = drop (length (past ++ chats_of evs) - maxChatHistory) (past ++ chats_of evs).
Proof.
  induction evs as [|[e now] evs IH]; intros h past Hh; simpl.
  - by rewrite app_nil_r.
  - destruct e as [ip|w raw|w|w|b|f|c|tr|o|];
      try (apply IH; rewrite step_recentChat; exact Hh).
    rewrite (cons_middle c past), app_assoc. apply IH.
    rewrite step_recentChat, drop_app_last, Hh. done.
Qed.

(** C7.  Whatever the hub goes through, it retains at most 100 chat
    messages, and they are the most recent ones broadcast, in the order
    of their broadcast: the retained history is the chat traffic with
    its oldest entries dropped. *)
Theorem chat_history_bounded_fifo apiKey heap evs :
  let h := run evs (new apiKey heap) in
  let all := chats_of evs in
  maxChatHistory = 100%nat ∧
  (length (recentChat h) ≤ maxChatHistory)%nat ∧
  recentChat h = drop (length all - maxChatHistory) all.
Proof.
  cbv zeta.
  assert (recentChat (run evs (new apiKey heap))
          = drop (length (chats_of evs) - maxChatHistory) (chats_of evs)) as E.
  { apply (run_recentChat evs (new apiKey heap) []). done. }
  split; [done|]. split; [|exact E].
  rewrite E, length_drop. lia.
Qed.
End ChatHistory.

(** ** The snapshot *)

Section Snapshot.
Import VisionBroadcaster.

(** C8.  [getStreamState] returns the state derived from the fields of
    the hub, and the chat it embeds is the last 20 entries of the
    retained history (all of it when it has fewer), whatever the length
    of that history: the history is some older entries followed by the
    embedded ones. *)
Theorem snapshot_embeds_last_20_chat h :
  let s := getStreamState h in
  st_recentChat s = drop (length (recentChat h) - 20) (recentChat h) ∧
  recentChat h = take (length (recentChat h) - 20) (recentChat h) ++ st_recentChat s ∧
  length (st_recentChat s) = (length (recentChat h) `min` 20)%nat ∧
  isLive s = bool_decide (streamStartedAt h ≠ None) ∧
  st_currentFrame s = getFrame h ∧
  participants s = getConnectedClaws h ∧
  st_streamStartedAt s = streamStartedAt h.
Proof.
  cbv zeta. simpl.
  assert (JS.slice (-20) (recentChat h)
          = drop (length (recentChat h) - 20) (recentChat h)) as E.
  { apply (slice_last 20). lia. }
  rewrite E. repeat split.
  - by rewrite take_drop.
  - rewrite length_drop. lia.
Qed.
End Snapshot.

(** ** Liveness *)

Section Liveness.
Import VisionBroadcaster.

Lemma broadcasts_since_app h h' ms :
  broadcasts h' = broadcasts h ++ ms →
  state_broadcasts_since h h' = filter is_state ms.
Proof.
  intros E. unfold state_broadcasts_since.
  by rewrite E, drop_app_length.
Qed.

(** Every call of [setStreamLive] ends in [broadcastState], on an edge
    or not. *)
Lemma setStreamLive_broadcasts b now h :
  ∃ payload,
    broadcasts (setStreamLive b now h) = broadcasts h ++ [MsgState payload now].
Proof.
  unfold setStreamLive, broadcastState. eexists.
  rewrite broadcast_broadcasts. f_equal.
  by destruct (_ && _); [|destruct (_ && _)].
Qed.

Lemma setStreamLive_streamStartedAt b now h :
  streamStartedAt (setStreamLive b now h)
  = if b && negb (JS.truthy_opt_number (streamStartedAt h)) then Some now
    else if negb b && JS.truthy_opt_number (streamStartedAt h) then None
    else streamStartedAt h.
Proof.
  unfold setStreamLive, broadcastState. rewrite broadcast_streamStartedAt.
  by destruct (_ && _); [|destruct (_ && _)].
Qed.

(** C1, as the code has it.  On an offline hub, with a clock that does
    not read zero, the first [setStreamLive(true)] goes live and stamps
    the start of the stream, the second leaves liveness and the stamp as
    they are, and each of the two calls broadcasts the state once: two
    [state] broadcasts for the pair. *)
Theorem setStreamLive_twice_two_broadcasts h now1 now2 :
  streamStartedAt h = None →
  now1 ≠ 0 →
  let h1 := setStreamLive true now1 h in
  let h2 := setStreamLive true now2 h1 in
  isLive (getStreamState h) = false ∧
  isLive (getStreamState h1) = true ∧
  streamStartedAt h1 = Some now1 ∧
  streamStartedAt h2 = Some now1 ∧
  isLive (getStreamState h2) = true ∧
  length (state_broadcasts_since h h1) = 1%nat ∧
  length (state_broadcasts_since h1 h2) = 1%nat ∧
  length (state_broadcasts_since h h2) = 2%nat.
Proof.
  intros Hoff Hnow. cbv zeta.
  assert (streamStartedAt (setStreamLive true now1 h) = Some now1) as E1.
  { rewrite setStreamLive_streamStartedAt, Hoff. done. }
  assert (streamStartedAt (setStreamLive true now2 (setStreamLive true now1 h))
          = Some now1) as E2.
  { rewrite setStreamLive_streamStartedAt, E1. simpl.
    unfold JS.truthy_number. by rewrite (proj2 (Z.eqb_neq now1 0) Hnow). }
  destruct (setStreamLive_broadcasts true now1 h) as [p1 B1].
  destruct (setStreamLive_broadcasts true now2 (setStreamLive true now1 h))
    as [p2 B2].
  simpl. rewrite Hoff, E1, E2.
  rewrite (broadcasts_since_app _ _ _ B1), (broadcasts_since_app _ _ _ B2).
  rewrite (broadcasts_since_app h _ [MsgState p1 now1; MsgState p2 now2])
    by (rewrite B2, B1, <- app_assoc; done).
  repeat split.
Qed.

Lemma setStreamLive_twice_two_broadcasts_witness :
  let h := new None blank_heap in
  let h1 := setStreamLive true 1000 h in
  let h2 := setStreamLive true 2000 h1 in
  isLive (getStreamState h) = false ∧
  isLive (getStreamState h1) = true ∧
  streamStartedAt h1 = Some 1000 ∧
  streamStartedAt h2 = Some 1000 ∧
  isLive (getStreamState h2) = true ∧
  length (state_broadcasts_since h h1) = 1%nat ∧
  length (state_broadcasts_since h1 h2) = 1%nat ∧
  length (state_broadcasts_since h h2) = 2%nat.
Proof.
  apply (setStreamLive_twice_two_broadcasts (new None blank_heap) 1000 2000).
  - reflexivity.
  - lia.
Defined.

(** C1, as the design document has it, fails on a fresh hub: the second
    call broadcasts the state again. *)
Lemma setLiveness_twice_one_broadcast_fails :
  ¬ setLiveness_twice_one_broadcast (new None blank_heap) 1000 2000.
Proof.
  unfold setLiveness_twice_one_broadcast. cbv zeta.
  intros (_ & _ & _ & H). vm_compute in H. discriminate.
Qed.
End Liveness.

(** ** Metrics *)

Section Metrics.
Import VisionBroadcaster.

Lemma step_totalConnectionsEver e now h :
  totalConnectionsEver (step e now h)
  = match e with
    | Connection _ => totalConnectionsEver h + 1
    | _ => totalConnectionsEver h
    end.
Proof. destruct e; hub_frame. Qed.

Lemma step_connectionsByIP e now h :
  connectionsByIP (step e now h)
  = match e with
    | Connection ip =>
        <[ip := JS.nullish (connectionsByIP h !! ip) 0 + 1]> (connectionsByIP h)
    | _ => connectionsByIP h
    end.
Proof. destruct e; hub_frame. Qed.

Lemma step_metrics e now h :
  let m := getMetrics h in
  let m' := getMetrics (step e now h) in
  totalConnections m ≤ totalConnections m' ∧
  dom (m_connectionsByIP m) ⊆ dom (m_connectionsByIP m') ∧
  (∀ ip, connections_from m ip ≤ connections_from m' ip).
Proof.
  cbv zeta. unfold connections_from. simpl.
  rewrite step_totalConnectionsEver, step_connectionsByIP.
  destruct e as [ip0| | | | | | | | |]; try (split; [lia|split; [done|intros; lia]]).
  split; [lia|]. split.
  - rewrite dom_insert. set_solver.
  - intros ip. destruct (decide (ip0 = ip)) as [->|Hne].
    + rewrite lookup_insert_eq. simpl. lia.
    + rewrite lookup_insert_ne by done. lia.
Qed.

(** C6, as the code has it.  Whatever the hub goes through, the
    cumulative count of connections does not decrease, no address leaves
    the addresses counted in [connectionsByIP] (every address a
    connection came from), and no count of an address decreases. *)
Theorem cumulative_metrics_never_decrease evs h :
  let m := getMetrics h in
  let m' := getMetrics (run evs h) in
  totalConnections m ≤ totalConnections m' ∧
  dom (m_connectionsByIP m) ⊆ dom (m_connectionsByIP m') ∧
  (∀ ip, connections_from m ip ≤ connections_from m' ip).
Proof.
  revert h. induction evs as [|[e now] evs IH]; intros h.
  - simpl. split; [lia|]. split; [done|]. intros; lia.
  - change (run ((e, now) :: evs) h) with (run evs (step e now h)).
    destruct (step_metrics e now h) as (T1 & D1 & C1).
    destruct (IH (step e now h)) as (T2 & D2 & C2).
    cbv zeta. split; [lia|]. split; [etrans; [exact D1|exact D2]|].
    intros ip. specialize (C1 ip). specialize (C2 ip). lia.
Qed.

(** C6, as the design document has it, fails when the one registered
    subscriber disconnects: [uniqueIPs] is computed from the participants
    of the moment and loses the address. *)
Lemma metrics_never_decrease_fails :
  uniqueIPs (getMetrics hub_one_foreign) = ["203.0.113.7"] ∧
  uniqueIPs (getMetrics (step (Close 0%nat) 3 hub_one_foreign)) = [] ∧
  ¬ metrics_never_decrease hub_one_foreign (Close 0%nat) 3.
Proof.
  assert (uniqueIPs (getMetrics hub_one_foreign) = ["203.0.113.7"]) as E1
    by (vm_compute; reflexivity).
  assert (uniqueIPs (getMetrics (step (Close 0%nat) 3 hub_one_foreign)) = []) as E2
    by (vm_compute; reflexivity).
  split; [exact E1|]. split; [exact E2|].
  intros (_ & _ & Hsub). rewrite E1, E2 in Hsub.
  specialize (Hsub "203.0.113.7"). set_solver.
Qed.
End Metrics.

(** ** Fan-out and the sockets outside the registry *)

Section FanOut.
Import VisionBroadcaster.

Lemma ws_send_lookup_ne w' m socks w :
  w' ≠ w → ws_send w' m socks !! w = socks !! w.
Proof. intros. unfold ws_send. by apply list_lookup_alter_ne. Qed.

Lemma set_readyState_lookup_ne w' r socks w :
  w' ≠ w → set_readyState w' r socks !! w = socks !! w.
Proof. intros. unfold set_readyState. by apply list_lookup_alter_ne. Qed.

Lemma ws_send_open w m socks :
  ws_open socks w = true →
  ∃ s, socks !! w = Some s ∧ readyState s = OPEN ∧
       ws_send w m socks !! w = Some (mkSocket OPEN (sent s ++ [m])).
Proof.
  unfold ws_open, ws_send, is_open. intros H.
  destruct (socks !! w) as [s|] eqn:E; [|done].
  apply bool_decide_eq_true in H. exists s. split; [done|]. split; [done|].
  rewrite list_lookup_alter_eq, E. simpl.
  rewrite bool_decide_eq_true_2 by done. by rewrite H.
Qed.

Lemma Map_delete_Forall {V} (P : string * V → Prop) k (m : JS.Map V) :
  Forall P m → Forall P (JS.Map_delete k m).
Proof.
  unfold JS.Map_delete. induction 1 as [|e m He Hm IH]; [done|].
  rewrite filter_cons. case_decide; [constructor|]; done.
Qed.

Lemma Map_set_Forall {V} (P : string * V → Prop) k v (m : JS.Map V) :
  P (k, v) → Forall P m → Forall P (JS.Map_set k v m).
Proof.
  intros Hk. induction 1 as [|[k' v'] m Hx Hm IH]; simpl.
  - by constructor.
  - case_bool_decide; constructor; done.
Qed.

Lemma touch_keys w now m : (touch w now m).*1 = m.*1.
Proof.
  induction m as [|[k c] m IH]; csimpl; [done|].
  case_bool_decide; csimpl; [done|]. by rewrite IH.
Qed.

Lemma touch_Forall_ws (P : WebSocket → Prop) w now m :
  Forall (λ e, P (ws e.2)) m → Forall (λ e, P (ws e.2)) (touch w now m).
Proof.
  induction 1 as [|[k c] m Hc Hm IH]; simpl; [done|].
  case_bool_decide; constructor; done.
Qed.

(** The loop sends to sockets of its entries only, and only removes
    entries. *)
Lemma broadcast_loop_other m w es : ∀ h,
  Forall (λ e, ws e.2 ≠ w) es →
  sockets (broadcast_loop m es h) !! w = sockets h !! w.
Proof.
  induction es as [|[k c] es IH]; intros h Hes; simpl; [done|].
  inversion_clear Hes as [|? ? Hc Hes']. simpl in Hc.
  destruct (ws_open _ _); rewrite IH by done; simpl; [|done].
  by apply ws_send_lookup_ne.
Qed.

Lemma broadcast_loop_Forall (P : string * ConnectedClaw → Prop) m es : ∀ h,
  Forall P (connectedClaws h) →
  Forall P (connectedClaws (broadcast_loop m es h)).
Proof.
  induction es as [|[k c] es IH]; intros h Hh; simpl; [done|].
  destruct (ws_open _ _); apply IH; simpl; [done|].
  by apply Map_delete_Forall.
Qed.

Lemma broadcast_other m w h :
  unbound w h →
  sockets (broadcast m h) !! w = sockets h !! w ∧ unbound w (broadcast m h).
Proof.
  intros Hu. unfold broadcast. split.
  - by rewrite broadcast_loop_other.
  - by apply broadcast_loop_Forall.
Qed.

End FanOut.

(** ** A socket that never registers *)

Section Unregistered.
Import VisionBroadcaster.

Lemma same_socket h h' w :
  sockets h' !! w = sockets h !! w →
  ws_open (sockets h') w = ws_open (sockets h) w ∧ outbox h' w = outbox h w.
Proof. intros E. unfold ws_open, outbox. by rewrite E. Qed.

(** What a broadcast of [h1] does to the socket [w], when [h1] has the
    sockets and the registry of [h]. *)
Lemma broadcast_unbound m w h h1 :
  sockets h1 = sockets h → connectedClaws h1 = connectedClaws h →
  unbound w h →
  sockets (broadcast m h1) !! w = sockets h !! w ∧ unbound w (broadcast m h1).
Proof.
  intros Es Ec Hu.
  destruct (broadcast_other m w h1) as [E U].
  { unfold unbound. by rewrite Ec. }
  split; [by rewrite E, Es | done].
Qed.

Lemma handleClawMessage_unregistered w w' raw now h :
  ws_open (sockets h) w = true → unbound w h →
  registers w (Message w' raw) = false →
  let h' := handleClawMessage w' raw now h in
  ws_open (sockets h') w = true ∧ unbound w h' ∧
  outbox h' w
  = outbox h w ++ (if pings w (Message w' raw) then [MsgPong now] else []).
Proof.
  intros Hopen Hu Hreg. cbv zeta.
  destruct raw as [message|]; simpl; [|by rewrite app_nil_r].
  simpl in Hreg.
  destruct (String.eqb (in_type message) "ping") eqn:Eping.
  - (* a ping: answered on the socket it came from *)
    apply String.eqb_eq in Eping. rewrite Eping. simpl.
    destruct (decide (w' = w)) as [->|Hne].
    + rewrite bool_decide_eq_true_2 by done. simpl.
      destruct (ws_send_open w (MsgPong now) (sockets h) Hopen)
        as (s & Es & Hs & Esend).
      unfold ws_open, outbox. simpl. rewrite Esend, Es. simpl.
      split; [done|]. split; [|done].
      by apply (touch_Forall_ws (λ x, x ≠ w)).
    + rewrite bool_decide_eq_false_2 by done. simpl. rewrite app_nil_r.
      unfold ws_open, outbox in *. simpl.
      rewrite ws_send_lookup_ne by done.
      split; [done|]. split; [|done].
      by apply (touch_Forall_ws (λ x, x ≠ w)).
  - rewrite andb_false_r, app_nil_r.
    destruct (String.eqb (in_type message) "register") eqn:Ereg.
    + (* a registration: another socket's, or one that is refused *)
      destruct (in_clawId message) as [cid|]; [|done].
      destruct (in_clawName message) as [cname|]; [|done].
      simpl in Hreg.
      destruct (JS.truthy_string cid) eqn:Ecid; [|done].
      destruct (JS.truthy_string cname) eqn:Ecname; [|done].
      simpl. rewrite !andb_true_r in Hreg.
      apply bool_decide_eq_false in Hreg.
      unfold broadcastState.
      match goal with
      | |- context [broadcast ?m ?h1] =>
          destruct (broadcast_other m w h1) as [E U]
      end.
      { simpl. apply Map_set_Forall; [done|exact Hu]. }
      destruct (same_socket _ _ _ E) as [Eo Eb].
      rewrite Eo, Eb. done.
    + by destruct (_ || _).
Qed.

Lemma step_unregistered w e now h :
  ws_open (sockets h) w = true → unbound w h →
  registers w e = false → closes w e = false →
  let h' := step e now h in
  ws_open (sockets h') w = true ∧ unbound w h' ∧
  outbox h' w = outbox h w ++ (if pings w e then [MsgPong now] else []).
Proof.
  intros Hopen Hu Hreg Hcl. cbv zeta.
  assert (w < length (sockets h))%nat as Hlt.
  { unfold ws_open in Hopen.
    destruct (sockets h !! w) eqn:E; [|done]. by eapply lookup_lt_Some. }
  assert (∀ h', sockets h' !! w = sockets h !! w → unbound w h' →
                ws_open (sockets h') w = true ∧ unbound w h' ∧
                outbox h' w = outbox h w ++ []) as Same.
  { intros h' E U. destruct (same_socket _ _ _ E) as [-> ->].
    by rewrite app_nil_r. }
  destruct e as [ip|w' raw|w'|w'|b|f|c|tr|o|]; cbn [step pings].
  - (* Connection *)
    apply Same; [|exact Hu]. unfold onConnection. simpl.
    rewrite ws_send_lookup_ne by lia. by apply lookup_app_l.
  - (* Message *)
    destruct (decide (w' = w)) as [->|Hne].
    + assert (ws_state (sockets h) w = Some OPEN) as ->.
      { revert Hopen. unfold ws_open, ws_state, is_open.
        destruct (sockets h !! w) as [s|]; [|done]. simpl.
        intros Ho. apply bool_decide_eq_true in Ho. by rewrite Ho. }
      by apply handleClawMessage_unregistered.
    + destruct (ws_state (sockets h) w') as [[]|];
        try (by apply handleClawMessage_unregistered).
      all: destruct raw as [m|]; [|by apply Same].
      all: rewrite bool_decide_eq_false_2 by done; by apply Same.
  - (* Closing *)
    simpl in Hcl. apply bool_decide_eq_false in Hcl.
    destruct (ws_state (sockets h) w') as [[]|]; try (by apply Same).
    apply Same; [|exact Hu]. simpl. by apply set_readyState_lookup_ne.
  - (* Close *)
    simpl in Hcl. apply bool_decide_eq_false in Hcl.
    assert (∀ h0, sockets h0 !! w = sockets h !! w → unbound w h0 →
              let h' := handleClawDisconnect w' now h0 in
              sockets h' !! w = sockets h !! w ∧ unbound w h') as Disc.
    { intros h0 E0 U0. cbv zeta. unfold handleClawDisconnect.
      destruct (List.find _ _) as [[k c]|]; [|done].
      unfold broadcastState.
      match goal with
      | |- context [broadcast ?m ?h1] =>
          destruct (broadcast_other m w h1) as [E U]
      end.
      { simpl. by apply Map_delete_Forall. }
      split; [|done]. by rewrite E. }
    destruct (ws_state (sockets h) w') as [[]|]; try (by apply Same).
    all: match goal with
         | |- context [handleClawDisconnect _ _ ?h0] =>
             destruct (Disc h0) as [E U];
               [simpl; by apply set_readyState_lookup_ne | exact Hu |]
         end.
    all: by apply Same.
  - (* SetStreamLive *)
    unfold setStreamLive, broadcastState.
    match goal with
    | |- context [broadcast ?m ?h1] =>
        destruct (broadcast_unbound m w h h1) as [E U]
    end; try done; try (by destruct (_ && _); [|destruct (_ && _)]).
    by apply Same.
  - (* BroadcastFrame *)
    unfold broadcastFrame. simpl.
    destruct (FrameSummarizer.isEnabled _).
    + destruct (FrameSummarizer.summarizeFrame _ _) as [s' []]; by apply Same.
    + match goal with
      | |- context [broadcast ?m ?h1] =>
          destruct (broadcast_unbound m w h h1) as [E U]
      end; try done.
      by apply Same.
  - (* BroadcastChatMessage *)
    unfold broadcastChatMessage.
    match goal with
    | |- context [broadcast ?m ?h1] =>
        destruct (broadcast_unbound m w h h1) as [E U]
    end; try done; try (by case_bool_decide).
    by apply Same.
  - (* BroadcastTranscript *)
    unfold broadcastTranscript.
    destruct (broadcast_unbound (MsgTranscript tr now) w h h) as [E U]; try done.
    by apply Same.
  - (* DescriberSettled *)
    unfold describerSettled. destruct (awaited h); [|by apply Same].
    destruct (FrameSummarizer.summarizeFrame_resume _ _). by apply Same.
  - (* Microtask *)
    unfold runMicrotask. destruct (microtasks h) as [|[f v] rest]; [by apply Same|].
    unfold broadcastFrame_then.
    match goal with
    | |- context [broadcast ?m ?h1] =>
        destruct (broadcast_unbound m w h h1) as [E U]
    end; try done; try (by destruct (JS.truthy_string _)).
    by apply Same.
Qed.
Lemma run_unregistered w evs : ∀ h,
  ws_open (sockets h) w = true → unbound w h →
  Forall (λ en, registers w en.1 = false ∧ closes w en.1 = false) evs →
  let h' := run evs h in
  ws_open (sockets h') w = true ∧ unbound w h' ∧
  outbox h' w = outbox h w ++ (MsgPong <$> pings_of w evs).
Proof.
  induction evs as [|[e now] evs IH]; intros h Hopen Hu Hevs; cbv zeta.
  - simpl. by rewrite app_nil_r.
  - inversion_clear Hevs as [|? ? [Hreg Hcl] Hevs']. simpl in Hreg, Hcl.
    destruct (step_unregistered w e now h Hopen Hu Hreg Hcl) as (O1 & U1 & B1).
    destruct (IH (step e now h) O1 U1 Hevs') as (O2 & U2 & B2).
    change (run ((e, now) :: evs) h) with (run evs (step e now h)).
    split; [done|]. split; [done|].
    rewrite B2, B1, <- app_assoc. f_equal.
    unfold pings_of. simpl. by destruct (pings w e).
Qed.

Lemma onConnection_socket ip now h :
  registry_wf h →
  let w := length (sockets h) in
  let h' := onConnection ip now h in
  ws_open (sockets h') w = true ∧ unbound w h' ∧
  outbox h' w = [MsgState (getStreamState h) now].
Proof.
  intros Hwf. cbv zeta.
  assert (ws_open (sockets h ++ [mkSocket OPEN []]) (length (sockets h)) = true)
    as Hopen.
  { unfold ws_open. by rewrite list_lookup_middle. }
  destruct (ws_send_open (length (sockets h)) (MsgState (getStreamState h) now)
              _ Hopen) as (s & Es & Hs & Esend).
  rewrite list_lookup_middle in Es by done. injection Es as <-.
  unfold onConnection, ws_open, outbox. simpl.
  change (getStreamState _) with (getStreamState h) at 1.
  change (getStreamState _) with (getStreamState h).
  rewrite Esend. simpl. split; [done|]. split; [|done].
  unfold unbound. simpl. eapply Forall_impl; [exact Hwf|].
  intros [k c] Hc. simpl in *. lia.
Qed.

(** The socket that a connection hands to a hub with a well-formed
    registry holds the state sent at connection, then the answers to its
    pings, as long as it neither registers nor closes. *)
Lemma unregistered_socket_outbox h ip now0 evs :
  registry_wf h →
  let w := length (sockets h) in
  Forall (λ en, registers w en.1 = false ∧ closes w en.1 = false) evs →
  let h' := run evs (onConnection ip now0 h) in
  ws_open (sockets h') w = true ∧
  unbound w h' ∧
  outbox h' w = MsgState (getStreamState h) now0 :: (MsgPong <$> pings_of w evs).
Proof.
  intros Hwf w Hevs. cbv zeta.
  destruct (onConnection_socket ip now0 h Hwf) as (O & U & B).
  destruct (run_unregistered w evs (onConnection ip now0 h) O U Hevs)
    as (O' & U' & B').
  split; [done|]. split; [done|]. rewrite B'. subst w. by rewrite B.
Qed.
End Unregistered.

(** ** The current frame and its summary *)

Section CurrentFrame.
Import VisionBroadcaster.

(** The part of the hub that the frame pipeline works on. *)
Lemma step_leaves_frames e now h :
  leaves_frames e = true →
  let h' := step e now h in
  currentFrame h' = currentFrame h ∧ frames h' = frames h ∧
  awaited h' = awaited h ∧ frameSummarizer h' = frameSummarizer h ∧
  microtasks h' = microtasks h.
Proof.
  intros He. cbv zeta.
  destruct e; try discriminate He; repeat split; hub_frame.
Qed.

Lemma run_leaves_frames evs : ∀ h,
  Forall (λ en, leaves_frames en.1 = true) evs →
  let h' := run evs h in
  currentFrame h' = currentFrame h ∧ frames h' = frames h ∧
  awaited h' = awaited h ∧ frameSummarizer h' = frameSummarizer h ∧
  microtasks h' = microtasks h.
Proof.
  induction evs as [|[e now] evs IH]; intros h Hevs; cbv zeta; [done|].
  inversion_clear Hevs as [|? ? He Hevs']. simpl in He.
  destruct (step_leaves_frames e now h He) as (C1 & F1 & A1 & S1 & M1).
  destruct (IH (step e now h) Hevs') as (C2 & F2 & A2 & S2 & M2).
  change (run ((e, now) :: evs) h) with (run evs (step e now h)).
  rewrite C2, F2, A2, S2, M2. done.
Qed.

(** Whatever the summarizer is doing, [broadcastFrame] makes the frame
    the current one in its synchronous part, and writes to no frame. *)
Lemma broadcastFrame_installs_at_once frame now h :
  currentFrame (broadcastFrame frame now h) = Some frame ∧
  frames (broadcastFrame frame now h) = frames h.
Proof.
  unfold broadcastFrame. simpl.
  destruct (FrameSummarizer.isEnabled _).
  - by destruct (FrameSummarizer.summarizeFrame _ _) as [s' []].
  - by rewrite broadcast_currentFrame, broadcast_frames.
Qed.

(** The callback of [broadcastFrame], run with a summary that is not
    empty, writes it to the frame it was queued for and to no other, and
    broadcasts that frame. *)
Lemma runMicrotask_attaches_summary frame v rest now h :
  microtasks h = (frame, v) :: rest →
  JS.truthy_string v = true →
  let h' := runMicrotask now h in
  frames h' frame = set_summary v (frames h frame) ∧
  (∀ other, other ≠ frame → frames h' other = frames h other) ∧
  currentFrame h' = currentFrame h ∧
  broadcasts h' = broadcasts h ++ [MsgFrame (set_summary v (frames h frame)) now].
Proof.
  intros Hq Hv. cbv zeta. unfold runMicrotask, broadcastFrame_then.
  rewrite Hq, Hv. simpl.
  rewrite broadcast_frames, broadcast_currentFrame, broadcast_broadcasts. simpl.
  rewrite fn_lookup_insert. repeat split.
  intros other Hne. by rewrite fn_lookup_insert_ne.
Qed.

(** C10.  With the summarizer enabled and idle, [broadcastFrame] makes
    the frame the current one at once, without writing to it and without
    a broadcast.  Whatever else the hub does while the describer works,
    the [/frame] endpoint and the snapshot serve the frame as it was
    handed in.  When the describer answers with a summary that is not
    empty and the callback of [broadcastFrame] has run, the same frame
    object is still the current one and carries the summary: the
    endpoint and the snapshot serve a frame whose [summary] field is
    that summary and whose other fields are those of the frame handed
    in, and no other call of [broadcastFrame] was made. *)
Theorem current_frame_served_before_and_after_summary
    h frame now1 evs1 content evs2 now2 :
  FrameSummarizer.enabled (frameSummarizer h) = true →
  FrameSummarizer.anthropic (frameSummarizer h) = true →
  FrameSummarizer.isSummarizing (frameSummarizer h) = false →
  microtasks h = [] →
  JS.truthy_string (FrameSummarizer.summary_of content) = true →
  Forall (λ en, leaves_frames en.1 = true) evs1 →
  Forall (λ en, leaves_frames en.1 = true) evs2 →
  let original := frames h frame in
  let summarized :=
    mkFrame (f_timestamp original) (imageBase64 original) (format original)
            (width original) (height original)
            (Some (FrameSummarizer.summary_of content)) in
  let h1 := broadcastFrame frame now1 h in
  let h2 := run evs1 h1 in
  let h3 := describerSettled (FrameSummarizer.Fulfilled content) h2 in
  let h4 := run evs2 h3 in
  let h5 := runMicrotask now2 h4 in
  (currentFrame h1 = Some frame ∧ frames h1 = frames h ∧
   broadcasts h1 = broadcasts h) ∧
  (getFrame h2 = Some original ∧
   st_currentFrame (getStreamState h2) = Some original) ∧
  (currentFrame h5 = Some frame ∧
   getFrame h5 = Some summarized ∧
   st_currentFrame (getStreamState h5) = Some summarized ∧
   summary <$> getFrame h5 = Some (Some (FrameSummarizer.summary_of content)) ∧
   summary <$> st_currentFrame (getStreamState h5)
   = Some (Some (FrameSummarizer.summary_of content)) ∧
   broadcasts h5 = broadcasts h4 ++ [MsgFrame summarized now2]).
Proof.
  intros Hen Hcl Hidle Hmt Hsum Hevs1 Hevs2. cbv zeta.
  set (h1 := broadcastFrame frame now1 h).
  assert (currentFrame h1 = Some frame ∧ frames h1 = frames h ∧
          broadcasts h1 = broadcasts h ∧ awaited h1 = Some frame ∧
          microtasks h1 = [] ∧
          FrameSummarizer.isSummarizing (frameSummarizer h1) = true) as H1.
  { unfold h1, broadcastFrame, FrameSummarizer.isEnabled,
      FrameSummarizer.summarizeFrame. simpl.
    rewrite Hen, Hcl, Hidle. simpl. by rewrite Hmt. }
  destruct H1 as (C1 & F1 & B1 & A1 & M1 & S1).
  destruct (run_leaves_frames evs1 h1 Hevs1) as (C2 & F2 & A2 & S2 & M2).
  set (h2 := run evs1 h1) in *.
  set (h3 := describerSettled (FrameSummarizer.Fulfilled content) h2).
  assert (currentFrame h3 = Some frame ∧ frames h3 = frames h ∧
          microtasks h3 = [(frame, FrameSummarizer.summary_of content)]) as H3.
  { unfold h3, describerSettled. rewrite A2, A1. simpl.
    rewrite C2, C1, F2, F1, M2, M1. done. }
  destruct H3 as (C3 & F3 & M3).
  destruct (run_leaves_frames evs2 h3 Hevs2) as (C4 & F4 & A4 & S4 & M4).
  set (h4 := run evs2 h3) in *.
  split; [done|]. split.
  { unfold getFrame. simpl. rewrite C2, C1, F2, F1. done. }
  unfold runMicrotask. rewrite M4, M3. unfold broadcastFrame_then.
  rewrite Hsum. unfold getFrame. simpl.
  rewrite broadcast_currentFrame, broadcast_frames, broadcast_broadcasts.
  simpl. rewrite C4, C3, F4, F3. simpl.
  rewrite fn_lookup_insert. done.
Qed.
Lemma current_frame_served_before_and_after_summary_witness :
  let h := new (Some "key") blank_heap in
  let content := [FrameSummarizer.OtherBlock; FrameSummarizer.TextBlock "a cat"] in
  let summarized := mkFrame 0 "" "png" 0 0 (Some "a cat") in
  let h1 := broadcastFrame 7 10 h in
  let h2 := run [(BroadcastChatMessage hello_chat, 11)] h1 in
  let h3 := describerSettled (FrameSummarizer.Fulfilled content) h2 in
  let h4 := run [] h3 in
  let h5 := runMicrotask 12 h4 in
  (currentFrame h1 = Some 7%nat ∧ frames h1 = frames h ∧
   broadcasts h1 = broadcasts h) ∧
  (getFrame h2 = Some blank_frame ∧
   st_currentFrame (getStreamState h2) = Some blank_frame) ∧
  (currentFrame h5 = Some 7%nat ∧
   getFrame h5 = Some summarized ∧
   st_currentFrame (getStreamState h5) = Some summarized ∧
   summary <$> getFrame h5 = Some (Some "a cat") ∧
   summary <$> st_currentFrame (getStreamState h5) = Some (Some "a cat") ∧
   broadcasts h5 = broadcasts h4 ++ [MsgFrame summarized 12]).
Proof.
  apply (current_frame_served_before_and_after_summary
           (new (Some "key") blank_heap) 7%nat 10
           [(BroadcastChatMessage hello_chat, 11)]
           [FrameSummarizer.OtherBlock; FrameSummarizer.TextBlock "a cat"]
           [] 12); try reflexivity.
  - repeat constructor.
  - constructor.
Defined.
End CurrentFrame.

(** ** Strings: [trim] and [join] *)

Section Trim.
Import TwitchAudioCapture.
Implicit Types s a b : string.

Lemma trimEnd_length s : (String.length (JS.trimEnd s) ≤ String.length s)%nat.
Proof.
  induction s as [|c r IH]; simpl; [done|].
  destruct (JS.trimEnd r) as [|c' r'] eqn:E.
  - destruct (JS.is_whitespace c); simpl; lia.
  - simpl in *. lia.
Qed.

Lemma trimStart_length s : (String.length (JS.trimStart s) ≤ String.length s)%nat.
Proof.
  induction s as [|c r IH]; simpl; [done|].
  destruct (JS.is_whitespace c); simpl; lia.
Qed.

Lemma trimStart_ok s : starts_ok s → JS.trimStart s = s.
Proof. destruct s as [|c r]; simpl; [done|]. by intros ->. Qed.

Lemma fragment_ok s : JS.trim s = s → s ≠ "" → starts_ok s ∧ ends_ok s.
Proof.
  unfold JS.trim. intros Ht Hne.
  assert (starts_ok s) as Hs.
  { destruct s as [|c r]; [done|]. simpl.
    destruct (JS.is_whitespace c) eqn:Ec; [|done]. exfalso.
    simpl in Ht. rewrite Ec in Ht.
    pose proof (trimEnd_length (JS.trimStart r)) as L1.
    pose proof (trimStart_length r) as L2.
    rewrite Ht in L1. simpl in L1. lia. }
  split; [done|]. split; [|done].
  by rewrite (trimStart_ok s Hs) in Ht.
Qed.

Lemma append_nil_l b : "" +:+ b = b.
Proof. reflexivity. Qed.

Lemma append_cons c a b : String c a +:+ b = String c (a +:+ b).
Proof. reflexivity. Qed.

Lemma append_not_empty a b : b ≠ "" → a +:+ b ≠ "".
Proof. destruct a; [by rewrite append_nil_l|by rewrite append_cons]. Qed.

Lemma trimEnd_app a b : ends_ok b → JS.trimEnd (a +:+ b) = a +:+ b.
Proof.
  intros [Hb Hne]. induction a as [|c a IH].
  - by rewrite append_nil_l.
  - rewrite append_cons. simpl. rewrite IH.
    pose proof (append_not_empty a b Hne) as Hab.
    by destruct (a +:+ b).
Qed.

Lemma ends_ok_app a b : ends_ok b → ends_ok (a +:+ b).
Proof.
  intros Hb. split; [by apply trimEnd_app|].
  destruct Hb as [_ Hne]. by apply append_not_empty.
Qed.

Lemma starts_ok_app a b : starts_ok a → starts_ok (a +:+ b).
Proof. destruct a; [done|]. by rewrite append_cons. Qed.

Lemma join_ok (l : list string) :
  l ≠ [] → Forall TwitchAudioCapture.is_fragment l →
  starts_ok (JS.join " " l) ∧ ends_ok (JS.join " " l).
Proof.
  intros Hne Hl. induction Hl as [|f l [Hf Hfne] Hl IH]; [done|].
  destruct (fragment_ok f Hf Hfne) as [Sf Ef].
  destruct l as [|g l]; [done|].
  destruct IH as [_ E]; [done|].
  change (JS.join " " (f :: g :: l)) with (f +:+ " " +:+ JS.join " " (g :: l)).
  split.
  - by apply starts_ok_app.
  - by apply ends_ok_app, ends_ok_app.
Qed.

(** On fragments that are trimmed and not empty, [join(" ").trim()] is
    [join(" ")], and it is not empty. *)
Lemma trim_join_fragments (l : list string) :
  l ≠ [] → Forall TwitchAudioCapture.is_fragment l →
  JS.trim (JS.join " " l) = JS.join " " l ∧ JS.join " " l ≠ "".
Proof.
  intros Hne Hl. destruct (join_ok l Hne Hl) as [Hs [He Hn]].
  split; [|done]. unfold JS.trim. by rewrite trimStart_ok.
Qed.

Lemma trimEnd_idem s : JS.trimEnd (JS.trimEnd s) = JS.trimEnd s.
Proof.
  induction s as [|c r IH]; simpl; [done|].
  destruct (JS.trimEnd r) as [|c' r'] eqn:E.
  - destruct (JS.is_whitespace c) eqn:Ec; simpl; [done|]. by rewrite Ec.
  - simpl. simpl in IH. by rewrite IH.
Qed.

Lemma trimEnd_starts_ok s : starts_ok s → starts_ok (JS.trimEnd s).
Proof.
  destruct s as [|c r]; simpl; [done|]. intros Hc.
  destruct (JS.trimEnd r); [by rewrite Hc|done].
Qed.

Lemma trimStart_starts_ok s : JS.trimStart s ≠ "" → starts_ok (JS.trimStart s).
Proof.
  induction s as [|c r IH]; simpl; [done|].
  destruct (JS.is_whitespace c) eqn:Ec; [done|]. by intros _.
Qed.

(** [trim] is idempotent: what [transcribed] buffers is trimmed. *)
Lemma trim_idem s : JS.trim (JS.trim s) = JS.trim s.
Proof.
  unfold JS.trim.
  destruct (decide (JS.trimEnd (JS.trimStart s) = "")) as [E|Hne].
  - by rewrite E.
  - assert (JS.trimStart s ≠ "") as Hs by (intros E; by rewrite E in Hne).
    rewrite (trimStart_ok (JS.trimEnd (JS.trimStart s))).
    + apply trimEnd_idem.
    + by apply trimEnd_starts_ok, trimStart_starts_ok.
Qed.
End Trim.

(** ** The transcript buffer *)

Section TranscriptBuffer.
Import TwitchAudioCapture.

(** On a buffer of fragments that is not empty, [flushBuffer] empties
    the buffer, forgets the handle of the timer, and hands the handlers
    one transcript: the fragments joined by single spaces, stamped with
    the time of the flush. *)
Lemma flushBuffer_fragments now s :
  transcriptBuffer s ≠ [] →
  Forall is_fragment (transcriptBuffer s) →
  flushBuffer now s
  = set_emitted (emitted s ++ [mkTranscript (JS.join " " (transcriptBuffer s)) now])
      (set_bufferTimeout None (set_transcriptBuffer [] s)).
Proof.
  intros Hne Hfr. unfold flushBuffer.
  destruct (trim_join_fragments _ Hne Hfr) as [-> Hj].
  rewrite bool_decide_eq_false_2 by (by destruct (transcriptBuffer s)).
  rewrite bool_decide_eq_true_2; [done|].
  destruct (JS.join " " (transcriptBuffer s)); [done|simpl; lia].
Qed.

(** On any buffer, [flushBuffer] leaves the buffer empty and the handle
    of the timer forgotten, or the buffer was empty and nothing changes;
    it never disarms a timer. *)
Lemma flushBuffer_clears now s :
  transcriptBuffer (flushBuffer now s) = [] ∧
  (transcriptBuffer s ≠ [] → bufferTimeout (flushBuffer now s) = None) ∧
  timers (flushBuffer now s) = timers s.
Proof.
  unfold flushBuffer. destruct (transcriptBuffer s) as [|f l] eqn:E; simpl.
  - by rewrite E.
  - by case_bool_decide.
Qed.

Lemma isValidTranscript_fragment response :
  isValidTranscript (JS.trim response) = true → is_fragment (JS.trim response).
Proof.
  unfold isValidTranscript, is_fragment. rewrite trim_idem.
  case_bool_decide as Hlen; [done|]. intros _. split; [done|].
  intros E. by rewrite E in Hlen.
Qed.

Lemma addToBuffer_fragments text now s :
  is_fragment text →
  Forall is_fragment (transcriptBuffer s) →
  Forall is_fragment (transcriptBuffer (addToBuffer text now s)).
Proof.
  intros Ht Hs. unfold addToBuffer.
  set (s1 := if bool_decide (length (transcriptBuffer s) = 0%nat)
             then set_bufferStartTime now s else s).
  assert (transcriptBuffer s1 = transcriptBuffer s) as E1
    by (unfold s1; by case_bool_decide).
  set (s2 := set_transcriptBuffer (transcriptBuffer s1 ++ [text]) s1).
  case_bool_decide as Hage.
  - destruct (flushBuffer_clears now s2) as (-> & _). constructor.
  - unfold setTimeout. simpl.
    assert (transcriptBuffer
              match bufferTimeout s1 with
              | Some id => clearTimeout id s2
              | None => s2
              end = transcriptBuffer s1 ++ [text]) as ->
      by (by destruct (bufferTimeout s1)).
    rewrite E1. apply Forall_app. split; [done|]. constructor; [exact Ht|constructor].
Qed.

Lemma killProcess_transcriptBuffer proc now s :
  transcriptBuffer (killProcess proc now s) = transcriptBuffer s.
Proof. unfold killProcess. by destruct (_ || _). Qed.

Lemma kill_all_transcriptBuffer now l : ∀ s,
  transcriptBuffer (foldl (λ acc proc, killProcess proc now acc) s l)
  = transcriptBuffer s.
Proof.
  induction l as [|p l IH]; intros s; simpl; [done|].
  by rewrite IH, killProcess_transcriptBuffer.
Qed.

Lemma stop_resume_transcriptBuffer s :
  transcriptBuffer (stop_resume s) = transcriptBuffer s.
Proof. unfold stop_resume. simpl. by destruct (bufferTimeout s). Qed.

Lemma cleanup_transcriptBuffer proc s :
  transcriptBuffer (cleanup proc s) = transcriptBuffer s.
Proof.
  unfold cleanup, resolve_kill. destruct (_ && _); [|done].
  by rewrite stop_resume_transcriptBuffer.
Qed.

Lemma step_fragments e now s :
  Forall is_fragment (transcriptBuffer s) →
  Forall is_fragment (transcriptBuffer (step e now s)).
Proof.
  intros Hs. destruct e as [response|id|proc code signal|]; simpl.
  - unfold transcribed.
    destruct (isValidTranscript (JS.trim response)) eqn:Ev; [|done].
    apply addToBuffer_fragments; [|done]. by apply isValidTranscript_fragment.
  - destruct (timers s !! id) as [[due cb]|]; [|done].
    case_bool_decide; [|done]. destruct cb as [|proc|proc]; simpl.
    + match goal with
      | |- context [flushBuffer now ?s0] =>
          destruct (flushBuffer_clears now s0) as (-> & _)
      end. constructor.
    + by destruct (_ && _).
    + by rewrite cleanup_transcriptBuffer.
  - destruct (Node.handle _); [|done].
    case_bool_decide; [|done]. by rewrite cleanup_transcriptBuffer.
  - unfold stop. case_bool_decide; rewrite ?stop_resume_transcriptBuffer; simpl;
      by rewrite kill_all_transcriptBuffer.
Qed.

(** What the buffer holds at any time are fragments: trimmed and not
    empty. *)
Lemma run_fragments evs : ∀ s,
  Forall is_fragment (transcriptBuffer s) →
  Forall is_fragment (transcriptBuffer (run evs s)).
Proof.
  induction evs as [|[e now] evs IH]; intros s Hs; simpl; [done|].
  by apply IH, step_fragments.
Qed.

(** Two fragments inside the debounce window come out as one transcript
    when the debounce timer fires. *)
Example hello_world_flushes_once :
  let s := run [(Transcribed "hello", 0); (Transcribed "world", 200)]
               (new all_running) in
  transcriptBuffer s = ["hello"; "world"] ∧
  emitted s = [] ∧
  bufferTimeout s = Some 1%nat ∧
  timers s = {[1%nat := (1200, FlushBuffer)]} ∧
  emitted (step (TimerFires 1%nat) 1200 s) = [mkTranscript "hello world" 1200] ∧
  transcriptBuffer (step (TimerFires 1%nat) 1200 s) = [] ∧
  bufferTimeout (step (TimerFires 1%nat) 1200 s) = None ∧
  timers (step (TimerFires 1%nat) 1200 s) = ∅.
Proof. vm_compute. repeat split. Qed.
End TranscriptBuffer.

(** ** Flushing and the debounce timer *)

Section DebounceTimer.
Import TwitchAudioCapture.

(** C5, on the code.  Fragments arrive 900 ms apart, so that the
    debounce timer is re-armed each time and is pending when the fragment
    at 3100 ms forces the flush.  That flush joins the five fragments with
    single spaces into one transcript stamped 3100, empties the buffer
    and forgets the handle of the timer; but the timer itself stays
    armed, due at 3700.  A fragment that arrives at 3200 is then flushed
    by it at 3700, after 500 ms, not after the delay of the debounce.
    [stop], on the same state, disarms the timer. *)
Theorem forced_flush_leaves_debounce_timer_armed :
  let s := run steady_fragments (new all_running) in
  let s' := step (Transcribed "e") 3100 s in
  let s'' := run [(Transcribed "x", 3200); (TimerFires 3%nat, 3700)] s' in
  (transcriptBuffer s = ["a"; "b"; "c"; "d"] ∧
   bufferTimeout s = Some 3%nat ∧
   timers s = {[3%nat := (3700, FlushBuffer)]}) ∧
  (transcriptBuffer s' = [] ∧
   emitted s' = [mkTranscript "a b c d e" 3100] ∧
   bufferTimeout s' = None ∧
   timers s' = {[3%nat := (3700, FlushBuffer)]}) ∧
  emitted s'' = [mkTranscript "a b c d e" 3100; mkTranscript "x" 3700] ∧
  timers (stop 3100 s) = ∅.
Proof. vm_compute. repeat split. Qed.
End DebounceTimer.

(** ** Stopping the capture supervisors *)

Section StopSupervisors.

(** [TwitchStreamCapture.stop] leaves every process there: a process
    that had not reported its exit has not when [stop] returns. *)
Lemma stream_stop_waits_for_nothing s proc :
  Node.handle (TwitchStreamCapture.procs s proc) = true →
  TwitchStreamCapture.activeProcesses (TwitchStreamCapture.stop s) = [] ∧
  Node.has_exited (TwitchStreamCapture.procs (TwitchStreamCapture.stop s) proc)
  = false.
Proof.
  intros Hh. split; [done|]. unfold Node.has_exited. simpl.
  cut (Node.handle
         (foldl (λ (ps : nat → Node.ChildProcess) q,
                   if negb (Node.killed (ps q))
                   then <[q := Node.kill Node.SIGTERM (ps q)]> ps else ps)
                (TwitchStreamCapture.procs s)
                (TwitchStreamCapture.activeProcesses s) proc) = true);
    [by intros ->|].
  generalize (TwitchStreamCapture.procs s) Hh.
  induction (TwitchStreamCapture.activeProcesses s) as [|q l IH];
    intros ps Hps; simpl; [done|].
  apply IH. destruct (negb _); [|done].
  destruct (decide (q = proc)) as [->|Hne].
  - rewrite fn_lookup_insert. unfold Node.kill. by rewrite Hps.
  - by rewrite fn_lookup_insert_ne.
Qed.

(** In [killProcess] the terminate signal sets [killed], so the timer
    that should force the kill finds [killed] set and does nothing. *)
Lemma audio_escalation_never_kills s proc now now' :
  Node.handle (TwitchAudioCapture.procs s proc) = true →
  Node.killed (TwitchAudioCapture.procs s proc) = false →
  Node.exitCode (TwitchAudioCapture.procs s proc) = None →
  let s1 := TwitchAudioCapture.killProcess proc now s in
  Node.received (TwitchAudioCapture.procs s1 proc)
  = Node.received (TwitchAudioCapture.procs s proc) ++ [Node.SIGTERM] ∧
  TwitchAudioCapture.run_callback (TwitchAudioCapture.Escalate proc) now' s1 = s1.
Proof.
  intros Hh Hk He. cbv zeta. unfold TwitchAudioCapture.killProcess.
  rewrite Hk, He. simpl. rewrite !fn_lookup_insert.
  unfold Node.kill. rewrite Hh. simpl. done.
Qed.

(** C3, on the code.  [TwitchStreamCapture.stop], called with the
    streamlink of a capture in flight tracked and running, returns with
    the set of tracked processes empty and the process still there: it
    was sent one terminate signal, nothing waits for its exit, and
    nothing is armed to escalate.
    [TwitchAudioCapture.stop], called with streamlink and ffmpeg of a
    recording in flight tracked and running, waits; when ffmpeg exits and
    streamlink does not, the timer at 2 seconds sends no forced kill,
    because [killed] is set since the terminate signal, and the timer at
    3 seconds lets [stop] return with streamlink still there.  Called
    while a process that [recordChunk] has already signalled is still
    tracked, it returns at once. *)
Theorem stop_returns_with_a_process_still_running :
  (let s := TwitchStreamCapture.stop TwitchStreamCapture.mid_capture in
   TwitchStreamCapture.activeProcesses s = [] ∧
   TwitchStreamCapture.intervals s = [] ∧
   Node.has_exited (TwitchStreamCapture.procs s 0%nat) = false ∧
   Node.received (TwitchStreamCapture.procs s 0%nat) = [Node.SIGTERM]) ∧
  (let s1 := TwitchAudioCapture.step TwitchAudioCapture.Stop 0
               TwitchAudioCapture.mid_recording in
   let s2 := TwitchAudioCapture.run
               [ (TwitchAudioCapture.ProcExit 1%nat None (Some Node.SIGTERM), 10);
                 (TwitchAudioCapture.TimerFires 0%nat, 2000) ] s1 in
   let s3 := TwitchAudioCapture.step (TwitchAudioCapture.TimerFires 1%nat) 3000 s2 in
   (TwitchAudioCapture.stopsReturned s1 = 0%nat ∧
    TwitchAudioCapture.killPending s1 = [0%nat; 1%nat]) ∧
   (TwitchAudioCapture.stopsReturned s2 = 0%nat ∧
    TwitchAudioCapture.killPending s2 = [0%nat] ∧
    Node.received (TwitchAudioCapture.procs s2 0%nat) = [Node.SIGTERM]) ∧
   (TwitchAudioCapture.stopsReturned s3 = 1%nat ∧
    TwitchAudioCapture.activeProcesses s3 = [] ∧
    Node.has_exited (TwitchAudioCapture.procs s3 0%nat) = false ∧
    Node.received (TwitchAudioCapture.procs s3 0%nat) = [Node.SIGTERM])) ∧
  (let s := TwitchAudioCapture.step TwitchAudioCapture.Stop 0
              TwitchAudioCapture.after_recording in
   TwitchAudioCapture.stopsReturned s = 1%nat ∧
   TwitchAudioCapture.activeProcesses s = [] ∧
   Node.has_exited (TwitchAudioCapture.procs s 0%nat) = false).
Proof. vm_compute. repeat split. Qed.
End StopSupervisors.

(** ** The registry *)

Section Registry.
Import VisionBroadcaster.

Lemma ws_send_state w m socks w' :
  ws_state (ws_send w m socks) w' = ws_state socks w'.
Proof.
  unfold ws_state, ws_send.
  destruct (decide (w = w')) as [->|Hne].
  - rewrite list_lookup_alter_eq. destruct (socks !! w') as [s|]; [|done].
    simpl. by destruct (is_open s).
  - by rewrite list_lookup_alter_ne.
Qed.

Lemma ws_open_state socks w :
  ws_open socks w = true ↔ ws_state socks w = Some OPEN.
Proof.
  unfold ws_open, ws_state, is_open. destruct (socks !! w) as [s|]; simpl.
  - rewrite bool_decide_eq_true. split; [by intros ->|by intros [= ->]].
  - split; discriminate.
Qed.

Lemma ws_open_alt socks w :
  ws_open socks w = bool_decide (ws_state socks w = Some OPEN).
Proof.
  unfold ws_open, ws_state, is_open. destruct (socks !! w) as [s|]; simpl; [|done].
  destruct (readyState s); done.
Qed.

Lemma ws_open_same socks socks' w :
  ws_state socks' w = ws_state socks w → ws_open socks' w = ws_open socks w.
Proof. intros E. by rewrite !ws_open_alt, E. Qed.

(** A pass changes the [readyState] of no socket. *)
Lemma broadcast_loop_state m w es : ∀ h,
  ws_state (sockets (broadcast_loop m es h)) w = ws_state (sockets h) w.
Proof.
  induction es as [|[k c] es IH]; intros h; simpl; [done|].
  destruct (ws_open _ _); rewrite IH; simpl; [|done].
  apply ws_send_state.
Qed.

Lemma broadcast_state m w h :
  ws_state (sockets (broadcast m h)) w = ws_state (sockets h) w.
Proof. unfold broadcast. by rewrite broadcast_loop_state. Qed.

Lemma dead_keys_same socks socks' es :
  (∀ w, ws_state socks' w = ws_state socks w) →
  dead_keys socks' es = dead_keys socks es.
Proof.
  intros E. unfold dead_keys. f_equal. apply list_filter_iff.
  intros e. unfold entry_open. by rewrite (ws_open_same socks socks').
Qed.

(** What a pass over [es] leaves of the registry. *)
Lemma broadcast_loop_registry m es : ∀ h,
  connectedClaws (broadcast_loop m es h)
  = filter (λ e, e.1 ∉ dead_keys (sockets h) es) (connectedClaws h).
Proof.
  induction es as [|[k c] es IH]; intros h; simpl.
  - symmetry. apply filter_all. intros e _. apply not_elem_of_nil.
  - assert (entry_open (sockets h) (k, c) = ws_open (sockets h) (ws c)) as Ee
      by done.
    destruct (ws_open (sockets h) (ws c)) eqn:Eo; rewrite IH; simpl.
    + rewrite (dead_keys_same (sockets h)) by (intros; apply ws_send_state).
      apply list_filter_iff. intros e. unfold dead_keys.
      rewrite filter_cons, Ee. by rewrite decide_False by done.
    + unfold JS.Map_delete. rewrite list_filter_filter.
      apply list_filter_iff. intros e. unfold dead_keys.
      rewrite (filter_cons _ (k, c)), Ee. rewrite decide_True by done.
      csimpl. rewrite not_elem_of_cons. tauto.
Qed.
Lemma filter_keys_NoDup {V} (P : string * V → Prop) `{!∀ x, Decision (P x)}
    (l : list (string * V)) :
  NoDup l.*1 → NoDup (filter P l).*1.
Proof. apply NoDup_fmap_filter. Qed.

Lemma Map_set_keys_elem {V} k (v : V) m x :
  x ∈ (JS.Map_set k v m).*1 → x = k ∨ x ∈ m.*1.
Proof.
  induction m as [|[k' v'] m IH]; csimpl.
  - rewrite list_elem_of_singleton. by left.
  - case_bool_decide as Hk; csimpl; rewrite !elem_of_cons.
    + subst k'. intros [->|Hx]; [by left|by right; right].
    + intros [->|Hx]; [by right; left|].
      destruct (IH Hx) as [->|Hm]; [by left|by right; right].
Qed.

Lemma Map_set_keys_NoDup {V} k (v : V) m :
  NoDup m.*1 → NoDup (JS.Map_set k v m).*1.
Proof.
  induction m as [|[k' v'] m IH]; csimpl.
  - intros _. apply NoDup_singleton.
  - intros Hnd. apply NoDup_cons in Hnd as [Hin Hnd].
    case_bool_decide as Hk; csimpl; apply NoDup_cons.
    + by subst k'.
    + split; [|by apply IH]. intros Hx.
      destruct (Map_set_keys_elem _ _ _ _ Hx) as [->|Hm]; done.
Qed.

Lemma NoDup_keys_inj {V} (l : list (string * V)) e e' :
  NoDup l.*1 → e ∈ l → e' ∈ l → e.1 = e'.1 → e = e'.
Proof.
  induction l as [|a l IH]; [by intros _ H; inversion H|].
  csimpl. intros Hnd He He' Heq.
  apply NoDup_cons in Hnd as [Hin Hnd].
  apply elem_of_cons in He as [->|He]; apply elem_of_cons in He' as [->|He'];
    try done.
  - destruct Hin. rewrite Heq. by apply list_elem_of_fmap_2.
  - destruct Hin. rewrite <- Heq. by apply list_elem_of_fmap_2.
  - by apply IH.
Qed.

(** After a pass every entry of the registry has an open socket. *)
Lemma broadcast_registry_open m h :
  Forall (λ e, entry_open (sockets (broadcast m h)) e = true)
         (connectedClaws (broadcast m h)).
Proof.
  unfold broadcast. rewrite broadcast_loop_registry. simpl.
  apply Forall_forall. intros e He.
  apply list_elem_of_filter in He as [Hk He].
  unfold entry_open.
  rewrite (ws_open_same (sockets h)) by (rewrite broadcast_loop_state; done).
  destruct (ws_open (sockets h) (ws e.2)) eqn:Eo; [done|].
  destruct Hk. unfold dead_keys. apply list_elem_of_fmap_2.
  apply list_elem_of_filter. split; [exact Eo|done].
Qed.

(** With one entry for each id, a pass keeps exactly the entries whose
    socket is open. *)
Lemma broadcast_registry_filter m h :
  NoDup (JS.Map_keys (connectedClaws h)) →
  connectedClaws (broadcast m h)
  = filter (λ e, entry_open (sockets h) e = true) (connectedClaws h).
Proof.
  intros Hnd. unfold broadcast. rewrite broadcast_loop_registry. simpl.
  apply filter_iff_in. intros e He. split.
  - intros Hk. destruct (entry_open (sockets h) e) eqn:Eo; [done|].
    destruct Hk. unfold dead_keys. apply list_elem_of_fmap_2.
    apply list_elem_of_filter. by split.
  - intros Eo Hk. unfold dead_keys in Hk.
    apply list_elem_of_fmap in Hk as (e' & Heq & He').
    apply list_elem_of_filter in He' as [Eo' He'].
    assert (e = e') as -> by (by apply (NoDup_keys_inj (connectedClaws h))).
    congruence.
Qed.

Lemma entry_open_not_closed socks e :
  entry_open socks e = true → entry_not_closed socks e.
Proof. intros H. left. by apply ws_open_state. Qed.

Lemma broadcast_inv m h :
  NoDup (JS.Map_keys (connectedClaws h)) → registry_inv (broadcast m h).
Proof.
  intros Hnd. split.
  - unfold broadcast. rewrite broadcast_loop_registry. simpl.
    by apply filter_keys_NoDup.
  - eapply Forall_impl; [apply broadcast_registry_open|].
    intros e. apply entry_open_not_closed.
Qed.
Lemma broadcast_inv_of m h h1 :
  connectedClaws h1 = connectedClaws h →
  registry_inv h → registry_inv (broadcast m h1).
Proof. intros E [Hnd _]. apply broadcast_inv. by rewrite E. Qed.

Lemma set_readyState_state w r socks w' :
  ws_state (set_readyState w r socks) w'
  = if decide (w = w') then (λ _, r) <$> ws_state socks w'
    else ws_state socks w'.
Proof.
  unfold ws_state, set_readyState. destruct (decide (w = w')) as [->|Hne].
  - rewrite list_lookup_alter_eq. by destruct (socks !! w').
  - by rewrite list_lookup_alter_ne.
Qed.

Lemma ws_state_app socks s w :
  is_Some (ws_state socks w) → ws_state (socks ++ [s]) w = ws_state socks w.
Proof.
  unfold ws_state. intros [r Hr].
  destruct (socks !! w) as [s0|] eqn:E; [|done].
  by rewrite (lookup_app_l_Some _ _ _ _ E).
Qed.

Lemma entry_not_closed_same socks socks' e :
  ws_state socks' (ws e.2) = ws_state socks (ws e.2) →
  entry_not_closed socks e → entry_not_closed socks' e.
Proof. unfold entry_not_closed. by intros ->. Qed.

Lemma find_none_unbound w h :
  List.find (λ e, bool_decide (ws e.2 = w)) (connectedClaws h) = None →
  unbound w h.
Proof.
  intros Hf. unfold unbound. apply Forall_forall. intros e He Hw.
  apply list_elem_of_In in He.
  pose proof (find_none _ _ Hf e He) as Hb. simpl in Hb.
  by rewrite bool_decide_eq_true_2 in Hb.
Qed.

Lemma handleClawMessage_inv w raw now h :
  ws_state (sockets h) w = Some OPEN ∨ ws_state (sockets h) w = Some CLOSING →
  registry_inv h → registry_inv (handleClawMessage w raw now h).
Proof.
  intros Hw Hinv. unfold handleClawMessage.
  destruct raw as [message|]; [|done].
  destruct (String.eqb (in_type message) "register").
  { destruct (in_clawId message) as [cid|]; [|done].
    destruct (in_clawName message) as [cname|]; [|done].
    destruct (negb _ || negb _); [done|].
    unfold broadcastState. apply broadcast_inv. simpl.
    apply Map_set_keys_NoDup, Hinv. }
  destruct (_ || _); [done|].
  destruct (String.eqb (in_type message) "ping"); [|done].
  destruct Hinv as [Hnd Hnc]. split; simpl.
  - unfold JS.Map_keys. by rewrite touch_keys.
  - apply (touch_Forall_ws
             (λ x, ws_state (ws_send w (MsgPong now) (sockets h)) x = Some OPEN
                   ∨ ws_state (ws_send w (MsgPong now) (sockets h)) x = Some CLOSING)).
    eapply Forall_impl; [exact Hnc|]. intros e He.
    unfold entry_not_closed in He. by rewrite !ws_send_state.
Qed.

Lemma handleClawDisconnect_inv w now h :
  NoDup (JS.Map_keys (connectedClaws h)) →
  (unbound w h → Forall (entry_not_closed (sockets h)) (connectedClaws h)) →
  registry_inv (handleClawDisconnect w now h).
Proof.
  intros Hnd Hnc. unfold handleClawDisconnect.
  destruct (List.find _ _) as [[k c]|] eqn:Hf.
  - unfold broadcastState. apply broadcast_inv. simpl.
    by apply filter_keys_NoDup.
  - split; [done|]. by apply Hnc, find_none_unbound.
Qed.

(** The registry keeps its invariant through every turn of the event
    loop. *)
Lemma step_registry_inv e now h :
  registry_inv h → registry_inv (step e now h).
Proof.
  intros Hinv. pose proof Hinv as [Hnd Hnc].
  destruct e as [ip|w raw|w|w|b|f|c|tr|o|]; cbn [step].
  - (* Connection *)
    split; [done|]. unfold onConnection. simpl.
    eapply Forall_impl; [exact Hnc|]. intros e He.
    eapply entry_not_closed_same; [|exact He].
    rewrite ws_send_state. apply ws_state_app.
    destruct He as [-> | ->]; by eexists.
  - (* Message *)
    destruct (ws_state (sockets h) w) as [[]|] eqn:Ew; try done;
      apply handleClawMessage_inv; auto.
  - (* Closing *)
    destruct (ws_state (sockets h) w) as [[]|] eqn:Ew; try done.
    split; [done|]. simpl.
    eapply Forall_impl; [exact Hnc|]. intros e He.
    unfold entry_not_closed. rewrite set_readyState_state.
    destruct (decide (w = ws e.2)) as [<-|Hne]; [|done].
    rewrite Ew. by right.
  - (* Close *)
    assert (registry_inv
              (handleClawDisconnect w now
                 (set_sockets (set_readyState w CLOSED (sockets h)) h))) as Hc.
    { apply handleClawDisconnect_inv; [done|]. simpl. intros Hu.
      apply Forall_forall. intros e He.
      unfold entry_not_closed. rewrite set_readyState_state.
      rewrite decide_False.
      - by apply (proj1 (Forall_forall _ _) Hnc).
      - intros Heq. by apply (proj1 (Forall_forall _ _) Hu e He). }
    destruct (ws_state (sockets h) w) as [[]|]; done.
  - (* SetStreamLive *)
    unfold setStreamLive, broadcastState.
    apply (broadcast_inv_of _ h); [|done].
    by destruct (_ && _); [|destruct (_ && _)].
  - (* BroadcastFrame *)
    unfold broadcastFrame. simpl.
    destruct (FrameSummarizer.isEnabled _).
    + by destruct (FrameSummarizer.summarizeFrame _ _) as [s' []].
    + by apply (broadcast_inv_of _ h).
  - (* BroadcastChatMessage *)
    unfold broadcastChatMessage.
    apply (broadcast_inv_of _ h); [|done]. by case_bool_decide.
  - (* BroadcastTranscript *)
    by apply (broadcast_inv_of _ h).
  - (* DescriberSettled *)
    unfold describerSettled. destruct (awaited h); [|done].
    by destruct (FrameSummarizer.summarizeFrame_resume _ _).
  - (* Microtask *)
    unfold runMicrotask. destruct (microtasks h) as [|[f v] rest]; [done|].
    unfold broadcastFrame_then.
    apply (broadcast_inv_of _ h); [|done]. by destruct (JS.truthy_string _).
Qed.

Lemma run_registry_inv evs : ∀ h,
  registry_inv h → registry_inv (run evs h).
Proof.
  induction evs as [|[e now] evs IH]; intros h Hh; simpl; [done|].
  by apply IH, step_registry_inv.
Qed.

Lemma new_registry_inv apiKey heap : registry_inv (new apiKey heap).
Proof. split; simpl; constructor. Qed.
Lemma open_registered_length h :
  (length (open_registered h) ≤ length (getConnectedClaws h))%nat.
Proof.
  unfold getConnectedClaws, JS.Map_values. rewrite !length_fmap.
  rewrite <- (length_fmap (λ e, ws e.2) (connectedClaws h)).
  apply submseteq_length, NoDup_submseteq.
  - apply NoDup_filter, NoDup_seq.
  - intros w Hw. unfold open_registered in Hw.
    apply list_elem_of_filter in Hw as [[_ Hw] _]. exact Hw.
Qed.

(** When no connection holds two entries, the participants after a pass
    are as many as the open registered connections. *)
Lemma one_entry_per_connection_count m h :
  NoDup ((λ e, ws e.2) <$> connectedClaws h) →
  let h' := broadcast m h in
  length (getConnectedClaws h') = length (open_registered h').
Proof.
  intros Hnd. cbv zeta.
  unfold getConnectedClaws, JS.Map_values. rewrite !length_fmap.
  rewrite <- (length_fmap (λ e, ws e.2) (connectedClaws (broadcast m h))).
  apply Permutation_length, NoDup_Permutation.
  - unfold broadcast. rewrite broadcast_loop_registry. simpl.
    by apply NoDup_fmap_filter.
  - apply NoDup_filter, NoDup_seq.
  - intros w. unfold open_registered. rewrite list_elem_of_filter. split.
    + intros Hw. split; [split; [|done]|].
      * apply list_elem_of_fmap in Hw as (e & -> & He).
        by apply (proj1 (Forall_forall _ _) (broadcast_registry_open m h)).
      * apply list_elem_of_fmap in Hw as (e & -> & He).
        pose proof (proj1 (Forall_forall _ _) (broadcast_registry_open m h) e He)
          as Ho.
        unfold entry_open, ws_open in Ho.
        destruct (sockets (broadcast m h) !! ws e.2) eqn:E; [|done].
        apply elem_of_seq. split; [lia|]. simpl. by eapply lookup_lt_Some.
    + by intros [[_ Hw] _].
Qed.

(** C2, as the code has it.  Whatever a new hub goes through: no two
    entries of the registry have the same id; no entry is bound to a
    connection that has emitted its close; a fan-out pass changes the
    state of no connection, removes the entries whose connection is not
    open and keeps the others, so that after it every entry has an open
    connection; and the open registered connections are never more than
    the participants. *)
Theorem registry_pruned_by_fan_out apiKey heap evs m :
  let h := run evs (new apiKey heap) in
  let h' := broadcast m h in
  NoDup (JS.Map_keys (connectedClaws h)) ∧
  Forall (entry_not_closed (sockets h)) (connectedClaws h) ∧
  (∀ w, ws_state (sockets h') w = ws_state (sockets h) w) ∧
  connectedClaws h'
  = filter (λ e, entry_open (sockets h) e = true) (connectedClaws h) ∧
  Forall (λ e, entry_open (sockets h') e = true) (connectedClaws h') ∧
  (length (open_registered h) ≤ length (getConnectedClaws h))%nat.
Proof.
  cbv zeta.
  destruct (run_registry_inv evs _ (new_registry_inv apiKey heap)) as [Hnd Hnc].
  split; [done|]. split; [done|].
  split; [intros w; apply broadcast_state|].
  split; [by apply broadcast_registry_filter|].
  split; [apply broadcast_registry_open|apply open_registered_length].
Qed.

(** C2, as the design document has it, fails when one connection
    registers under two ids: two participants, one connection. *)
Lemma registry_counts_open_connections_fails :
  length (getConnectedClaws hub_two_ids) = 2%nat ∧
  length (sockets hub_two_ids) = 1%nat ∧
  open_registered hub_two_ids = [0%nat] ∧
  ¬ registry_counts_open_connections hub_two_ids.
Proof.
  assert (length (getConnectedClaws hub_two_ids) = 2%nat) as E1
    by (vm_compute; reflexivity).
  assert (open_registered hub_two_ids = [0%nat]) as E2
    by (vm_compute; reflexivity).
  split; [exact E1|]. split; [vm_compute; reflexivity|]. split; [exact E2|].
  unfold registry_counts_open_connections. rewrite E1, E2. discriminate.
Qed.
End Registry.

(** ** A socket that never registers, at any time *)

Section UnregisteredSocket.
Import VisionBroadcaster.

Lemma registry_inv_wf h : registry_inv h → registry_wf h.
Proof.
  intros [_ Hnc]. unfold registry_wf.
  eapply Forall_impl; [exact Hnc|]. intros e He.
  assert (is_Some (sockets h !! ws e.2)) as [s Hs].
  { unfold entry_not_closed, ws_state in He.
    destruct (sockets h !! ws e.2); [by eexists|]. by destruct He. }
  by eapply lookup_lt_Some.
Qed.

(** C9.  Take a hub after any history, and a socket that connects to it
    then: it receives the state once, at connection.  As long as it stays
    open and sends no registration that the hub accepts, nothing the hub
    goes through (frames, chat, transcripts, liveness changes, other
    subscribers coming and going) puts anything else on it but the
    answers to its own pings: it is in no entry of the registry, and
    fan-out only writes to sockets of the registry. *)
Theorem unregistered_socket_gets_state_once_then_pongs
    apiKey heap history ip now0 evs :
  let h := run history (new apiKey heap) in
  let w := length (sockets h) in
  Forall (λ en, registers w en.1 = false ∧ closes w en.1 = false) evs →
  let h' := run evs (onConnection ip now0 h) in
  ws_open (sockets h') w = true ∧
  unbound w h' ∧
  outbox h' w = MsgState (getStreamState h) now0 :: (MsgPong <$> pings_of w evs).
Proof.
  intros h w Hevs.
  apply unregistered_socket_outbox; [|exact Hevs].
  apply registry_inv_wf, run_registry_inv, new_registry_inv.
Qed.

Lemma unregistered_socket_gets_state_once_then_pongs_witness :
  let h := new None blank_heap in
  let h' := run around_unregistered (onConnection "10.0.0.5" 1 h) in
  ws_open (sockets h') 0 = true ∧
  unbound 0 h' ∧
  outbox h' 0 = [MsgState (getStreamState h) 1; MsgPong 6].
Proof.
  apply (unregistered_socket_gets_state_once_then_pongs
           None blank_heap [] "10.0.0.5" 1 around_unregistered).
  repeat constructor.
Defined.
End UnregisteredSocket.

(** ** Fan-out: what a pass delivers *)

Section Delivery.
Import VisionBroadcaster.

Lemma bound_count_cons w k c es :
  bound_count w ((k, c) :: es)
  = (if decide (ws c = w) then S (bound_count w es) else bound_count w es).
Proof.
unfold bound_count. rewrite filter_cons. simpl.
destruct (decide (ws c = w)); done.
Qed.

Lemma broadcast_loop_outbox m w es : ∀ h,
  outbox (broadcast_loop m es h) w
  = outbox h w
    ++ (if ws_open (sockets h) w then replicate (bound_count w es) m else []).
Proof.
induction es as [|[k c] es IH]; intros h.
- simpl. destruct (ws_open _ _); by rewrite app_nil_r.
- cbn [broadcast_loop]. rewrite bound_count_cons.
  destruct (ws_open (sockets h) (ws c)) eqn:Hopen.
  + rewrite IH. cbn [sockets set_sockets].
    rewrite (ws_open_same (sockets h) (ws_send (ws c) m (sockets h))) by apply ws_send_state.
    destruct (decide (ws c = w)) as [Heq|Hne].
    * rewrite Heq in *. rewrite Hopen. unfold outbox. cbn [sockets set_sockets].
      destruct (ws_send_open w m (sockets h) Hopen) as (s & -> & _ & ->).
      simpl. by rewrite <- app_assoc.
    * unfold outbox. cbn [sockets set_sockets].
      by rewrite ws_send_lookup_ne.
  + rewrite IH. unfold outbox. cbn [sockets set_connectedClaws].
    destruct (decide (ws c = w)) as [Heq|Hne]; [|done].
    rewrite Heq in Hopen. by rewrite Hopen.
Qed.

Lemma broadcast_outbox m h w :
  outbox (broadcast m h) w
  = outbox h w
    ++ (if ws_open (sockets h) w
        then replicate (bound_count w (connectedClaws h)) m else []).
Proof. unfold broadcast. by rewrite broadcast_loop_outbox. Qed.

(** X1 -- [broadcast]: a pass appends the message to what an open socket
    has been sent once for every registry entry bound to that socket, and
    leaves every other socket's traffic as it is.  A socket registered
    under two ids is sent every broadcast twice. *)
Theorem broadcast_delivers_once_per_entry m h w :
  outbox (broadcast m h) w
  = outbox h w
    ++ (if ws_open (sockets h) w
        then replicate (bound_count w (connectedClaws h)) m else []).
Proof. apply broadcast_outbox. Qed.

End Delivery.

(** ** Registration *)

Section Registration.
Import VisionBroadcaster.

Lemma find_filter {A} (p : A → bool) (P : A → Prop) `{!∀ x, Decision (P x)} l x :
  List.find p l = Some x → P x → List.find p (filter P l) = Some x.
Proof.
induction l as [|y l IH]; [done|].
simpl. rewrite filter_cons. destruct (p y) eqn:Hp.
- intros [= ->] HP. rewrite decide_True by done. simpl. by rewrite Hp.
- intros Hfind HP. destruct (decide (P y)); [simpl; rewrite Hp|]; by apply IH.
Qed.

Lemma find_Map_set {V} k (v : V) (m : JS.Map V) :
  List.find (λ e, bool_decide (e.1 = k)) (JS.Map_set k v m) = Some (k, v).
Proof.
induction m as [|[k' v'] m IH]; simpl.
- by rewrite bool_decide_eq_true_2.
- case_bool_decide as Hk; simpl.
  + by rewrite bool_decide_eq_true_2.
  + by rewrite bool_decide_eq_false_2.
Qed.

Lemma Map_set_elem {V} k (v : V) (m : JS.Map V) : (k, v) ∈ JS.Map_set k v m.
Proof.
induction m as [|[k' v'] m IH]; simpl.
- apply list_elem_of_here.
- case_bool_decide; [apply list_elem_of_here | by apply list_elem_of_further].
Qed.

Lemma bound_count_pos w e es :
  e ∈ es → ws e.2 = w → (0 < bound_count w es)%nat.
Proof.
intros Hin Hw. unfold bound_count.
assert (e ∈ filter (λ e, ws e.2 = w) es) as Hf by by apply list_elem_of_filter.
destruct (filter _ es); [by apply elem_of_nil in Hf | simpl; lia].
Qed.

Lemma last_replicate {A} (l : list A) n x :
  (0 < n)%nat → last (l ++ replicate n x) = Some x.
Proof.
intros Hn. destruct n as [|n]; [lia|].
replace (S n) with (n + 1)%nat by lia.
rewrite replicate_add. simpl. rewrite app_assoc. apply last_snoc.
Qed.

Lemma register_on_open_socket h w clawId clawName sid content now :
  NoDup (JS.Map_keys (connectedClaws h)) →
  ws_open (sockets h) w = true →
  JS.truthy_string clawId = true →
  JS.truthy_string clawName = true →
  let ip := JS.nullish (pendingConnections h !! w) "unknown" in
  let p := mkParticipant clawId clawName (JS.nullish sid "") now now
                         (Some ip) (is_local ip) in
  let h' :=
    step (Message w (Some (mkInbound "register" (Some clawId) (Some clawName)
                                     sid content))) now h in
  registry_get clawId h' = Some (mkClaw w p) ∧
  pendingConnections h' !! w = None ∧
  ∃ st, broadcasts h' = broadcasts h ++ [MsgState st now] ∧
        p ∈ participants st ∧
        last (outbox h' w) = Some (MsgState st now).
Proof.
intros Hnd Hopen Hid Hname ip p h'.
pose proof Hopen as Hstate. apply ws_open_state in Hstate.
subst h'. cbn [step]. rewrite Hstate.
unfold handleClawMessage. cbn [in_type in_clawId in_clawName in_sessionId].
rewrite String.eqb_refl, Hid, Hname. cbn [negb orb].
fold ip. fold p.
set (h2 := set_connectedClaws _ _).
assert ((clawId, mkClaw w p) ∈ connectedClaws h2) as Hin by apply Map_set_elem.
unfold broadcastState. repeat split.
- unfold registry_get. rewrite broadcast_registry_filter.
  + rewrite (find_filter _ _ _ (clawId, mkClaw w p)); [done|apply find_Map_set|].
    unfold entry_open; simpl. done.
  + by apply Map_set_keys_NoDup.
- rewrite broadcast_pendingConnections. simpl. apply lookup_delete_eq.
- eexists. split; [by rewrite broadcast_broadcasts|]. split.
  + unfold getStreamState; cbn [participants]. unfold JS.Map_values.
    apply list_elem_of_fmap. exists (mkClaw w p). split; [done|].
    apply list_elem_of_fmap. by exists (clawId, mkClaw w p).
  + rewrite broadcast_outbox.
    replace (ws_open (sockets h2) w) with true by done.
    apply last_replicate.
    by apply (bound_count_pos w (clawId, mkClaw w p)).
Qed.

(** X2 -- [handleClawMessage], case ["register"]: on a hub reached from a
    new one, a registration with a [clawId] and a [clawName] that comes in
    on an open socket binds the id to that socket, with a participant made
    of the message, the time, and the address kept for the socket at
    connect time and its classification; the pending address of the socket
    is dropped; one [state] message that lists the newcomer is broadcast,
    and it is the last thing the newcomer's socket is sent. *)
Theorem register_binds_and_announces
    apiKey heap evs w clawId clawName sid content now :
  let h := run evs (new apiKey heap) in
  ws_open (sockets h) w = true →
  JS.truthy_string clawId = true →
  JS.truthy_string clawName = true →
  let ip := JS.nullish (pendingConnections h !! w) "unknown" in
  let p := mkParticipant clawId clawName (JS.nullish sid "") now now
                         (Some ip) (is_local ip) in
  let h' :=
    step (Message w (Some (mkInbound "register" (Some clawId) (Some clawName)
                                     sid content))) now h in
  registry_get clawId h' = Some (mkClaw w p) ∧
  pendingConnections h' !! w = None ∧
  ∃ st, broadcasts h' = broadcasts h ++ [MsgState st now] ∧
        p ∈ participants st ∧
        last (outbox h' w) = Some (MsgState st now).
Proof.
intros h. apply register_on_open_socket.
apply run_registry_inv, new_registry_inv.
Qed.

Lemma register_binds_and_announces_witness :
  let h := run [(Connection "192.168.1.5", 1)] (new None blank_heap) in
  let p := mkParticipant "claw-1" "Claw" "" 2 2 (Some "192.168.1.5") true in
  let h' := step (Message 0%nat (register_msg "claw-1" "Claw")) 2 h in
  registry_get "claw-1" h' = Some (mkClaw 0%nat p) ∧
  pendingConnections h' !! 0%nat = None ∧
  ∃ st, broadcasts h' = broadcasts h ++ [MsgState st 2] ∧
        p ∈ participants st ∧
        last (outbox h' 0%nat) = Some (MsgState st 2).
Proof.
apply (register_binds_and_announces None blank_heap
         [(Connection "192.168.1.5", 1)] 0%nat "claw-1" "Claw" None None 2);
  reflexivity.
Defined.

(** What a turn of the event loop does to the state of a socket of the
    store. *)
Lemma step_ws_state e now h w r :
  ws_state (sockets h) w = Some r →
  ws_state (sockets (step e now h)) w
  = Some match e with
         | Closing w' =>
             if decide (w' = w) then match r with OPEN => CLOSING | _ => r end
             else r
         | Close w' =>
             if decide (w' = w)
             then match r with OPEN | CLOSING => CLOSED | _ => r end
             else r
         | _ => r
         end.
Proof.
intros Hr. destruct e as [ip|w' raw|w'|w'| | | | | |].
- unfold step, onConnection. cbn [sockets set_sockets set_pendingConnections
    set_totalConnectionsEver set_connectionsByIP].
  rewrite ws_send_state, ws_state_app; by rewrite ?Hr.
- unfold step, handleClawMessage, broadcastState. split_matches;
    cbn [sockets set_sockets set_handled set_connectedClaws];
    rewrite ?broadcast_state, ?ws_send_state; done.
- unfold step. destruct (decide (w' = w)) as [->|Hne].
  + rewrite Hr. destruct r; try done;
      cbn [sockets set_sockets]; rewrite set_readyState_state, decide_True by done;
      by rewrite Hr.
  + split_matches; try done. cbn [sockets set_sockets].
    rewrite set_readyState_state, decide_False by done. done.
- unfold step, handleClawDisconnect, broadcastState.
  destruct (decide (w' = w)) as [->|Hne].
  + rewrite Hr. destruct r; try done; split_matches;
      rewrite ?broadcast_state; cbn [sockets set_sockets set_connectedClaws];
      rewrite set_readyState_state, decide_True by done; by rewrite Hr.
  + split_matches; try done; rewrite ?broadcast_state;
      cbn [sockets set_sockets set_connectedClaws];
      rewrite set_readyState_state, decide_False by done; done.
- unfold step, setStreamLive, broadcastState. by rewrite broadcast_state; split_matches.
- unfold step, broadcastFrame. split_matches; rewrite ?broadcast_state; done.
- unfold step, broadcastChatMessage. rewrite broadcast_state. by split_matches.
- unfold step, broadcastTranscript. by rewrite broadcast_state.
- unfold step, describerSettled. by split_matches.
- unfold step, runMicrotask, broadcastFrame_then. split_matches;
    rewrite ?broadcast_state; done.
Qed.


Lemma ws_state_lt socks w : is_Some (ws_state socks w) → (w < length socks)%nat.
Proof.
unfold ws_state. intros [r Hr]. apply lookup_lt_is_Some.
destruct (socks !! w); [by eexists | done].
Qed.

Lemma step_pending_none e now h w :
  is_Some (ws_state (sockets h) w) →
  pendingConnections h !! w = None →
  pendingConnections (step e now h) !! w = None.
Proof.
intros Hw Hnone. apply ws_state_lt in Hw.
destruct e; hub_frame; simpl;
  rewrite ?lookup_insert_ne, ?lookup_delete_None by lia; auto.
Qed.

Lemma run_pending_none evs : ∀ h w,
  is_Some (ws_state (sockets h) w) →
  pendingConnections h !! w = None →
  pendingConnections (run evs h) !! w = None.
Proof.
induction evs as [|[e now] evs IH]; intros h w Hw Hnone; [done|].
cbn [run]. apply IH.
- destruct Hw as [r Hr]. erewrite step_ws_state by done. by eexists.
- by apply step_pending_none.
Qed.

(** X3 -- the connection handler and [handleClawMessage], case
    ["register"]: the address of a connection is kept until the first
    registration accepted from its socket and is dropped then.  Whatever
    happens in between, a later registration accepted from the same
    socket records the address ["unknown"] and counts the participant as
    foreign, also for a connection from a local address. *)
Theorem second_registration_loses_address
    apiKey heap evs w id1 name1 sid1 content1 now1 between
    id2 name2 sid2 content2 now2 :
  let h := run evs (new apiKey heap) in
  let first :=
    Message w (Some (mkInbound "register" (Some id1) (Some name1) sid1 content1)) in
  let second :=
    Message w (Some (mkInbound "register" (Some id2) (Some name2) sid2 content2)) in
  ws_open (sockets h) w = true →
  JS.truthy_string id1 = true → JS.truthy_string name1 = true →
  JS.truthy_string id2 = true → JS.truthy_string name2 = true →
  let h1 := run between (step first now1 h) in
  ws_open (sockets h1) w = true →
  let h2 := step second now2 h1 in
  registry_get id2 h2
  = Some (mkClaw w (mkParticipant id2 name2 (JS.nullish sid2 "") now2 now2
                                  (Some "unknown") false)).
Proof.
intros h first second Hopen Hid1 Hname1 Hid2 Hname2 h1 Hopen1 h2.
assert (registry_inv h) as Hinv by apply run_registry_inv, new_registry_inv.
destruct (register_on_open_socket h w id1 name1 sid1 content1 now1
            (proj1 Hinv) Hopen Hid1 Hname1) as (_ & Hnone & _).
fold first in Hnone.
assert (registry_inv h1) as Hinv1
  by by apply run_registry_inv, step_registry_inv.
assert (pendingConnections h1 !! w = None) as Hnone1.
{ apply run_pending_none; [|done].
  apply ws_open_state in Hopen. erewrite step_ws_state by done. by eexists. }
destruct (register_on_open_socket h1 w id2 name2 sid2 content2 now2
            (proj1 Hinv1) Hopen1 Hid2 Hname2) as (Hget & _).
fold second in Hget. fold h2 in Hget. by rewrite Hnone1 in Hget.
Qed.

Lemma second_registration_loses_address_witness :
  let h := run [(Connection "192.168.1.5", 1)] (new None blank_heap) in
  let h1 :=
    run [(BroadcastChatMessage hello_chat, 3)]
        (step (Message 0%nat (register_msg "claw-1" "Claw")) 2 h) in
  let h2 := step (Message 0%nat (register_msg "claw-2" "Claw")) 4 h1 in
  registry_get "claw-2" h2
  = Some (mkClaw 0%nat (mkParticipant "claw-2" "Claw" "" 4 4 (Some "unknown") false)).
Proof.
apply (second_registration_loses_address None blank_heap
         [(Connection "192.168.1.5", 1)] 0%nat "claw-1" "Claw" None None 2
         [(BroadcastChatMessage hello_chat, 3)] "claw-2" "Claw" None None 4);
  reflexivity.
Defined.

End Registration.

(** ** A socket that has closed *)

Section ClosedSocket.
Import VisionBroadcaster.

Lemma closed_not_open socks w :
  ws_state socks w = Some CLOSED → ws_open socks w = false.
Proof. rewrite ws_open_alt. intros ->. done. Qed.

Lemma broadcast_keeps_unbound m w h : unbound w h → unbound w (broadcast m h).
Proof. intros Hu. unfold unbound, broadcast. by apply broadcast_loop_Forall. Qed.

Lemma broadcast_closed m h w :
  ws_state (sockets h) w = Some CLOSED →
  unbound w h →
  unbound w (broadcast m h) ∧ outbox (broadcast m h) w = outbox h w.
Proof.
intros Hc Hu. split; [by apply broadcast_keeps_unbound|].
rewrite broadcast_outbox, closed_not_open by done. apply app_nil_r.
Qed.

Lemma outbox_same h h' w : sockets h' !! w = sockets h !! w → outbox h' w = outbox h w.
Proof. unfold outbox. by intros ->. Qed.

Lemma broadcast_closed_of m h h1 w :
  sockets h1 !! w = sockets h !! w →
  ws_state (sockets h) w = Some CLOSED →
  unbound w h1 →
  unbound w (broadcast m h1) ∧ outbox (broadcast m h1) w = outbox h w.
Proof.
intros Hs Hc Hu. rewrite <- (outbox_same h h1 w Hs).
apply broadcast_closed; [|done]. unfold ws_state. by rewrite Hs.
Qed.

Lemma step_closed w e now h :
  ws_state (sockets h) w = Some CLOSED →
  unbound w h →
  unbound w (step e now h) ∧ outbox (step e now h) w = outbox h w.
Proof.
intros Hc Hu.
assert (w < length (sockets h))%nat as Hlt by (apply ws_state_lt; by eexists).
destruct e as [ip|w' raw|w'|w'|b|f|c|tr|o|]; cbn [step].
- split; [done|]. apply outbox_same. unfold onConnection. simpl.
  rewrite ws_send_lookup_ne by lia. by apply lookup_app_l.
- destruct (decide (w' = w)) as [->|Hne]; [by rewrite Hc|].
  assert (unbound w (handleClawMessage w' raw now h)
          ∧ outbox (handleClawMessage w' raw now h) w = outbox h w);
    [|by split_matches].
  unfold handleClawMessage, broadcastState. split_matches; try done.
  + apply (broadcast_closed_of _ h); [done..|].
    unfold unbound. simpl. by apply Map_set_Forall.
  + split; [unfold unbound; simpl; by apply (touch_Forall_ws (λ x, x ≠ w))|].
    apply outbox_same. simpl. by apply ws_send_lookup_ne.
- destruct (decide (w' = w)) as [->|Hne]; [by rewrite Hc|].
  split_matches; try done. split; [done|].
  apply outbox_same. simpl. by apply set_readyState_lookup_ne.
- destruct (decide (w' = w)) as [->|Hne]; [by rewrite Hc|].
  assert (∀ h0, sockets h0 = set_readyState w' CLOSED (sockets h) →
                connectedClaws h0 = connectedClaws h →
                unbound w (handleClawDisconnect w' now h0)
                ∧ outbox (handleClawDisconnect w' now h0) w = outbox h w) as Disc.
  { intros h0 Hs Hr. 
    assert (outbox h0 w = outbox h w) as Ho.
    { apply outbox_same. rewrite Hs. by apply set_readyState_lookup_ne. }
    assert (unbound w h0) as Hu0 by (unfold unbound; by rewrite Hr).
    unfold handleClawDisconnect, broadcastState.
    destruct (List.find _ _) as [[k c0]|]; [|done].
    rewrite <- Ho. apply (broadcast_closed_of _ h0); [done| |].
    - rewrite Hs, set_readyState_state, decide_False by done. done.
    - unfold unbound. simpl. by apply Map_delete_Forall. }
  split_matches; try done; by apply Disc.
- unfold setStreamLive, broadcastState.
  split_matches; by apply (broadcast_closed_of _ h).
- unfold broadcastFrame.
  split_matches; try done; by apply (broadcast_closed_of _ h).
- unfold broadcastChatMessage. split_matches; by apply (broadcast_closed_of _ h).
- unfold broadcastTranscript. by apply broadcast_closed.
- unfold describerSettled. by split_matches.
- unfold runMicrotask, broadcastFrame_then.
  split_matches; try done; by apply (broadcast_closed_of _ h).
Qed.

Lemma run_closed w evs : ∀ h,
  ws_state (sockets h) w = Some CLOSED →
  unbound w h →
  ws_state (sockets (run evs h)) w = Some CLOSED ∧
  unbound w (run evs h) ∧ outbox (run evs h) w = outbox h w.
Proof.
induction evs as [|[e now] evs IH]; intros h Hc Hu; [done|].
cbn [run]. destruct (step_closed w e now h Hc Hu) as [Hu1 Ho1].
rewrite <- Ho1. apply IH; [|done].
rewrite (step_ws_state _ _ _ _ CLOSED) by done.
destruct e; try done; by destruct (decide _).
Qed.


Lemma close_step w now h :
  ws_state (sockets h) w = Some OPEN ∨ ws_state (sockets h) w = Some CLOSING →
  step (Close w) now h
  = handleClawDisconnect w now
      (set_sockets (set_readyState w CLOSED (sockets h)) h).
Proof. intros [Hs|Hs]; cbn [step]; by rewrite Hs. Qed.

Lemma close_unbinds w now h :
  ws_state (sockets h) w = Some OPEN ∨ ws_state (sockets h) w = Some CLOSING →
  let h' := step (Close w) now h in
  ws_state (sockets h') w = Some CLOSED ∧ unbound w h' ∧ outbox h' w = outbox h w.
Proof.
intros Hs h'.
assert (ws_state (sockets h') w = Some CLOSED) as Hc.
{ subst h'. destruct Hs as [Hs|Hs];
    rewrite (step_ws_state _ _ _ _ _ Hs), decide_True by done; done. }
split; [done|]. subst h'. rewrite close_step in * by done.
set (h0 := set_sockets _ h) in *.
assert (ws_state (sockets h0) w = Some CLOSED) as Hc0.
{ subst h0. cbn [sockets set_sockets].
  rewrite set_readyState_state, decide_True by done.
  by destruct Hs as [-> | ->]. }
assert (outbox h0 w = outbox h w) as Ho.
{ subst h0. unfold outbox, set_readyState. cbn [sockets set_sockets].
  rewrite list_lookup_alter_eq. by destruct (sockets h !! w). }
unfold handleClawDisconnect in *.
destruct (List.find _ (connectedClaws h0)) as [[k c]|] eqn:Hfind.
- unfold broadcastState in *. split.
  + pose proof (broadcast_registry_open
                  (MsgState (getStreamState
                     (set_connectedClaws (JS.Map_delete k (connectedClaws h0)) h0)) now)
                  (set_connectedClaws (JS.Map_delete k (connectedClaws h0)) h0))
      as Hopen.
    unfold unbound. eapply Forall_impl; [exact Hopen|].
    intros e He Hw. unfold entry_open in He. rewrite Hw in He.
    apply ws_open_state in He. rewrite Hc in He. done.
  + rewrite broadcast_outbox. cbn [sockets set_connectedClaws].
    rewrite closed_not_open by done. by rewrite app_nil_r.
- split; [by apply find_none_unbound | done].
Qed.

(** X4 -- [handleClawDisconnect], [broadcast] and the connection handler:
    from the ['close'] event of a socket on, whatever the hub goes
    through, no entry of the registry is bound to that socket and nothing
    more is sent on it. *)
Theorem closed_socket_is_never_served_again h w now evs :
  ws_state (sockets h) w = Some OPEN ∨ ws_state (sockets h) w = Some CLOSING →
  let h' := run evs (step (Close w) now h) in
  ws_state (sockets h') w = Some CLOSED ∧
  unbound w h' ∧
  outbox h' w = outbox h w.
Proof.
intros Hs h'. destruct (close_unbinds w now h Hs) as (Hc & Hu & Ho).
subst h'. rewrite <- Ho. by apply run_closed.
Qed.

Lemma closed_socket_is_never_served_again_witness :
  let evs := [ (Message 0%nat (register_msg "claw-b" "Claw"), 4);
               (BroadcastChatMessage hello_chat, 5);
               (Message 0%nat ping_msg, 6) ] in
  let h' := run evs (step (Close 0%nat) 3 hub_one_foreign) in
  ws_state (sockets h') 0%nat = Some CLOSED ∧
  unbound 0%nat h' ∧
  outbox h' 0%nat = outbox hub_one_foreign 0%nat.
Proof.
apply (closed_socket_is_never_served_again hub_one_foreign 0%nat 3).
left. reflexivity.
Defined.

(** X5 -- [handleClawDisconnect]: when a socket that holds an entry
    closes, the first entry bound to it is deleted and one [state] message
    is broadcast.  The message is made before the pass prunes: it lists
    every other entry of the registry, also the entries that this very
    pass removes because their socket is not open, among them the other
    ids registered on the socket that closed. *)
Theorem close_announces_before_pruning apiKey heap evs w now k c :
  let h := run evs (new apiKey heap) in
  ws_state (sockets h) w = Some OPEN ∨ ws_state (sockets h) w = Some CLOSING →
  List.find (λ e, bool_decide (ws e.2 = w)) (connectedClaws h) = Some (k, c) →
  let h' := step (Close w) now h in
  let others := JS.Map_delete k (connectedClaws h) in
  (∃ st, broadcasts h' = broadcasts h ++ [MsgState st now] ∧
         participants st = participant <$> JS.Map_values others) ∧
  connectedClaws h'
  = filter (λ e, entry_open (sockets h) e = true ∧ ws e.2 ≠ w) others.
Proof.
intros h Hs Hfind h' others.
assert (registry_inv h) as [Hnd _] by apply run_registry_inv, new_registry_inv.
subst h'. rewrite close_step by done.
unfold handleClawDisconnect. cbn [connectedClaws set_sockets]. rewrite Hfind.
unfold broadcastState. split.
- eexists. split; [by rewrite broadcast_broadcasts|done].
- rewrite broadcast_registry_filter.
  + cbn [connectedClaws set_connectedClaws sockets set_sockets]. fold others.
    apply filter_iff_in. intros e _. unfold entry_open.
    rewrite !ws_open_state, set_readyState_state.
    destruct (decide (w = ws e.2)) as [Heq|Hne].
    * split; [destruct (ws_state (sockets h) (ws e.2)) as [[]|]; cbn; congruence|].
      intros [_ Hw]. by destruct Hw.
    * split; [by intros ?|by intros [? _]].
  + cbn [connectedClaws set_connectedClaws]. by apply filter_keys_NoDup.
Qed.

Lemma close_announces_before_pruning_witness :
  let h := hub_two_ids in
  let h' := step (Close 0%nat) 4 h in
  let others := JS.Map_delete "claw-a" (connectedClaws h) in
  (∃ st, broadcasts h' = broadcasts h ++ [MsgState st 4] ∧
         participants st = participant <$> JS.Map_values others) ∧
  connectedClaws h'
  = filter (λ e, entry_open (sockets h) e = true ∧ ws e.2 ≠ 0%nat) others.
Proof.
apply (close_announces_before_pruning None blank_heap
         [ (Connection "203.0.113.7", 1);
           (Message 0%nat (register_msg "claw-a" "Claw"), 2);
           (Message 0%nat (register_msg "claw-b" "Claw"), 3) ]
         0%nat 4 "claw-a"
         (mkClaw 0%nat (mkParticipant "claw-a" "Claw" "" 2 2
                                      (Some "203.0.113.7") false))).
- left. reflexivity.
- reflexivity.
Defined.

End ClosedSocket.

(** ** Inbound messages *)

Section Inbound.
Import VisionBroadcaster.

Lemma touch_lookup w now m : ∀ i e,
  m !! i = Some e →
  touch w now m !! i
  = Some (if decide (ws e.2 = w ∧ Forall (λ x, ws x.2 ≠ w) (take i m))
          then seen_at now e else e).
Proof.
induction m as [|[k c] m IH]; intros i e Hi; [done|].
cbn [touch]. case_bool_decide as Hw.
- destruct i as [|i]; simpl in Hi.
  + injection Hi as <-. simpl. rewrite decide_True; [done|].
    split; [done|]. constructor.
  + simpl. rewrite Hi. rewrite decide_False; [done|].
    intros [_ Hall]. simpl in Hall. apply Forall_cons in Hall as [Hc _]. done.
- destruct i as [|i]; simpl in Hi.
  + injection Hi as <-. simpl. rewrite decide_False; [done|]. by intros [? _].
  + simpl. rewrite (IH i e Hi). f_equal.
    destruct (decide (ws e.2 = w ∧ Forall _ (take i m))) as [[? ?]|Hn].
    * rewrite decide_True; [done|]. split; [done|]. by constructor.
    * rewrite decide_False; [done|]. intros [? Hall].
      apply Forall_cons in Hall as [_ ?]. by apply Hn.
Qed.

Lemma touch_identity w now m :
  (λ e, identity_of (participant e.2)) <$> touch w now m
  = (λ e, identity_of (participant e.2)) <$> m.
Proof.
induction m as [|[k c] m IH]; [done|].
cbn [touch]. case_bool_decide; csimpl; [done|]. by rewrite IH.
Qed.

(** X6 -- [handleClawMessage], case ["ping"]: a ping on an open socket is
    answered with one [pong] on that socket and is not broadcast.  It sets
    [lastSeen] of the first entry bound to the socket and of no other:
    every other entry, also a later entry bound to the same socket, keeps
    its time, and no entry changes its id, its socket or anything else of
    its participant. *)
Theorem ping_refreshes_first_entry_only w now h :
  ws_open (sockets h) w = true →
  let h' := step (Message w ping_msg) now h in
  outbox h' w = outbox h w ++ [MsgPong now] ∧
  (∀ w', w' ≠ w → outbox h' w' = outbox h w') ∧
  broadcasts h' = broadcasts h ∧
  identity_of <$> getConnectedClaws h' = identity_of <$> getConnectedClaws h ∧
  ∀ i e, connectedClaws h !! i = Some e →
    connectedClaws h' !! i
    = Some (if decide (ws e.2 = w ∧ Forall (λ x, ws x.2 ≠ w) (take i (connectedClaws h)))
            then seen_at now e else e).
Proof.
intros Hopen h'. pose proof Hopen as Hs. apply ws_open_state in Hs.
subst h'. cbn [step]. rewrite Hs. unfold handleClawMessage, ping_msg.
cbn [in_type String.eqb Ascii.eqb Bool.eqb orb]. 
cbn [sockets set_sockets set_connectedClaws connectedClaws broadcasts].
repeat split.
- unfold outbox. cbn [sockets set_sockets set_connectedClaws].
  destruct (ws_send_open w (MsgPong now) (sockets h) Hopen) as (s & -> & _ & ->).
  done.
- intros w' Hne. apply outbox_same. cbn [sockets set_sockets set_connectedClaws].
  by apply ws_send_lookup_ne.
- unfold getConnectedClaws, JS.Map_values.
  cbn [connectedClaws set_sockets set_connectedClaws].
  rewrite <- !list_fmap_compose.
  apply (touch_identity w now (connectedClaws h)).
- intros i e Hi. by apply touch_lookup.
Qed.

Lemma ping_refreshes_first_entry_only_witness :
  let h := hub_two_ids in
  let h' := step (Message 0%nat ping_msg) 9 h in
  outbox h' 0%nat = outbox h 0%nat ++ [MsgPong 9] ∧
  (∀ w', w' ≠ 0%nat → outbox h' w' = outbox h w') ∧
  broadcasts h' = broadcasts h ∧
  identity_of <$> getConnectedClaws h' = identity_of <$> getConnectedClaws h ∧
  ∀ i e, connectedClaws h !! i = Some e →
    connectedClaws h' !! i
    = Some (if decide (ws e.2 = 0%nat
                       ∧ Forall (λ x, ws x.2 ≠ 0%nat) (take i (connectedClaws h)))
            then seen_at 9 e else e).
Proof.
apply (ping_refreshes_first_entry_only 0%nat 9 hub_two_ids). reflexivity.
Defined.


Lemma handleClawMessage_not_register w raw now h :
  registers w (Message w raw) = false →
  let h' := handleClawMessage w raw now h in
  broadcasts h' = broadcasts h ∧
  recentChat h' = recentChat h ∧
  JS.Map_keys (connectedClaws h') = JS.Map_keys (connectedClaws h) ∧
  (∀ w', w' ≠ w → outbox h' w' = outbox h w') ∧
  (is_claw_message raw = false → handled h' = handled h) ∧
  (∀ m, raw = Some m → is_claw_message raw = true →
        handled h'
        = handled h
          ++ [mkClawMessage (in_type m) (JS.nullish (in_content m) "")
                            (JS.nullish (in_clawId m) "")
                            (JS.nullish (in_clawName m) "Unknown Claw") now]).
Proof.
intros Hreg h'. subst h'. destruct raw as [m|]; [|done].
unfold registers in Hreg. rewrite bool_decide_eq_true_2 in Hreg by done.
unfold handleClawMessage, is_claw_message.
destruct (String.eqb (in_type m) "register") eqn:Ereg.
- assert (String.eqb (in_type m) "chat" || String.eqb (in_type m) "reaction"
          || String.eqb (in_type m) "observation" = false) as Hkind.
  { apply String.eqb_eq in Ereg. by rewrite Ereg. }
  rewrite Hkind.
  destruct (in_clawId m) as [i|], (in_clawName m) as [n|]; try done.
  simpl in Hreg. destruct (JS.truthy_string i), (JS.truthy_string n); done.
- destruct (_ || _) eqn:Ekind.
  + repeat split; try done. by intros m' [= <-] _.
  + destruct (String.eqb (in_type m) "ping"); [|done].
    repeat split; try done.
    * unfold JS.Map_keys. cbn [connectedClaws set_sockets set_connectedClaws].
      apply touch_keys.
    * intros w' Hne. apply outbox_same. cbn [sockets set_sockets].
      by apply ws_send_lookup_ne.
Qed.

(** X7 -- [handleClawMessage]: the hub relays no inbound message.  A
    message that is not an accepted registration (invalid JSON, a
    registration without id or name, a chat, a reaction, an observation, a
    ping, an unknown type) is never broadcast, is not added to the chat
    history, changes no id of the registry and sends nothing on any other
    socket.  A chat, reaction or observation received on an open socket
    is handed to the handlers once, under the id and name the message
    itself claims, whether or not the socket has registered. *)
Theorem inbound_messages_are_not_relayed w raw now h :
  registers w (Message w raw) = false →
  let h' := step (Message w raw) now h in
  broadcasts h' = broadcasts h ∧
  recentChat h' = recentChat h ∧
  JS.Map_keys (connectedClaws h') = JS.Map_keys (connectedClaws h) ∧
  (∀ w', w' ≠ w → outbox h' w' = outbox h w') ∧
  (is_claw_message raw = false → handled h' = handled h) ∧
  (∀ m, raw = Some m → is_claw_message raw = true →
        ws_open (sockets h) w = true →
        handled h'
        = handled h
          ++ [mkClawMessage (in_type m) (JS.nullish (in_content m) "")
                            (JS.nullish (in_clawId m) "")
                            (JS.nullish (in_clawName m) "Unknown Claw") now]).
Proof.
intros Hreg h'.
destruct (handleClawMessage_not_register w raw now h Hreg)
  as (Hb & Hc & Hk & Ho & Hn & Hy).
subst h'. cbn [step].
destruct (ws_state (sockets h) w) as [[]|] eqn:Hs;
  try (repeat split; try done; intros m _ _ Hopen;
       apply ws_open_state in Hopen; congruence).
repeat split; try done. intros m Hraw Hkind _. by apply Hy.
Qed.

Lemma inbound_messages_are_not_relayed_witness :
  let raw := chat_msg "claw-1" "Claw" "hello from nobody" in
  let h := run [(Connection "198.51.100.9", 3)] hub_one_foreign in
  let h' := step (Message 1%nat raw) 4 h in
  broadcasts h' = broadcasts h ∧
  recentChat h' = recentChat h ∧
  JS.Map_keys (connectedClaws h') = JS.Map_keys (connectedClaws h) ∧
  (∀ w', w' ≠ 1%nat → outbox h' w' = outbox h w') ∧
  (is_claw_message raw = false → handled h' = handled h) ∧
  (∀ m, raw = Some m → is_claw_message raw = true →
        ws_open (sockets h) 1%nat = true →
        handled h'
        = handled h
          ++ [mkClawMessage (in_type m) (JS.nullish (in_content m) "")
                            (JS.nullish (in_clawId m) "")
                            (JS.nullish (in_clawName m) "Unknown Claw") 4]).
Proof.
apply (inbound_messages_are_not_relayed 1%nat
         (chat_msg "claw-1" "Claw" "hello from nobody") 4
         (run [(Connection "198.51.100.9", 3)] hub_one_foreign)).
reflexivity.
Defined.

End Inbound.

(** ** What holds of the participants and of the counters *)

Section HubInvariants.
Import VisionBroadcaster.

Lemma touch_Forall (P : string * ConnectedClaw → Prop) w now m :
  (∀ e, P e → P (seen_at now e)) →
  Forall P m → Forall P (touch w now m).
Proof.
intros Hseen. induction m as [|[k c] m IH]; intros Hall; [done|].
apply Forall_cons in Hall as [Hc Hm]. cbn [touch]. case_bool_decide.
- apply Forall_cons. split; [exact (Hseen (k, c) Hc) | done].
- apply Forall_cons. split; [done | by apply IH].
Qed.

Lemma broadcast_Forall_of (P : string * ConnectedClaw → Prop) m h :
  Forall P (connectedClaws h) → Forall P (connectedClaws (broadcast m h)).
Proof. intros Hall. unfold broadcast. by apply broadcast_loop_Forall. Qed.

Lemma step_as_registered e now h :
  Forall as_registered (connectedClaws h) →
  Forall as_registered (connectedClaws (step e now h)).
Proof.
intros Hall.
destruct e as [ip|w' raw|w'|w'|b|f|c|tr|o|]; cbn [step].
- done.
- destruct (ws_state (sockets h) w') as [[]|]; try done.
  all: unfold handleClawMessage, broadcastState; split_matches; try done.
  all: try (apply broadcast_Forall_of; cbn [connectedClaws set_connectedClaws
              set_pendingConnections];
            apply Map_set_Forall; [|done];
            match goal with
            | H : negb _ || negb _ = false |- _ =>
                apply orb_false_iff in H as [H1 H2];
                apply negb_false_iff in H1; apply negb_false_iff in H2
            end;
            repeat split; try done; by eexists).
  all: cbn [connectedClaws set_sockets set_connectedClaws];
       apply touch_Forall; [|done];
       intros e (? & ? & ? & ip0 & ? & ?); repeat split; try done; by exists ip0.
- by split_matches.
- destruct (ws_state (sockets h) w') as [[]|]; try done.
  all: unfold handleClawDisconnect, broadcastState; split_matches; try done.
  all: apply broadcast_Forall_of; cbn [connectedClaws set_connectedClaws set_sockets];
       by apply Map_delete_Forall.
- unfold setStreamLive, broadcastState. split_matches; by apply broadcast_Forall_of.
- unfold broadcastFrame. split_matches; try done; by apply broadcast_Forall_of.
- unfold broadcastChatMessage. split_matches; by apply broadcast_Forall_of.
- unfold broadcastTranscript. by apply broadcast_Forall_of.
- unfold describerSettled. by split_matches.
- unfold runMicrotask, broadcastFrame_then.
  split_matches; try done; by apply broadcast_Forall_of.
Qed.

Lemma run_as_registered evs : ∀ h,
  Forall as_registered (connectedClaws h) →
  Forall as_registered (connectedClaws (run evs h)).
Proof.
induction evs as [|[e now] evs IH]; intros h Hall; [done|].
cbn [run]. by apply IH, step_as_registered.
Qed.

(** X8 -- the registry, as [getConnectedClaws] and the [state] messages
    show it: on a hub reached from a new one the participants listed have
    ids that differ from one another, every one has an id and a name that
    is not empty and an address, and it counts as local exactly when that
    address is a local one. *)
Theorem participants_are_distinct_and_classified apiKey heap evs :
  let ps := getConnectedClaws (run evs (new apiKey heap)) in
  participants (getStreamState (run evs (new apiKey heap))) = ps ∧
  NoDup (id <$> ps) ∧
  Forall (λ p, JS.truthy_string (id p) = true ∧ JS.truthy_string (name p) = true ∧
               ∃ ip, ipAddress p = Some ip ∧ isLocal p = is_local ip) ps.
Proof.
intros ps. split; [done|].
assert (registry_inv (run evs (new apiKey heap))) as [Hnd _]
  by apply run_registry_inv, new_registry_inv.
assert (Forall as_registered (connectedClaws (run evs (new apiKey heap)))) as Hall
  by by apply run_as_registered.
subst ps. unfold getConnectedClaws, JS.Map_values, JS.Map_keys in *.
revert Hnd Hall. generalize (connectedClaws (run evs (new apiKey heap))).
intros m Hnd Hall. split.
- replace (id <$> (participant <$> m.*2)) with m.*1; [done|].
  induction Hall as [|[k c] m (Hk & _) _ IH]; [done|].
  csimpl in *. rewrite Hk. f_equal. apply IH. by apply NoDup_cons in Hnd as [_ ?].
- clear Hnd. induction Hall as [|[k c] m (_ & ? & ? & ?) _ IH]; csimpl; [done|].
  by constructor.
Qed.


Lemma unique_from_spec seen l :
  NoDup (JS.unique_from seen l) ∧
  ∀ x, x ∈ JS.unique_from seen l ↔ x ∈ l ∧ x ∉ seen.
Proof.
revert seen. induction l as [|y l IH]; intros seen.
- split; [constructor|]. intros x. simpl.
  split; [by intros ?%elem_of_nil | by intros [?%elem_of_nil _]].
- cbn [JS.unique_from]. case_bool_decide as Hy.
  + destruct (IH seen) as [Hnd Hin]. split; [done|].
    intros x. rewrite Hin, elem_of_cons.
    split; [tauto | intros [[->|?] ?]; [done | tauto]].
  + destruct (IH (y :: seen)) as [Hnd Hin]. split.
    * apply NoDup_cons. split; [|done]. rewrite Hin, not_elem_of_cons.
      by intros (_ & ? & _).
    * intros x. rewrite !elem_of_cons, Hin, not_elem_of_cons.
      destruct (decide (x = y)) as [->|Hne]; [|tauto].
      split; [intros _; split; [by left | done] | by left].
Qed.

Lemma unique_from_length seen l :
  (length (JS.unique_from seen l) ≤ length l)%nat.
Proof.
revert seen. induction l as [|y l IH]; intros seen; [done|].
cbn [JS.unique_from]. case_bool_decide; simpl.
- specialize (IH seen). lia.
- specialize (IH (y :: seen)). lia.
Qed.

Lemma local_foreign_length (ps : list ClawParticipant) :
  (length (filter (λ p, isLocal p = true) ps)
   + length (filter (λ p, isLocal p = false) ps) = length ps)%nat.
Proof.
induction ps as [|p ps IH]; [done|].
rewrite !filter_cons. destruct (isLocal p) eqn:E.
- rewrite decide_True, decide_False by done. simpl. lia.
- rewrite decide_False, decide_True by done. simpl. lia.
Qed.

(** X9 -- [getMetrics]: the local and the foreign connections add up to
    the participants of the registry; [uniqueIPs] lists no address
    twice and lists exactly the addresses of the participants, with
    ["unknown"] for a participant without one, so it is never longer
    than the list of participants. *)
Theorem metrics_partition_the_participants h :
  let m := getMetrics h in
  let ps := getConnectedClaws h in
  (localConnections m + foreignConnections m = length ps)%nat ∧
  NoDup (uniqueIPs m) ∧
  (∀ ip, ip ∈ uniqueIPs m
         ↔ ∃ p, p ∈ ps ∧ JS.nullish (ipAddress p) "unknown" = ip) ∧
  (length (uniqueIPs m) ≤ length ps)%nat.
Proof.
intros m ps. subst m. unfold getMetrics.
cbn [localConnections foreignConnections uniqueIPs]. fold ps.
destruct (unique_from_spec [] ((λ p, JS.nullish (ipAddress p) "unknown") <$> ps))
  as [Hnd Hin].
split; [apply local_foreign_length|]. split; [done|]. split.
- intros ip. unfold JS.unique. rewrite Hin, list_elem_of_fmap.
  split.
  + intros [(p & -> & Hp) _]. by exists p.
  + intros (p & Hp & <-). split; [by exists p | apply not_elem_of_nil].
- unfold JS.unique.
  etrans; [apply unique_from_length|]. by rewrite length_fmap.
Qed.


Lemma broadcast_loop_length m es : ∀ h,
  length (sockets (broadcast_loop m es h)) = length (sockets h).
Proof.
induction es as [|[k c] es IH]; intros h; [done|].
cbn [broadcast_loop]. destruct (ws_open _ _); rewrite IH; [|done].
cbn [sockets set_sockets]. apply length_alter.
Qed.

Lemma broadcast_length m h :
  length (sockets (broadcast m h)) = length (sockets h).
Proof. unfold broadcast. by rewrite broadcast_loop_length. Qed.

Lemma step_sockets_length e now h :
  length (sockets (step e now h))
  = match e with
    | Connection _ => S (length (sockets h))
    | _ => length (sockets h)
    end.
Proof.
destruct e; hub_frame; rewrite ?broadcast_length; cbn [sockets set_sockets
  set_connectedClaws set_pendingConnections set_totalConnectionsEver
  set_connectionsByIP set_handled set_streamStartedAt set_recentChat
  set_currentFrame set_frames set_microtasks];
  unfold ws_send, set_readyState; rewrite ?length_alter, ?length_app; simpl; lia.
Qed.

Lemma connections_sum_insert (m : gmap string Z) ip :
  connections_sum (<[ip := JS.nullish (m !! ip) 0 + 1]> m) = connections_sum m + 1.
Proof.
unfold connections_sum.
destruct (m !! ip) as [n|] eqn:Hip; simpl.
- rewrite <- (insert_delete_eq m).
  rewrite map_fold_insert_L; [|intros; lia|apply lookup_delete_eq].
  rewrite (map_fold_delete_L _ _ ip n m); [lia|intros; lia|done].
- rewrite map_fold_insert_L; [lia|intros; lia|done].
Qed.

Lemma step_connection_counters e now h :
  totalConnectionsEver h = Z.of_nat (length (sockets h)) ∧
  connections_sum (connectionsByIP h) = totalConnectionsEver h ∧
  map_Forall (λ _ n, 1 ≤ n) (connectionsByIP h) →
  totalConnectionsEver (step e now h) = Z.of_nat (length (sockets (step e now h))) ∧
  connections_sum (connectionsByIP (step e now h)) = totalConnectionsEver (step e now h) ∧
  map_Forall (λ _ n, 1 ≤ n) (connectionsByIP (step e now h)).
Proof.
intros (Htotal & Hsum & Hpos).
rewrite step_totalConnectionsEver, step_connectionsByIP, step_sockets_length.
destruct e as [ip| | | | | | | | |]; try done.
split; [lia|]. split.
- rewrite connections_sum_insert. lia.
- apply map_Forall_insert_2; [|done].
  destruct (connectionsByIP h !! ip) as [n|] eqn:Hip; simpl; [|lia].
  specialize (Hpos ip n Hip). simpl in Hpos. lia.
Qed.

Lemma run_connection_counters evs : ∀ h,
  totalConnectionsEver h = Z.of_nat (length (sockets h)) ∧
  connections_sum (connectionsByIP h) = totalConnectionsEver h ∧
  map_Forall (λ _ n, 1 ≤ n) (connectionsByIP h) →
  totalConnectionsEver (run evs h) = Z.of_nat (length (sockets (run evs h))) ∧
  connections_sum (connectionsByIP (run evs h)) = totalConnectionsEver (run evs h) ∧
  map_Forall (λ _ n, 1 ≤ n) (connectionsByIP (run evs h)).
Proof.
induction evs as [|[e now] evs IH]; intros h Hinv; [done|].
cbn [run]. by apply IH, step_connection_counters.
Qed.

(** X10 -- the connection handler: on a hub reached from a new one the
    cumulative connection count is the number of connections the server
    has handed over, it is the sum of the counts kept by address, and
    every address that has a count has one of at least 1. *)
Theorem connection_counters_agree apiKey heap evs :
  let m := getMetrics (run evs (new apiKey heap)) in
  totalConnections m = Z.of_nat (length (sockets (run evs (new apiKey heap)))) ∧
  connections_sum (m_connectionsByIP m) = totalConnections m ∧
  map_Forall (λ _ n, 1 ≤ n) (m_connectionsByIP m).
Proof.
cbv zeta. unfold getMetrics. cbn [totalConnections m_connectionsByIP].
apply run_connection_counters. repeat split. apply map_Forall_empty.
Qed.

End HubInvariants.

(** ** The addresses kept for the sockets *)

Section PendingAddresses.
Import VisionBroadcaster.

Lemma step_pending_kept e now h w ip :
  is_Some (ws_state (sockets h) w) →
  pendingConnections h !! w = Some ip →
  registers w e = false →
  pendingConnections (step e now h) !! w = Some ip.
Proof.
intros Hw Hsome Hreg. apply ws_state_lt in Hw.
destruct e as [ip'|w' raw| | | | | | | |]; try by hub_frame.
- unfold step, onConnection. simpl. by rewrite lookup_insert_ne by lia.
- cbn [step]. destruct (ws_state (sockets h) w') as [[]|]; try done.
  all: unfold handleClawMessage, broadcastState; split_matches; try done.
  all: rewrite broadcast_pendingConnections; simpl.
  all: destruct (decide (w' = w)) as [->|Hne];
         [|by rewrite lookup_delete_ne].
  all: exfalso; subst raw; simpl in Hreg;
       rewrite bool_decide_eq_true_2 in Hreg by done;
       match goal with
       | Ha : String.eqb _ "register" = true, Hb : in_clawId _ = Some _,
         Hc : in_clawName _ = Some _ |- _ => rewrite Ha, Hb, Hc in Hreg
       end;
       simpl in Hreg;
       match goal with
       | H : negb _ || negb _ = false |- _ =>
           apply orb_false_iff in H as [H1 H2];
           apply negb_false_iff in H1; apply negb_false_iff in H2;
           rewrite H1, H2 in Hreg
       end; done.
Qed.

(** X11 -- the connection handler and [handleClawDisconnect]: the
    address kept for a socket at connect time is dropped by an accepted
    registration from that socket and by nothing else.  As long as the
    socket has not registered the entry stays, also after the socket has
    closed. *)
Theorem pending_address_outlives_the_socket apiKey heap history ip now0 evs :
  let h := run history (new apiKey heap) in
  let w := length (sockets h) in
  Forall (λ en, registers w en.1 = false) evs →
  pendingConnections (run evs (onConnection ip now0 h)) !! w = Some ip.
Proof.
intros h w Hevs.
assert (is_Some (ws_state (sockets (onConnection ip now0 h)) w)
        ∧ pendingConnections (onConnection ip now0 h) !! w = Some ip) as Hstart.
{ split.
  - change (onConnection ip now0 h) with (step (Connection ip) now0 h).
    unfold ws_state. apply fmap_is_Some, lookup_lt_is_Some.
    rewrite step_sockets_length. subst w. lia.
  - unfold onConnection. simpl. apply lookup_insert_eq. }
revert Hstart. generalize (onConnection ip now0 h).
induction Hevs as [|[e now] evs Hreg _ IH]; intros h0 [Hw Hsome]; [done|].
cbn [run]. apply IH. split.
- destruct Hw as [r Hr]. erewrite step_ws_state by done. by eexists.
- by apply step_pending_kept.
Qed.

Lemma pending_address_outlives_the_socket_witness :
  let h := run [] (new None blank_heap) in
  pendingConnections
    (run [(Message 0%nat ping_msg, 2); (Close 0%nat, 3); (SetStreamLive true, 4)]
         (onConnection "203.0.113.7" 1 h)) !! 0%nat
  = Some "203.0.113.7".
Proof.
apply (pending_address_outlives_the_socket None blank_heap [] "203.0.113.7" 1
         [(Message 0%nat ping_msg, 2); (Close 0%nat, 3); (SetStreamLive true, 4)]).
repeat constructor.
Defined.

End PendingAddresses.

(** ** Liveness over a run *)

Section LivenessRun.
Import VisionBroadcaster.

Lemma step_streamStartedAt e now h :
  streamStartedAt (step e now h)
  = match e with
    | SetStreamLive b =>
        if b && negb (JS.truthy_opt_number (streamStartedAt h)) then Some now
        else if negb b && JS.truthy_opt_number (streamStartedAt h) then None
        else streamStartedAt h
    | _ => streamStartedAt h
    end.
Proof.
destruct e; hub_frame.
Qed.

(** X12 -- [setStreamLive] and [getStreamState]: as long as the clock
    does not read zero when the stream is set live, the stream is live in
    the snapshot exactly when the last call of [setStreamLive] asked for
    it; no other operation of the hub changes liveness. *)
Theorem liveness_follows_the_last_request evs : ∀ h,
  streamStartedAt h ≠ Some 0 →
  Forall clock_ok evs →
  isLive (getStreamState (run evs h))
  = last_live (isLive (getStreamState h)) evs.
Proof.
induction evs as [|[e now] evs IH]; intros h Hh Hevs; [done|].
apply Forall_cons in Hevs as [He Hevs]. cbn [run].
assert (streamStartedAt (step e now h) ≠ Some 0
        ∧ isLive (getStreamState (step e now h))
          = match e with
            | SetStreamLive b => b
            | _ => isLive (getStreamState h)
            end) as [Hh' Hlive].
{ unfold getStreamState. cbn [isLive]. rewrite step_streamStartedAt.
  destruct e as [| | | |b| | | | |]; try done.
  unfold clock_ok in He. simpl in He.
  destruct (streamStartedAt h) as [z|] eqn:Hz, b; simpl.
  - unfold JS.truthy_number. destruct (Z.eqb_spec z 0); [congruence|]. by simpl.
  - unfold JS.truthy_number. destruct (Z.eqb_spec z 0); [congruence|]. by simpl.
  - split; [congruence|done].
  - done. }
rewrite IH by done. rewrite Hlive. by destruct e.
Qed.

Lemma liveness_follows_the_last_request_witness :
  let evs := [ (SetStreamLive true, 5); (BroadcastChatMessage hello_chat, 6);
               (SetStreamLive true, 7); (SetStreamLive false, 8) ] in
  isLive (getStreamState (run evs (new None blank_heap)))
  = last_live (isLive (getStreamState (new None blank_heap))) evs.
Proof.
apply (liveness_follows_the_last_request
         [ (SetStreamLive true, 5); (BroadcastChatMessage hello_chat, 6);
           (SetStreamLive true, 7); (SetStreamLive false, 8) ]
         (new None blank_heap)).
- done.
- repeat constructor; done.
Defined.

End LivenessRun.

(** ** Frames without a describer, and frames that find it at work *)

Section FramePipeline.
Import VisionBroadcaster.

Lemma new_disabled apiKey :
  JS.truthy_opt apiKey = false →
  FrameSummarizer.new apiKey = FrameSummarizer.mk false false false "".
Proof. unfold FrameSummarizer.new. by intros ->. Qed.

Lemma filter_is_frame_snoc l m :
  filter is_frame (l ++ [m])
  = filter is_frame l ++ (if is_frame m then [m] else []).
Proof.
rewrite filter_app. f_equal. rewrite filter_cons, filter_nil.
by destruct (is_frame m).
Qed.

Lemma step_without_describer e now h :
  FrameSummarizer.enabled (frameSummarizer h) = false →
  microtasks h = [] →
  awaited h = None →
  let h' := step e now h in
  (frameSummarizer h' = frameSummarizer h ∧ microtasks h' = [] ∧
   awaited h' = None ∧ frames h' = frames h) ∧
  filter is_frame (broadcasts h')
  = filter is_frame (broadcasts h)
    ++ match e with
       | BroadcastFrame f => [MsgFrame (frames h f) now]
       | _ => []
       end.
Proof.
intros Hoff Hq Ha h'. subst h'.
destruct e as [ip|w' raw|w'|w'|b|f|c|tr|o|]; cbn [step].
- unfold onConnection. simpl. by rewrite app_nil_r.
- destruct (ws_state (sockets h) w') as [[]|]; rewrite ?app_nil_r; try done.
  all: unfold handleClawMessage, broadcastState; split_matches;
       autorewrite with hub; rewrite ?filter_is_frame_snoc, ?app_nil_r; done.
- split_matches; by rewrite app_nil_r.
- destruct (ws_state (sockets h) w') as [[]|]; rewrite ?app_nil_r; try done.
  all: unfold handleClawDisconnect, broadcastState; split_matches;
       autorewrite with hub; rewrite ?filter_is_frame_snoc, ?app_nil_r; done.
- unfold setStreamLive, broadcastState. split_matches;
    autorewrite with hub; rewrite ?filter_is_frame_snoc, ?app_nil_r; done.
- unfold broadcastFrame, FrameSummarizer.isEnabled.
  cbn [frameSummarizer set_currentFrame]. rewrite Hoff.
  autorewrite with hub. by rewrite filter_is_frame_snoc.
- unfold broadcastChatMessage. split_matches;
    autorewrite with hub; rewrite ?filter_is_frame_snoc, ?app_nil_r; done.
- unfold broadcastTranscript.
  autorewrite with hub; rewrite ?filter_is_frame_snoc, ?app_nil_r; done.
- unfold describerSettled. rewrite Ha. by rewrite app_nil_r.
- unfold runMicrotask. rewrite Hq. by rewrite app_nil_r.
Qed.

Lemma run_without_describer heap evs : ∀ h,
  FrameSummarizer.enabled (frameSummarizer h) = false →
  microtasks h = [] →
  awaited h = None →
  frames h = heap →
  let h' := run evs h in
  frames h' = heap ∧ microtasks h' = [] ∧ awaited h' = None ∧
  filter is_frame (broadcasts h')
  = filter is_frame (broadcasts h) ++ raw_frames_of heap evs.
Proof.
induction evs as [|[e now] evs IH]; intros h Hoff Hq Ha Hf h'; subst h'.
- simpl. by rewrite app_nil_r.
- cbn [run].
  destruct (step_without_describer e now h Hoff Hq Ha) as ((Hs & Hq' & Ha' & Hf') & Hb).
  destruct (IH (step e now h)) as (?&?&?&Hb'); try done; try congruence.
  repeat split; try done. rewrite Hb', Hb, <- app_assoc. f_equal.
  unfold raw_frames_of. csimpl. rewrite Hf. by destruct e.
Qed.

(** X13 -- [broadcastFrame] without a describer: on a hub made without an
    API key, or with an empty one, every frame handed to [broadcastFrame]
    is broadcast in that same call, as it stands; the [frame] messages
    broadcast are those frames, in the order of the calls.  No frame is
    ever written to and no callback is ever queued. *)
Theorem frames_go_out_raw_without_describer apiKey heap evs :
  JS.truthy_opt apiKey = false →
  let h := run evs (new apiKey heap) in
  filter is_frame (broadcasts h) = raw_frames_of heap evs ∧
  frames h = heap ∧ microtasks h = [] ∧ awaited h = None.
Proof.
intros Hkey h.
destruct (run_without_describer heap evs (new apiKey heap)) as (?&?&?&?);
  try done.
unfold new. cbn [frameSummarizer]. by rewrite new_disabled.
Qed.

Lemma frames_go_out_raw_without_describer_witness :
  let evs := [ (BroadcastFrame 3%nat, 1); (Microtask, 2);
               (DescriberSettled FrameSummarizer.Rejected, 3);
               (BroadcastFrame 4%nat, 4) ] in
  let h := run evs (new (Some "") blank_heap) in
  filter is_frame (broadcasts h) = raw_frames_of blank_heap evs ∧
  frames h = blank_heap ∧ microtasks h = [] ∧ awaited h = None.
Proof.
apply (frames_go_out_raw_without_describer (Some "") blank_heap
         [ (BroadcastFrame 3%nat, 1); (Microtask, 2);
           (DescriberSettled FrameSummarizer.Rejected, 3);
           (BroadcastFrame 4%nat, 4) ]).
reflexivity.
Defined.

(** X14 -- [broadcastFrame] while the describer is at work: the frame is
    not described.  No request is made for it and nothing is broadcast in
    the call; the callback queued for it, when it runs, writes the
    summary of the last frame described to this frame, if there is one,
    and broadcasts the frame with it: the [summary] field of the frame
    broadcast is that summary and its other fields are as handed in. *)
Theorem frame_during_description_gets_the_last_summary h frame now now' :
  FrameSummarizer.enabled (frameSummarizer h) = true →
  FrameSummarizer.anthropic (frameSummarizer h) = true →
  FrameSummarizer.isSummarizing (frameSummarizer h) = true →
  microtasks h = [] →
  let previous := FrameSummarizer.getLastSummary (frameSummarizer h) in
  let h1 := broadcastFrame frame now h in
  let h2 := runMicrotask now' h1 in
  let original := frames h frame in
  let sent :=
    if JS.truthy_string previous
    then mkFrame (f_timestamp original) (imageBase64 original) (format original)
                 (width original) (height original) (Some previous)
    else original in
  (frameSummarizer h1 = frameSummarizer h ∧ awaited h1 = awaited h ∧
   broadcasts h1 = broadcasts h ∧ microtasks h1 = [(frame, previous)]) ∧
  (frames h2 frame = sent ∧
   summary (frames h2 frame)
   = (if JS.truthy_string previous then Some previous else summary original) ∧
   broadcasts h2 = broadcasts h ++ [MsgFrame sent now'] ∧
   frameSummarizer h2 = frameSummarizer h ∧ awaited h2 = awaited h ∧
   microtasks h2 = []).
Proof.
intros Hen Han Hbusy Hq previous h1 h2 original sent.
assert (h1 = set_microtasks [(frame, previous)] (set_currentFrame (Some frame) h))
  as Hh1.
{ subst h1. unfold broadcastFrame, FrameSummarizer.isEnabled,
    FrameSummarizer.summarizeFrame.
  cbn [frameSummarizer set_currentFrame microtasks]. rewrite Hen, Han, Hbusy, Hq.
  simpl. clear. by destruct h. }
split; [by rewrite Hh1|].
subst h2. rewrite Hh1. unfold runMicrotask, broadcastFrame_then.
cbn [microtasks set_microtasks]. subst sent.
destruct (JS.truthy_string previous); autorewrite with hub; simpl;
  rewrite ?fn_lookup_insert; done.
Qed.

Lemma frame_during_description_gets_the_last_summary_witness :
  let h := hub_describing in
  let h1 := broadcastFrame 3%nat 5 h in
  let h2 := runMicrotask 6 h1 in
  let sent := mkFrame 0 "" "png" 0 0 (Some "a cat") in
  (frameSummarizer h1 = frameSummarizer h ∧ awaited h1 = awaited h ∧
   broadcasts h1 = broadcasts h ∧ microtasks h1 = [(3%nat, "a cat")]) ∧
  (frames h2 3%nat = sent ∧
   summary (frames h2 3%nat) = Some "a cat" ∧
   broadcasts h2 = broadcasts h ++ [MsgFrame sent 6] ∧
   frameSummarizer h2 = frameSummarizer h ∧ awaited h2 = awaited h ∧
   microtasks h2 = []).
Proof.
apply (frame_during_description_gets_the_last_summary hub_describing 3%nat 5 6);
  reflexivity.
Defined.

End FramePipeline.

(** ** The address of a connection *)

Section ClientAddress.
Import VisionBroadcaster.

Lemma includes_comma_cons c r :
  JS.includes (String c r) "," = Ascii.eqb c "," || JS.includes r ",".
Proof.
cbn [JS.includes String.prefix].
destruct (Ascii.eqb_spec c ","%char) as [->|Hne].
- destruct (ascii_dec _ _); [by destruct r|done].
- destruct (ascii_dec _ _) as [Heq|_]; [congruence|done].
Qed.

Lemma before_comma_app first rest :
  JS.includes first "," = false →
  before_comma (first +:+ String "," rest) = first.
Proof.
induction first as [|c r IH]; intros Hno.
- done.
- rewrite includes_comma_cons in Hno. apply orb_false_iff in Hno as [Hc Hr].
  rewrite append_cons. cbn [before_comma]. rewrite Hc. f_equal. by apply IH.
Qed.

Lemma before_comma_none s : JS.includes s "," = false → before_comma s = s.
Proof.
induction s as [|c r IH]; intros Hno; [done|].
rewrite includes_comma_cons in Hno. apply orb_false_iff in Hno as [Hc Hr].
cbn [before_comma]. rewrite Hc. f_equal. by apply IH.
Qed.

(** X15 -- the connection handler, the address: when the upgrade request
    carries an [x-forwarded-for] header that is one string, the address
    is what stands before its first comma, trimmed, or the whole header
    trimmed when it has no comma; the address of the socket plays no part
    then. *)
Theorem forwarded_header_decides_the_address first rest remoteAddress :
  JS.includes first "," = false →
  clientAddress (HeaderString (first +:+ String "," rest)) remoteAddress
  = JS.trim first ∧
  clientAddress (HeaderString first) remoteAddress = JS.trim first.
Proof.
intros Hno. unfold clientAddress.
by rewrite before_comma_app, before_comma_none.
Qed.

Lemma forwarded_header_decides_the_address_witness :
  clientAddress (HeaderString (" 127.0.0.1" +:+ String "," " 203.0.113.7"))
                (Some "203.0.113.7")
  = JS.trim " 127.0.0.1" ∧
  clientAddress (HeaderString " 127.0.0.1") (Some "203.0.113.7")
  = JS.trim " 127.0.0.1".
Proof.
apply (forwarded_header_decides_the_address " 127.0.0.1" " 203.0.113.7"
         (Some "203.0.113.7")).
reflexivity.
Defined.

End ClientAddress.

(** ** The summarizer: requests in flight, and no key *)

Section SummarizerRuns.
Import FrameSummarizer.

Lemma run_cons e evs s :
  run (e :: evs) s
  = ((run evs (step e s).1).1, (step e s).2 ++ (run evs (step e s).1).2).
Proof. cbn [run]. destruct (step e s), (run evs _). done. Qed.

Lemma requests_app l1 l2 : requests (l1 ++ l2) = (requests l1 + requests l2)%nat.
Proof. unfold requests. by rewrite filter_app, length_app. Qed.

Lemma settled_app l1 l2 : settled (l1 ++ l2) = (settled l1 + settled l2)%nat.
Proof. unfold settled. by rewrite filter_app, length_app. Qed.

Lemma step_in_flight e s :
  let in_flight (s : t) := if isSummarizing s then 1%nat else 0%nat in
  (requests (step e s).2 + in_flight s
   = settled (step e s).2 + in_flight (step e s).1)%nat.
Proof.
destruct s as [a en busy l]. destruct e as [|[c|]]; cbn.
- destruct en, a, busy; done.
- destruct busy; done.
- destruct busy; done.
Qed.

Lemma run_in_flight evs : ∀ s,
  let in_flight (s : t) := if isSummarizing s then 1%nat else 0%nat in
  (requests (run evs s).2 + in_flight s
   = settled (run evs s).2 + in_flight (run evs s).1)%nat.
Proof.
induction evs as [|e evs IH]; intros s; [done|].
cbv zeta in *. rewrite run_cons. cbn [fst snd].
rewrite requests_app, settled_app.
pose proof (step_in_flight e s) as Hs. cbv zeta in Hs.
specialize (IH (step e s).1). lia.
Qed.

(** X16 -- [summarizeFrame], the guard on [isSummarizing]: whatever the
    calls and however the describer answers, the requests issued are the
    requests that have ended plus the one in flight, if there is one; so
    at no time are two describer requests in flight. *)
Theorem describer_requests_never_overlap apiKey evs :
  let s := (run evs (new apiKey)).1 in
  let log := (run evs (new apiKey)).2 in
  requests log = (settled log + (if isSummarizing s then 1 else 0))%nat ∧
  (requests log ≤ settled log + 1)%nat.
Proof.
intros s log. pose proof (run_in_flight evs (new apiKey)) as H.
cbv beta zeta in H. fold s log in H.
assert (isSummarizing (new apiKey) = false) as Hnew
  by (unfold new; by destruct (JS.truthy_opt apiKey)).
rewrite Hnew in H. destruct (isSummarizing s); lia.
Qed.

Lemma step_without_key e :
  step e (mk false false false "")
  = (mk false false false "",
     match e with Call => [CallReturned ""] | Settle _ => [] end).
Proof. by destruct e. Qed.

(** X17 -- the constructor and [summarizeFrame] without a key: a
    summarizer made without an API key, or with an empty one, is not
    enabled; it never issues a describer request, every call returns the
    empty string, and its state never changes. *)
Theorem summarizer_without_key_is_inert apiKey evs :
  JS.truthy_opt apiKey = false →
  isEnabled (new apiKey) = false ∧
  (run evs (new apiKey)).1 = new apiKey ∧
  (run evs (new apiKey)).2 = replicate (calls evs) (CallReturned "") ∧
  requests (run evs (new apiKey)).2 = 0%nat.
Proof.
intros Hkey. unfold new. rewrite Hkey. split; [done|].
assert ((run evs (mk false false false "")).1 = mk false false false "" ∧
        (run evs (mk false false false "")).2
        = replicate (calls evs) (CallReturned "")) as [Hs Hl].
{ induction evs as [|e evs [IHs IHl]]; [done|].
  rewrite run_cons, step_without_key. cbn [fst snd].
  rewrite IHs, IHl. split; [done|].
  unfold calls. rewrite filter_cons. by destruct e. }
rewrite Hs, Hl. repeat split.
unfold requests. generalize (calls evs). intros n.
induction n as [|n IH]; [done|]. simpl. rewrite filter_cons.
by rewrite decide_False.
Qed.

Lemma summarizer_without_key_is_inert_witness :
  let evs := [Call; Settle Rejected; Call] in
  isEnabled (new (Some "")) = false ∧
  (run evs (new (Some ""))).1 = new (Some "") ∧
  (run evs (new (Some ""))).2 = replicate (calls evs) (CallReturned "") ∧
  requests (run evs (new (Some ""))).2 = 0%nat.
Proof.
apply (summarizer_without_key_is_inert (Some "") [Call; Settle Rejected; Call]).
reflexivity.
Defined.

End SummarizerRuns.

(** ** Registering under an id that is taken *)

Section Takeover.
Import VisionBroadcaster.

Lemma Map_set_elem_inv {V} k (v : V) (m : JS.Map V) e :
  NoDup m.*1 → e ∈ JS.Map_set k v m → e = (k, v) ∨ (e ∈ m ∧ e.1 ≠ k).
Proof.
induction m as [|[k' v'] m IH]; csimpl; intros Hnd.
- intros ->%list_elem_of_singleton. by left.
- apply NoDup_cons in Hnd as [Hk' Hnd]. case_bool_decide as Hk.
  + intros [->|Hin]%elem_of_cons; [by left|]. right.
    split; [by apply list_elem_of_further|].
    intros <-. apply Hk'. subst k'. apply list_elem_of_fmap. by exists e.
  + intros [->|Hin]%elem_of_cons.
    * right. split; [apply list_elem_of_here | done].
    * destruct (IH Hnd Hin) as [->|[? ?]]; [by left|].
      right. split; [by apply list_elem_of_further | done].
Qed.

Lemma registry_get_elem k c h :
  registry_get k h = Some c → (k, c) ∈ connectedClaws h.
Proof.
unfold registry_get.
destruct (List.find _ _) as [[k' c']|] eqn:Hfind; [|done].
intros [= <-]. apply find_some in Hfind as [Hin Hk].
apply bool_decide_eq_true in Hk. simpl in Hk. subst k'.
by apply list_elem_of_In.
Qed.

Lemma only_entry_of_socket w e0 e (m : list (string * ConnectedClaw)) :
  bound_count w m = 1%nat →
  e0 ∈ m → ws e0.2 = w → e ∈ m → ws e.2 = w → e = e0.
Proof.
unfold bound_count. intros Hone H0 Hw0 He Hw.
assert (e0 ∈ filter (λ e, ws e.2 = w) m) as F0 by by apply list_elem_of_filter.
assert (e ∈ filter (λ e, ws e.2 = w) m) as F by by apply list_elem_of_filter.
destruct (filter (λ e, ws e.2 = w) m) as [|x [|y l]]; try done.
apply list_elem_of_singleton in F0, F. congruence.
Qed.

(** X18 -- [handleClawMessage], case ["register"], on an id that is
    taken: a registration is accepted from any open socket under any id.
    When the id is held by another socket, the entry passes to the
    newcomer.  A holder that had no other id stays connected and open but
    is in the registry no more: it is sent neither the [state] message
    that announces the newcomer nor any later broadcast, only the answers
    to its own pings. *)
Theorem registering_a_taken_id_silences_its_holder
    apiKey heap history w0 w1 k p0 clawName sid content now evs :
  let h := run history (new apiKey heap) in
  registry_get k h = Some (mkClaw w0 p0) →
  bound_count w0 (connectedClaws h) = 1%nat →
  ws_open (sockets h) w0 = true →
  ws_open (sockets h) w1 = true →
  w1 ≠ w0 →
  JS.truthy_string k = true →
  JS.truthy_string clawName = true →
  Forall (λ en, registers w0 en.1 = false ∧ closes w0 en.1 = false) evs →
  let h1 :=
    step (Message w1 (Some (mkInbound "register" (Some k) (Some clawName)
                                      sid content))) now h in
  let h' := run evs h1 in
  (∃ p, registry_get k h1 = Some (mkClaw w1 p)) ∧
  ws_open (sockets h') w0 = true ∧
  unbound w0 h' ∧
  outbox h' w0 = outbox h w0 ++ (MsgPong <$> pings_of w0 evs).
Proof.
intros h Hget Hone Hopen0 Hopen1 Hne Hk Hname Hevs h1 h'.
assert (registry_inv h) as [Hnd _] by apply run_registry_inv, new_registry_inv.
destruct (register_on_open_socket h w1 k clawName sid content now
            Hnd Hopen1 Hk Hname) as (Hget1 & _).
fold h1 in Hget1. split; [by eexists|].
assert (ws_open (sockets h1) w0 = true ∧ unbound w0 h1
        ∧ outbox h1 w0 = outbox h w0) as (O1 & U1 & B1).
{ subst h1. cbn [step].
  pose proof Hopen1 as Hs1. apply ws_open_state in Hs1. rewrite Hs1.
  unfold handleClawMessage. cbn [in_type in_clawId in_clawName in_sessionId].
  rewrite String.eqb_refl, Hk, Hname. cbn [negb orb].
  unfold broadcastState.
  match goal with
  | |- context [broadcast ?m ?h2] =>
      assert (unbound w0 h2) as U2; [|destruct (broadcast_other m w0 h2 U2) as [E U]]
  end.
  - unfold unbound. cbn [connectedClaws set_connectedClaws set_pendingConnections].
    apply Forall_forall. intros e He.
    apply Map_set_elem_inv in He as [->|[He Hk']]; [done| |done].
    intros Hw. apply Hk'.
    by rewrite (only_entry_of_socket w0 (k, mkClaw w0 p0) e (connectedClaws h)
                  Hone (registry_get_elem _ _ _ Hget) eq_refl He Hw).
  - destruct (same_socket _ _ _ E) as [-> ->]. done. }
destruct (run_unregistered w0 evs h1 O1 U1 Hevs) as (O & U & B).
fold h' in O, U, B. by rewrite B, B1.
Qed.

Lemma registering_a_taken_id_silences_its_holder_witness :
  let h := run [ (Connection "192.168.1.5", 1);
                 (Message 0%nat (register_msg "claw-1" "Claw"), 2);
                 (Connection "203.0.113.7", 3) ] (new None blank_heap) in
  let evs := [(BroadcastChatMessage hello_chat, 5); (Message 0%nat ping_msg, 6)] in
  let h1 := step (Message 1%nat (register_msg "claw-1" "Impostor")) 4 h in
  let h' := run evs h1 in
  (∃ p, registry_get "claw-1" h1 = Some (mkClaw 1%nat p)) ∧
  ws_open (sockets h') 0%nat = true ∧
  unbound 0%nat h' ∧
  outbox h' 0%nat = outbox h 0%nat ++ (MsgPong <$> pings_of 0%nat evs).
Proof.
apply (registering_a_taken_id_silences_its_holder None blank_heap
         [ (Connection "192.168.1.5", 1);
           (Message 0%nat (register_msg "claw-1" "Claw"), 2);
           (Connection "203.0.113.7", 3) ]
         0%nat 1%nat "claw-1"
         (mkParticipant "claw-1" "Claw" "" 2 2 (Some "192.168.1.5") true)
         "Impostor" None None 4
         [(BroadcastChatMessage hello_chat, 5); (Message 0%nat ping_msg, 6)]);
  try reflexivity.
- done.
- repeat constructor.
Defined.

End Takeover.

(** ** The transcript buffer: nothing lost, nothing made up *)

Section Conservation.
Import TwitchAudioCapture.

Lemma killProcess_emitted proc now s :
  emitted (killProcess proc now s) = emitted s.
Proof. unfold killProcess. by destruct (_ || _). Qed.

Lemma kill_all_emitted now l : ∀ s,
  emitted (foldl (λ acc proc, killProcess proc now acc) s l) = emitted s.
Proof.
induction l as [|p l IH]; intros s; simpl; [done|].
by rewrite IH, killProcess_emitted.
Qed.

Lemma stop_resume_emitted s : emitted (stop_resume s) = emitted s.
Proof. unfold stop_resume. simpl. by destruct (bufferTimeout s). Qed.

Lemma cleanup_emitted proc s : emitted (cleanup proc s) = emitted s.
Proof.
unfold cleanup, resolve_kill. destruct (_ && _); [|done].
by rewrite stop_resume_emitted.
Qed.

Lemma stop_transcriptBuffer now s :
  transcriptBuffer (stop now s) = transcriptBuffer s.
Proof.
unfold stop. case_bool_decide; rewrite ?stop_resume_transcriptBuffer; simpl;
  by rewrite kill_all_transcriptBuffer.
Qed.

Lemma stop_emitted now s : emitted (stop now s) = emitted s.
Proof.
unfold stop. case_bool_decide; rewrite ?stop_resume_emitted; simpl;
  by rewrite kill_all_emitted.
Qed.

Lemma flushBuffer_effect now s :
  Forall is_fragment (transcriptBuffer s) →
  let b := transcriptBuffer s in
  (b = [] ∧ flushBuffer now s = s) ∨
  (b ≠ [] ∧ transcriptBuffer (flushBuffer now s) = [] ∧
   emitted (flushBuffer now s) = emitted s ++ [mkTranscript (JS.join " " b) now]).
Proof.
intros Hfr b. destruct (transcriptBuffer s) as [|f l] eqn:E.
- left. split; [done|]. unfold flushBuffer. by rewrite E.
- right. split; [by subst b|]. rewrite flushBuffer_fragments; rewrite ?E; try done.
Qed.

Lemma step_buffer_emitted e now s :
  Forall is_fragment (transcriptBuffer s) →
  let b := transcriptBuffer s ++ accepted [(e, now)] in
  (transcriptBuffer (step e now s) = b ∧ emitted (step e now s) = emitted s) ∨
  (b ≠ [] ∧ transcriptBuffer (step e now s) = [] ∧
   emitted (step e now s) = emitted s ++ [mkTranscript (JS.join " " b) now]).
Proof.
intros Hfr b. subst b.
destruct e as [response|id|proc code signal|]; unfold accepted; csimpl.
- unfold transcribed.
  destruct (isValidTranscript (JS.trim response)) eqn:Ev; csimpl;
    [|left; by rewrite app_nil_r].
  pose proof (isValidTranscript_fragment _ Ev) as Hfrag.
  unfold addToBuffer.
  set (s1 := if bool_decide (length (transcriptBuffer s) = 0%nat)
             then set_bufferStartTime now s else s).
  assert (transcriptBuffer s1 = transcriptBuffer s ∧ emitted s1 = emitted s)
    as [E1 E1'] by (unfold s1; by case_bool_decide).
  set (s2 := set_transcriptBuffer (transcriptBuffer s1 ++ [JS.trim response]) s1).
  case_bool_decide as Hage.
  + right. split; [by destruct (transcriptBuffer s)|].
    rewrite flushBuffer_fragments.
    * simpl. by rewrite E1, E1'.
    * simpl. by destruct (transcriptBuffer s1).
    * simpl. rewrite E1. apply Forall_app. split; [done|]. by constructor.
  + left. unfold setTimeout. simpl.
    destruct (bufferTimeout s1); simpl; by rewrite E1, E1'.
- rewrite app_nil_r.
  destruct (timers s !! id) as [[due cb]|]; [|by left].
  case_bool_decide; [|by left]. destruct cb as [|proc|proc]; simpl.
  + match goal with
    | |- context [flushBuffer now ?s0] =>
        destruct (flushBuffer_effect now s0 Hfr) as [[Hb ->]|(Hb & Hc & He)]
    end; [by left|right]. done.
  + left. by destruct (_ && _).
  + left. by rewrite cleanup_transcriptBuffer, cleanup_emitted.
- rewrite app_nil_r. left.
  destruct (Node.handle _); [|done].
  case_bool_decide; [|done].
  by rewrite cleanup_transcriptBuffer, cleanup_emitted.
- rewrite app_nil_r. left. by rewrite stop_transcriptBuffer, stop_emitted.
Qed.

Lemma accepted_cons e now evs :
  accepted ((e, now) :: evs) = accepted [(e, now)] ++ accepted evs.
Proof. unfold accepted. csimpl. by destruct (match e with Transcribed _ => _ | _ => _ end). Qed.

Lemma run_conserves evs : ∀ s past groups,
  Forall is_fragment (transcriptBuffer s) →
  concat groups ++ transcriptBuffer s = past →
  text <$> emitted s = JS.join " " <$> groups →
  Forall (λ g, g ≠ []) groups →
  ∃ groups',
    concat groups' ++ transcriptBuffer (run evs s) = past ++ accepted evs ∧
    text <$> emitted (run evs s) = JS.join " " <$> groups' ∧
    Forall (λ g, g ≠ []) groups'.
Proof.
induction evs as [|[e now] evs IH]; intros s past groups Hfr Hpast Hem Hne.
- exists groups. by rewrite app_nil_r.
- cbn [run]. rewrite accepted_cons, app_assoc.
  pose proof (step_fragments e now s Hfr) as Hfr'.
  destruct (step_buffer_emitted e now s Hfr) as [[Hb He]|(Hb & Hc & He)].
  + apply (IH _ _ groups); try done.
    * by rewrite Hb, app_assoc, Hpast.
    * by rewrite He.
  + apply (IH _ _ (groups ++ [transcriptBuffer s ++ accepted [(e, now)]]));
      try done.
    * rewrite Hc, app_nil_r, concat_app. simpl.
      by rewrite app_nil_r, app_assoc, Hpast.
    * rewrite He, !fmap_app, Hem. done.
    * apply Forall_app. split; [done|]. by constructor.
Qed.

(** X19 -- [transcribeChunk], [addToBuffer] and [flushBuffer]: whatever
    the order of answers, timers, exits and stops, the fragments that
    were let through are conserved.  Cut into consecutive groups, none
    of them empty, they are the transcripts handed to the handlers, each
    one a group joined by single spaces, followed by what the buffer
    still holds: no fragment is lost, repeated or moved. *)
Theorem fragments_are_conserved heap evs :
  let s := run evs (new heap) in
  ∃ groups,
    concat groups ++ transcriptBuffer s = accepted evs ∧
    text <$> emitted s = JS.join " " <$> groups ∧
    Forall (λ g, g ≠ []) groups.
Proof.
intros s. by apply (run_conserves evs (new heap) [] []).
Qed.

End Conservation.

(** ** The debounce: how long a fragment can wait *)

Section FlushDeadline.
Import TwitchAudioCapture.

Lemma flushBuffer_frame now s :
  stopAwaiting (flushBuffer now s) = stopAwaiting s ∧
  nextTimer (flushBuffer now s) = nextTimer s.
Proof.
unfold flushBuffer. case_bool_decide; [done|]. by case_bool_decide.
Qed.

Lemma flushBuffer_flush_armed now s :
  stopAwaiting s = false → timers_fresh s →
  stopAwaiting (flushBuffer now s) = false ∧ timers_fresh (flushBuffer now s)
  ∧ flush_armed (flushBuffer now s).
Proof.
intros Hstop Hfresh.
destruct (flushBuffer_clears now s) as (Hb & _ & Ht).
destruct (flushBuffer_frame now s) as [Ha Hn].
split; [congruence|]. split.
- intros id Hid. rewrite Ht. apply Hfresh. lia.
- intros Hne. by rewrite Hb in Hne.
Qed.

Lemma step_flush_armed e now s :
  is_stop e = false →
  stopAwaiting s = false ∧ timers_fresh s ∧ flush_armed s →
  stopAwaiting (step e now s) = false ∧ timers_fresh (step e now s)
  ∧ flush_armed (step e now s).
Proof.
intros He (Hstop & Hfresh & Harmed).
destruct e as [response|id|proc code signal|]; [| | |done]; cbn [step].
- unfold transcribed. destruct (isValidTranscript _); [|done].
  unfold addToBuffer.
  set (s1 := if bool_decide (length (transcriptBuffer s) = 0%nat)
             then set_bufferStartTime now s else s).
  assert (stopAwaiting s1 = false ∧ timers s1 = timers s
          ∧ nextTimer s1 = nextTimer s ∧ transcriptBuffer s1 = transcriptBuffer s
          ∧ bufferTimeout s1 = bufferTimeout s)
    as (A1 & T1 & N1 & B1 & O1) by (unfold s1; by case_bool_decide).
  set (s2 := set_transcriptBuffer (transcriptBuffer s1 ++ [JS.trim response]) s1).
  case_bool_decide as Hage.
  + apply flushBuffer_flush_armed; [done|].
    intros id Hid. simpl. rewrite T1. apply Hfresh. simpl in Hid. lia.
  + assert (now - bufferStartTime s1 < MAX_BUFFER_TIME_MS) as Hdue.
    { change (bufferStartTime s2) with (bufferStartTime s1) in Hage. lia. }
    set (s3 := match bufferTimeout s2 with
               | Some id => clearTimeout id s2
               | None => s2
               end).
    assert (stopAwaiting s3 = false ∧ nextTimer s3 = nextTimer s
            ∧ bufferStartTime s3 = bufferStartTime s1
            ∧ ∀ id, (nextTimer s ≤ id)%nat → timers s3 !! id = None)
      as (A3 & N3 & S3 & T3).
    { subst s3. destruct (bufferTimeout s2) as [old|]; simpl;
        repeat split; try done; intros id Hid; rewrite T1;
        rewrite ?lookup_delete_None; auto. }
    unfold setTimeout. cbn [stopAwaiting timers nextTimer bufferTimeout
      bufferStartTime transcriptBuffer set_bufferTimeout set_nextTimer set_timers].
    split; [done|]. split.
    * intros id Hid. cbn [nextTimer timers set_bufferTimeout set_nextTimer
        set_timers] in *. rewrite N3 in *.
      rewrite lookup_insert_ne by lia. apply T3. lia.
    * intros _. exists (nextTimer s3), (now + BUFFER_DELAY_MS).
      cbn [bufferTimeout timers bufferStartTime set_bufferTimeout set_nextTimer
        set_timers]. rewrite lookup_insert_eq, S3. repeat split. lia.
- destruct (timers s !! id) as [[due cb]|] eqn:Hid; [|done].
  case_bool_decide; [|done].
  assert (timers_fresh (set_timers (delete id (timers s)) s)) as Hfresh'.
  { intros id' Hid'. simpl. apply lookup_delete_None. right. by apply Hfresh. }
  assert (cb ≠ FlushBuffer → flush_armed (set_timers (delete id (timers s)) s))
    as Harmed'.
  { intros Hcb Hne. destruct (Harmed Hne) as (id' & due' & Hb & Ht & Hd).
    exists id', due'. repeat split; try done. simpl.
    rewrite lookup_delete_ne; [done|]. intros <-. congruence. }
  destruct cb as [|proc|proc]; cbn [run_callback].
  + by apply flushBuffer_flush_armed.
  + destruct (_ && _); (split; [done|]); (split; [done|]); by apply Harmed'.
  + unfold cleanup, resolve_kill. cbn [stopAwaiting set_killPending
      set_activeProcesses set_timers]. rewrite Hstop. cbn [andb].
    split; [done|]. split; [done|]. by apply Harmed'.
- destruct (Node.handle _); [|done]. case_bool_decide; [|done].
  unfold cleanup, resolve_kill. cbn [stopAwaiting set_killPending
    set_activeProcesses set_exitListeners set_procs]. rewrite Hstop. cbn [andb].
  done.
Qed.

Lemma run_flush_armed evs : ∀ s,
  Forall (λ en, is_stop en.1 = false) evs →
  stopAwaiting s = false ∧ timers_fresh s ∧ flush_armed s →
  stopAwaiting (run evs s) = false ∧ timers_fresh (run evs s)
  ∧ flush_armed (run evs s).
Proof.
induction evs as [|[e now] evs IH]; intros s Hevs Hinv; [done|].
apply Forall_cons in Hevs as [He Hevs]. cbn [run].
by apply IH, step_flush_armed.
Qed.

(** X20 -- [addToBuffer] and [flushBuffer], the two delays: while [stop]
    is not called, a buffer that holds fragments always has its debounce
    timer armed, and that timer is due less than 4 seconds (the maximal
    buffer time plus the debounce delay) after the first of these
    fragments came in.  When the timer fires at that time the buffer is
    emptied and its fragments are handed to the handlers as one
    transcript. *)
Theorem buffered_fragments_are_due_within_4_seconds heap evs :
  Forall (λ en, is_stop en.1 = false) evs →
  let s := run evs (new heap) in
  transcriptBuffer s ≠ [] →
  ∃ id due,
    bufferTimeout s = Some id ∧
    timers s !! id = Some (due, FlushBuffer) ∧
    due < bufferStartTime s + 4000 ∧
    transcriptBuffer (step (TimerFires id) due s) = [] ∧
    emitted (step (TimerFires id) due s)
    = emitted s ++ [mkTranscript (JS.join " " (transcriptBuffer s)) due].
Proof.
intros Hevs s Hne.
destruct (run_flush_armed evs (new heap) Hevs) as (_ & _ & Harmed).
{ split; [done|]. split; [by intros id _ | by intros ?]. }
destruct (Harmed Hne) as (id & due & Hb & Ht & Hd).
assert (Forall is_fragment (transcriptBuffer s)) as Hfr
  by by apply run_fragments.
exists id, due. split; [done|]. split; [done|]. split.
{ unfold MAX_BUFFER_TIME_MS, BUFFER_DELAY_MS in Hd. fold s in Hd. lia. }
fold s in Ht, Hb. cbn [step]. rewrite Ht, bool_decide_eq_true_2 by lia.
cbn [run_callback]. by rewrite flushBuffer_fragments.
Qed.

Lemma buffered_fragments_are_due_within_4_seconds_witness :
  let s := run steady_fragments (new all_running) in
  ∃ id due,
    bufferTimeout s = Some id ∧
    timers s !! id = Some (due, FlushBuffer) ∧
    due < bufferStartTime s + 4000 ∧
    transcriptBuffer (step (TimerFires id) due s) = [] ∧
    emitted (step (TimerFires id) due s)
    = emitted s ++ [mkTranscript (JS.join " " (transcriptBuffer s)) due].
Proof.
apply (buffered_fragments_are_due_within_4_seconds all_running steady_fragments).
- repeat constructor.
- done.
Defined.

End FlushDeadline.

(** ** Stopping the audio capture *)

Section AudioStop.
Import TwitchAudioCapture.











Lemma killProcess_give_up t0 proc s :
  (∀ p, p ∈ killPending s →
        ∃ id, (id < nextTimer s)%nat ∧ timers s !! id = Some (t0 + 3000, GiveUp p)) →
  let s' := killProcess proc t0 s in
  (∀ p, p ∈ killPending s' →
        ∃ id, (id < nextTimer s')%nat ∧ timers s' !! id = Some (t0 + 3000, GiveUp p)) ∧
  stopsReturned s' = stopsReturned s.
Proof.
intros Hall s'. subst s'. unfold killProcess. destruct (_ || _); [done|].
unfold setTimeout. simpl. split; [|done].
intros p [Hp|Hq%list_elem_of_singleton]%elem_of_app; [|subst p].
- destruct (Hall p Hp) as (id & Hlt & Hid). exists id. split; [lia|].
  by rewrite !lookup_insert_ne by lia.
- exists (S (nextTimer s)). split; [lia|]. by rewrite lookup_insert_eq.
Qed.

Lemma kill_all_give_up t0 l : ∀ s,
  (∀ p, p ∈ killPending s →
        ∃ id, (id < nextTimer s)%nat ∧ timers s !! id = Some (t0 + 3000, GiveUp p)) →
  let s' := foldl (λ acc proc, killProcess proc t0 acc) s l in
  (∀ p, p ∈ killPending s' →
        ∃ id, (id < nextTimer s')%nat ∧ timers s' !! id = Some (t0 + 3000, GiveUp p)) ∧
  stopsReturned s' = stopsReturned s.
Proof.
induction l as [|q l IH]; intros s Hall; [done|].
cbn [foldl]. destruct (killProcess_give_up t0 q s Hall) as [Hall' Hr].
destruct (IH _ Hall') as [Hall'' Hr']. split; [done|congruence].
Qed.

Lemma stop_resume_returned s :
  killPending s = [] →
  stop_has_returned (stopsReturned s) (stop_resume s).
Proof.
intros Hp. unfold stop_has_returned, stop_resume. simpl.
by destruct (bufferTimeout s).
Qed.

Lemma stop_begins t0 s :
  killPending s = [] →
  stop_has_returned (stopsReturned s) (stop t0 s) ∨
  (stopsReturned (stop t0 s) = stopsReturned s ∧ stop_is_capped t0 (stop t0 s)).
Proof.
intros Hp. unfold stop.
destruct (kill_all_give_up t0 (activeProcesses (set_isRunning false s))
            (set_isRunning false s)) as [Hall Hr].
{ simpl. rewrite Hp. by intros p ?%elem_of_nil. }
set (s2 := foldl _ _ _) in *. case_bool_decide as Hnone.
- left. replace (stopsReturned s) with (stopsReturned (set_stopAwaiting true s2))
    by done.
  by apply stop_resume_returned.
- right. split; [done|]. split; [done|]. split; [done|].
  intros p Hin. destruct (Hall p Hin) as (id & _ & Hid). by exists id.
Qed.

Lemma cleanup_cases t0 n proc s :
  stopsReturned s = n →
  stopAwaiting s = true →
  (∀ p, p ∈ Set_delete proc (killPending s) →
        ∃ id, timers s !! id = Some (t0 + 3000, GiveUp p)) →
  stop_has_returned n (cleanup proc s) ∨
  (stopsReturned (cleanup proc s) = n ∧ stop_is_capped t0 (cleanup proc s)).
Proof.
intros Hn Hs Hall. unfold cleanup, resolve_kill.
cbn [stopAwaiting killPending set_killPending set_activeProcesses]. rewrite Hs.
cbn [andb]. case_bool_decide as Hnone.
- left. subst n.
  match goal with |- stop_has_returned _ (stop_resume ?s0) =>
    change (stopsReturned s) with (stopsReturned s0) end.
  by apply stop_resume_returned.
- right. split; [done|]. split; [done|]. split; [done|]. exact Hall.
Qed.

Lemma cleanup_returned n proc s :
  stop_has_returned n s → stop_has_returned n (cleanup proc s).
Proof.
intros (Hs & Hp & Hr & Ha). unfold cleanup, resolve_kill.
cbn [stopAwaiting killPending set_killPending set_activeProcesses]. rewrite Hs.
cbn [andb]. unfold stop_has_returned. simpl. rewrite Hp, Ha. done.
Qed.

Lemma flushBuffer_stop_fields now s :
  stopAwaiting (flushBuffer now s) = stopAwaiting s ∧
  killPending (flushBuffer now s) = killPending s ∧
  stopsReturned (flushBuffer now s) = stopsReturned s ∧
  activeProcesses (flushBuffer now s) = activeProcesses s ∧
  timers (flushBuffer now s) = timers s.
Proof.
unfold flushBuffer. case_bool_decide; [done|]. by case_bool_decide.
Qed.

Lemma step_stop_progress t0 n e now s :
  is_stop e = false →
  is_transcribed e = false →
  stop_has_returned n s ∨ (stopsReturned s = n ∧ stop_is_capped t0 s) →
  stop_has_returned n (step e now s) ∨
  (stopsReturned (step e now s) = n ∧ stop_is_capped t0 (step e now s)).
Proof.
intros He1 He2 Hinv.
destruct e as [|id|proc code signal|]; [done| | |done]; cbn [step].
- destruct (timers s !! id) as [[due cb]|] eqn:Hid; [|done].
  case_bool_decide; [|done].
  destruct Hinv as [Hret|(Hn & Hs & Hne & Hall)].
  + left. destruct cb as [|proc|proc]; cbn [run_callback].
    * destruct (flushBuffer_stop_fields now (set_timers (delete id (timers s)) s))
        as (E1 & E2 & E3 & E4 & _).
      unfold stop_has_returned. by rewrite E1, E2, E3, E4.
    * by destruct (_ && _).
    * by apply cleanup_returned.
  + assert (∀ p, GiveUp p ≠ cb → p ∈ killPending s →
                 ∃ id', delete id (timers s) !! id' = Some (t0 + 3000, GiveUp p))
      as Hkeep.
    { intros p Hcb Hin. destruct (Hall p Hin) as (id' & Hid'). exists id'.
      rewrite lookup_delete_ne; [done|]. intros <-. congruence. }
    destruct cb as [|proc|proc]; cbn [run_callback].
    * right.
      destruct (flushBuffer_stop_fields now (set_timers (delete id (timers s)) s))
        as (E1 & E2 & E3 & E4 & E5).
      unfold stop_is_capped. rewrite E1, E2, E3, E5. repeat split; try done.
      intros p Hin. by apply Hkeep.
    * right. destruct (_ && _); (split; [done|]); (split; [done|]);
        (split; [done|]); intros p Hin; by apply Hkeep.
    * apply cleanup_cases; try done.
      intros p [Hp Hin]%list_elem_of_filter. apply Hkeep; [congruence|done].
- destruct (Node.handle _); [|done]. case_bool_decide; [|done].
  destruct Hinv as [Hret|(Hn & Hs & Hne & Hall)].
  + left. by apply cleanup_returned.
  + apply cleanup_cases; try done.
    intros p [Hp Hin]%list_elem_of_filter. by apply Hall.
Qed.

Lemma capped_progress t0 n : ∀ k s,
  (length (killPending s) ≤ k)%nat →
  stopsReturned s = n →
  stop_is_capped t0 s →
  ∃ evs, Forall (fires_at (t0 + 3000)) evs ∧ stop_has_returned n (run evs s).
Proof.
induction k as [|k IH]; intros s Hlen Hn (Hs & Hne & Hall).
- destruct (killPending s); [done|simpl in Hlen; lia].
- destruct (killPending s) as [|p rest] eqn:Hp; [done|].
  destruct (Hall p) as (id & Hid); [apply list_elem_of_here|].
  assert (stop_has_returned n (step (TimerFires id) (t0 + 3000) s) ∨
          (stopsReturned (step (TimerFires id) (t0 + 3000) s) = n
           ∧ stop_is_capped t0 (step (TimerFires id) (t0 + 3000) s))) as Hstep.
  { apply step_stop_progress; try done. right. split; [done|].
    unfold stop_is_capped. by rewrite Hp. }
  destruct Hstep as [Hret|[Hn' Hcap]].
  + exists [(TimerFires id, t0 + 3000)]. split; [|done].
    constructor; [by exists id|constructor].
  + destruct (IH (step (TimerFires id) (t0 + 3000) s)) as (evs & Hevs & Hret);
      try done.
    * cbn [step]. rewrite Hid, bool_decide_eq_true_2 by lia. cbn [run_callback].
      unfold cleanup, resolve_kill.
      cbn [stopAwaiting killPending set_killPending set_activeProcesses set_timers].
      rewrite Hs, Hp. cbn [andb].
      assert (length (Set_delete p (p :: rest)) ≤ k)%nat as Hshort.
      { unfold Set_delete. rewrite filter_cons, decide_False by (by intros ?).
        etrans; [apply length_filter|]. simpl in Hlen. lia. }
      case_bool_decide as Hnone; [|done].
      unfold stop_resume. simpl. rewrite Hnone.
      destruct (bufferTimeout s); simpl; lia.
    * exists ((TimerFires id, t0 + 3000) :: evs). split; [|done].
      constructor; [by exists id|done].
Qed.

(** X22 -- [stop] and [killProcess], the cap: from the call of [stop] at
    time [t0] on, made while no earlier call of [stop] is still waiting,
    whichever timers fire and whichever processes exit,
    [stop] has returned, with no process tracked any more, or it waits
    and every process it waits for has its 3-second timer armed, due at
    [t0 + 3000]; and then it is enough that those timers fire: there is
    a run of timers firing at [t0 + 3000] after which [stop] has
    returned, whether the processes have exited or not. *)
Theorem audio_stop_returns_within_3_seconds t0 s0 evs :
  killPending s0 = [] →
  Forall (λ en, is_stop en.1 = false ∧ is_transcribed en.1 = false) evs →
  let n := stopsReturned s0 in
  let s := run evs (stop t0 s0) in
  stop_has_returned n s ∨
  (stopsReturned s = n ∧ stop_is_capped t0 s ∧
   ∃ timeouts, Forall (fires_at (t0 + 3000)) timeouts ∧
               stop_has_returned n (run timeouts s)).
Proof.
intros Hp Hevs n s.
assert (stop_has_returned n s ∨ (stopsReturned s = n ∧ stop_is_capped t0 s))
  as [Hret|[Hn Hcap]].
{ subst s. pose proof (stop_begins t0 s0 Hp) as Hstart. fold n in Hstart.
  revert Hstart. generalize (stop t0 s0).
  induction Hevs as [|[e now] evs [He1 He2] _ IH]; intros s Hinv; [done|].
  cbn [run]. by apply IH, step_stop_progress. }
- by left.
- right. split; [done|]. split; [done|].
  by apply (capped_progress t0 n (length (killPending s))).
Qed.

Lemma audio_stop_returns_within_3_seconds_witness :
  let evs := [ (ProcExit 1%nat None (Some Node.SIGTERM), 10);
               (TimerFires 0%nat, 2000) ] in
  let s := run evs (stop 0 mid_recording) in
  stop_has_returned 0 s ∨
  (stopsReturned s = 0%nat ∧ stop_is_capped 0 s ∧
   ∃ timeouts, Forall (fires_at (0 + 3000)) timeouts ∧
               stop_has_returned 0 (run timeouts s)).
Proof.
apply (audio_stop_returns_within_3_seconds 0 mid_recording
         [ (ProcExit 1%nat None (Some Node.SIGTERM), 10);
           (TimerFires 0%nat, 2000) ]).
- reflexivity.
- repeat constructor.
Defined.

End AudioStop.

(** ** Which transcripts are let through *)

Section ValidTranscript.
Import TwitchAudioCapture.

Lemma includes_unfold s needle :
  JS.includes s needle
  = String.prefix needle s
    || match s with
       | EmptyString => false
       | String _ r => JS.includes r needle
       end.
Proof. by destruct s. Qed.

Lemma prefix_app_includes a b : ∀ s,
  String.prefix (a +:+ b) s = true → JS.includes s b = true.
Proof.
induction a as [|c a IH]; intros s.
- rewrite append_nil_l, includes_unfold. by intros ->.
- rewrite append_cons. destruct s as [|c' s]; [done|].
  cbn [String.prefix]. destruct (ascii_dec c c'); [|done].
  intros Hp. rewrite includes_unfold, (IH s Hp). apply orb_true_r.
Qed.

Lemma includes_app a b : ∀ s,
  JS.includes s (a +:+ b) = true → JS.includes s b = true.
Proof.
induction s as [|c s IH]; rewrite includes_unfold.
- rewrite orb_false_r. apply prefix_app_includes.
- intros [Hp|Hr]%orb_true_iff; [by apply (prefix_app_includes a)|].
  rewrite includes_unfold, (IH Hr). apply orb_true_r.
Qed.

(** X23 -- [isValidTranscript]: a text is let through exactly when,
    trimmed, it is not empty and, in lower case, it contains none of
    ["thanks for watching"], ["thank you for watching"] and
    ["subscribe"]; the fourth phrase of the list, ["like and subscribe"],
    never decides.  Trimming the text first makes no difference. *)
Theorem isValidTranscript_spec text :
  let lowerText := JS.toLowerCase (JS.trim text) in
  (isValidTranscript text = true
   ↔ JS.trim text ≠ "" ∧
     JS.includes lowerText "thanks for watching" = false ∧
     JS.includes lowerText "thank you for watching" = false ∧
     JS.includes lowerText "subscribe" = false) ∧
  isValidTranscript (JS.trim text) = isValidTranscript text.
Proof.
intros lowerText. split.
- unfold isValidTranscript. fold lowerText. case_bool_decide as Hlen.
  + split; [done|]. intros [Hne _]. by destruct (JS.trim text).
  + cbn [existsb].
    destruct (JS.includes lowerText "thanks for watching") eqn:E1;
      [split; [done|by intros (_ & ? & _)]|].
    destruct (JS.includes lowerText "thank you for watching") eqn:E2;
      [split; [done|by intros (_ & _ & ? & _)]|].
    destruct (JS.includes lowerText "subscribe") eqn:E3;
      [split; [done|by intros (_ & _ & _ & ?)]|].
    destruct (JS.includes lowerText "like and subscribe") eqn:E4.
    * apply (includes_app "like and " "subscribe") in E4. congruence.
    * split; [|done]. intros _. repeat split. intros Ht. by rewrite Ht in Hlen.
- unfold isValidTranscript. by rewrite trim_idem.
Qed.

End ValidTranscript.

(** ** The video capture: [stop] and [isStreamLive] *)

Section StreamCapture.
Import TwitchStreamCapture.

Lemma kill_tracked_lookup l : ∀ (ps : Pid → Node.ChildProcess) p,
  foldl (λ (ps : Pid → Node.ChildProcess) proc,
           if negb (Node.killed (ps proc))
           then <[proc := Node.kill Node.SIGTERM (ps proc)]> ps
           else ps) ps l p
  = if bool_decide (p ∈ l) && negb (Node.killed (ps p))
    then Node.kill Node.SIGTERM (ps p) else ps p.
Proof.
induction l as [|q l IH]; intros ps p; [done|].
cbn [foldl]. rewrite IH. destruct (decide (q = p)) as [->|Hne].
- rewrite (bool_decide_eq_true_2 (p ∈ p :: l)) by apply list_elem_of_here.
  destruct (Node.killed (ps p)) eqn:Hk; cbn [negb andb].
  + rewrite Hk. cbn [negb]. by rewrite andb_false_r.
  + rewrite fn_lookup_insert. set (k := Node.kill Node.SIGTERM (ps p)).
    assert (Node.killed k = true ∨ k = ps p) as [Hk'|Hk'].
    { unfold k, Node.kill. destruct (Node.handle (ps p)); [by left|by right]. }
    * rewrite Hk'. cbn [negb]. by rewrite andb_false_r.
    * rewrite Hk'. fold k. rewrite Hk'. by destruct (_ && _).
- assert ((if negb (Node.killed (ps q))
           then <[q := Node.kill Node.SIGTERM (ps q)]> ps else ps) p = ps p) as ->.
  { destruct (negb _); [by rewrite fn_lookup_insert_ne|done]. }
  rewrite (bool_decide_ext (p ∈ q :: l) (p ∈ l)); [done|].
  rewrite elem_of_cons. split; [by intros [?|?]|by right].
Qed.

(** X24 -- [TwitchStreamCapture.stop]: [kill()] is called once, with
    its default [SIGTERM], on every tracked process whose [killed] flag
    is not set, which delivers the signal unless the process has exited;
    a process that is not tracked, or that has been signalled before, is
    left alone, and no other signal is sent.  The capture is marked as not
    running, its interval is cleared and no process is tracked any more;
    a second [stop] changes nothing. *)
Theorem stream_stop_signals_each_tracked_process_once s :
  let s' := stop s in
  (∀ p, procs s' p
        = if bool_decide (p ∈ activeProcesses s) && negb (Node.killed (procs s p))
          then Node.kill Node.SIGTERM (procs s p) else procs s p) ∧
  isRunning s' = false ∧ captureInterval s' = None ∧ activeProcesses s' = [] ∧
  (∀ id, captureInterval s = Some id → id ∉ intervals s') ∧
  stop s' = s'.
Proof.
intros s'. split; [intros p; apply kill_tracked_lookup|].
repeat split. intros id Hid. subst s'. unfold stop. cbn [intervals]. rewrite Hid.
rewrite list_elem_of_filter. by intros [? _].
Qed.


Lemma kill_signalled_once p :
  signalled_once p → signalled_once (Node.kill Node.SIGTERM p) ∨ Node.killed p = true.
Proof.
unfold signalled_once, Node.kill. intros Hp.
destruct (Node.killed p) eqn:Hk; [by right|left].
destruct (Node.handle p); simpl; [by rewrite Hp | by rewrite Hk].
Qed.

Lemma stop_signalled_once s proc :
  signalled_once (procs s proc) → signalled_once (procs (stop s) proc).
Proof.
intros Hp. unfold stop. cbn [procs]. rewrite kill_tracked_lookup.
destruct (bool_decide _ && negb _) eqn:Hc; [|done].
apply andb_true_iff in Hc as [_ Hk]. apply negb_true_iff in Hk.
destruct (kill_signalled_once _ Hp) as [?|?]; [done|congruence].
Qed.

Lemma cleanup_unresolved result s pr :
  resolved pr = false →
  signalled_once (procs s (streamlink pr)) →
  let sp := cleanup result (s, pr) in
  resolved sp.2 = true ∧ answer sp.2 = Some result ∧
  streamlink sp.2 = streamlink pr ∧
  (streamlink pr ∉ activeProcesses sp.1) ∧
  signalled_once (procs sp.1 (streamlink pr)).
Proof.
intros Hr Hp. cbn [cleanup]. rewrite Hr. cbn [fst snd resolved answer streamlink
  activeProcesses procs]. repeat split.
- unfold Set_delete. rewrite list_elem_of_filter. by intros [? _].
- destruct (Node.killed (procs s (streamlink pr))) eqn:Hk; cbn [negb]; [done|].
  rewrite fn_lookup_insert.
  destruct (kill_signalled_once _ Hp) as [?|?]; [done|congruence].
Qed.

Lemma probe_step_waiting proc e sp :
  settles e = false →
  resolved sp.2 = false ∧ answer sp.2 = None ∧ streamlink sp.2 = proc ∧
  signalled_once (procs sp.1 proc) →
  let sp' := probe_step e sp in
  resolved sp'.2 = false ∧ answer sp'.2 = None ∧ streamlink sp'.2 = proc ∧
  signalled_once (procs sp'.1 proc).
Proof.
destruct sp as [s pr]. intros He (Hr & Ha & Hs & Hp). cbn [fst snd] in *.
destruct e as [code signal| | | |]; try done; cbn [probe_step fst snd procs].
- repeat split; try done. rewrite Hs, fn_lookup_insert. exact Hp.
- repeat split; try done. by apply stop_signalled_once.
Qed.

Lemma probe_step_settled proc v e sp :
  resolved sp.2 = true ∧ answer sp.2 = Some v ∧ streamlink sp.2 = proc ∧
  (proc ∉ activeProcesses sp.1) ∧ signalled_once (procs sp.1 proc) →
  let sp' := probe_step e sp in
  resolved sp'.2 = true ∧ answer sp'.2 = Some v ∧ streamlink sp'.2 = proc ∧
  (proc ∉ activeProcesses sp'.1) ∧ signalled_once (procs sp'.1 proc).
Proof.
destruct sp as [s pr]. intros (Hr & Ha & Hs & Hn & Hp). cbn [fst snd] in *.
destruct e as [code signal|code parsed| | |];
  cbn [probe_step cleanup]; rewrite ?Hr; cbn [fst snd procs activeProcesses].
- repeat split; try done. rewrite Hs, fn_lookup_insert. exact Hp.
- repeat split; try done. unfold Set_delete. rewrite list_elem_of_filter.
  by intros [? _].
- done.
- done.
- repeat split; try done; [by intros ?%elem_of_nil|by apply stop_signalled_once].
Qed.

(** X25 -- [isStreamLive]: the promise resolves once, with the verdict
    of the first of ['close'], ['error'] and the 10-second timer: [true]
    only for a ['close'] with code 0 whose output parses and lists at
    least one stream, [false] otherwise.  Until then it is pending.
    Whatever comes later, another of the three, the end of the process
    or a call of [stop], changes neither the answer nor the tracking:
    from the verdict on the process is not tracked, and at no time has
    it been sent more than one [SIGTERM]. *)
Theorem stream_probe_resolves_once proc s before e after :
  Forall (λ e, settles e = false) before →
  settles e = true →
  let waiting := probe_run before (isStreamLive proc s) in
  let settled := probe_run (before ++ e :: after) (isStreamLive proc s) in
  answer waiting.2 = None ∧
  answer settled.2 = Some (verdict e) ∧
  resolved settled.2 = true ∧
  (proc ∉ activeProcesses settled.1) ∧
  signalled_once (procs settled.1 proc).
Proof.
intros Hbefore He waiting settled.
assert (resolved waiting.2 = false ∧ answer waiting.2 = None
        ∧ streamlink waiting.2 = proc ∧ signalled_once (procs waiting.1 proc))
  as Hw.
{ subst waiting. unfold probe_run.
  assert (resolved (isStreamLive proc s).2 = false
          ∧ answer (isStreamLive proc s).2 = None
          ∧ streamlink (isStreamLive proc s).2 = proc
          ∧ signalled_once (procs (isStreamLive proc s).1 proc)) as Hstart.
  { repeat split. unfold isStreamLive. cbn [fst procs].
    by rewrite fn_lookup_insert. }
  revert Hstart. generalize (isStreamLive proc s).
  induction Hbefore as [|e0 before He0 _ IH]; intros sp Hsp; [done|].
  cbn [foldl]. by apply IH, probe_step_waiting. }
split; [by destruct Hw as (_ & ? & _)|].
assert (settled = probe_run after (probe_step e waiting)) as ->.
{ subst settled waiting. unfold probe_run. by rewrite foldl_app. }
assert (resolved (probe_step e waiting).2 = true
        ∧ answer (probe_step e waiting).2 = Some (verdict e)
        ∧ streamlink (probe_step e waiting).2 = proc
        ∧ (proc ∉ activeProcesses (probe_step e waiting).1)
        ∧ signalled_once (procs (probe_step e waiting).1 proc)) as Hs.
{ destruct waiting as [s0 pr]. destruct Hw as (Hr & Ha & Hp & Hk).
  cbn [fst snd] in *. subst proc.
  destruct e as [|code parsed| | |]; try done; cbn [probe_step verdict].
  - rewrite Hr. case_bool_decide; cbn [andb].
    + destruct (cleanup_unresolved (has_streams parsed)
        (mk (isRunning s0) (captureInterval s0)
            (Set_delete (streamlink pr) (activeProcesses s0)) (procs s0)
            (intervals s0)) pr Hr Hk) as (?&?&?&?&?). done.
    + destruct (cleanup_unresolved false
        (mk (isRunning s0) (captureInterval s0)
            (Set_delete (streamlink pr) (activeProcesses s0)) (procs s0)
            (intervals s0)) pr Hr Hk) as (?&?&?&?&?). done.
  - destruct (cleanup_unresolved false s0 pr Hr Hk) as (?&?&?&?&?). done.
  - destruct (cleanup_unresolved false s0 pr Hr Hk) as (?&?&?&?&?). done. }
revert Hs. generalize (probe_step e waiting). clear.
unfold probe_run. induction after as [|e0 after IH]; intros sp Hsp.
- by destruct Hsp as (?&?&?&?&?).
- cbn [foldl]. by apply IH, probe_step_settled.
Qed.

Lemma stream_probe_resolves_once_witness :
  let s := mk true None [] (λ _, Node.running) [] in
  let before := [ProbeStop; ProbeExit None (Some Node.SIGTERM)] in
  let e := ProbeClose None (Streams (Some 2%nat)) in
  let after := [ProbeTimeout] in
  let waiting := probe_run before (isStreamLive 0%nat s) in
  let settled := probe_run (before ++ e :: after) (isStreamLive 0%nat s) in
  answer waiting.2 = None ∧
  answer settled.2 = Some (verdict e) ∧
  resolved settled.2 = true ∧
  (0%nat ∉ activeProcesses settled.1) ∧
  signalled_once (procs settled.1 0%nat).
Proof.
apply (stream_probe_resolves_once 0%nat (mk true None [] (λ _, Node.running) [])
         [ProbeStop; ProbeExit None (Some Node.SIGTERM)]
         (ProbeClose None (Streams (Some 2%nat))) [ProbeTimeout]).
- repeat constructor.
- reflexivity.
Defined.

End StreamCapture.

(** ** What is broadcast, and what a subscriber receives *)

Section Subscriber.
Import VisionBroadcaster.

Lemma filter_is_speech_snoc l m :
  filter is_speech (l ++ [m])
  = filter is_speech l ++ (if is_speech m then [m] else []).
Proof.
rewrite filter_app. f_equal. rewrite filter_cons, filter_nil.
by destruct (is_speech m).
Qed.

Lemma step_speech e now h :
  filter is_speech (broadcasts (step e now h))
  = filter is_speech (broadcasts h) ++ speech_of [(e, now)].
Proof.
destruct e; hub_frame;
  rewrite ?filter_is_speech_snoc; cbn [is_speech]; by rewrite ?app_nil_r.
Qed.

(** X26 -- [broadcastChatMessage] and [broadcastTranscript]: every chat
    message and every transcript handed to the hub is broadcast once, at
    the time of the call, and the hub broadcasts no other chat message
    or transcript: those broadcast in a run are those handed in, in
    order. *)
Theorem speech_is_broadcast_once_in_order evs : ∀ h,
  filter is_speech (broadcasts (run evs h))
  = filter is_speech (broadcasts h) ++ speech_of evs.
Proof.
induction evs as [|[e now] evs IH]; intros h.
- by rewrite app_nil_r.
- cbn [run]. rewrite IH, step_speech, <- app_assoc. f_equal.
  unfold speech_of. csimpl. by destruct e.
Qed.














End Subscriber.
